(** * Video analysis queue and rate limiter: a shallow embedding

    This development embeds two pieces of the repository:

    - [Route]: the server-side sliding-window limiter [checkRateLimit] of
      [src/app/api/gemini/analyze-video/route.ts];
    - [Queue]: the client-side scheduler class [VideoAnalysisQueue] of
      [src/lib/utils/rateLimitQueue.ts], while its subscribers return;
    - [Callbacks]: the same class with subscribers that may throw.

    JavaScript numbers that hold counters and millisecond timestamps are
    integers well inside the exact range of a double; they are modelled by
    [Z].  [Date.now()] is an input of every operation that reads the clock. *)

From Stdlib Require Import ZArith Lia List Bool Ascii String.
From stdpp Require Import base option list strings gmap.

Local Open Scope Z_scope.

(** [Math.ceil (x / d)] for an integer [x] and a positive integer [d]. *)
Definition ceil_div (x d : Z) : Z := - ((- x) / d).

(* ===================================================================== *)
(** ** route.ts: the sliding-window limiter                               *)
(* ===================================================================== *)

Module Route.

Definition RATE_LIMIT_WINDOW_MS : Z := 60000.

(** One entry of [RateLimitData.requests]. *)
Record RequestRecord := mkRequestRecord {
  timestamp : Z;
  rid : string
}.

Record RateLimitData := mkRateLimitData {
  count : Z;
  resetTime : Z;
  requests : list RequestRecord;
  lastCleanup : Z
}.

(** The object returned by [checkRateLimit]; [retryAfter] is the optional
    field. *)
Record CheckResult := mkCheckResult {
  allowed : bool;
  remaining : Z;
  cr_resetTime : Z;
  requestsInLastMinute : Z;
  retryAfter : option Z
}.

(** [requestId || `req_...`]: an absent or empty id is replaced by the
    generated one. *)
Definition orGenerated (requestId : option string) (generated : string) : string :=
  match requestId with
  | Some s => if decide (s = EmptyString) then generated else s
  | None => generated
  end.

Section Limiter.

(** [parseInt(process.env.RATE_LIMIT_PER_MINUTE || '10')], fixed when the
    module is loaded. *)
Variable RATE_LIMIT_PER_MINUTE : Z.

(** [checkRateLimit(ip, requestId)] over the module-level [rateLimitStore].
    [now] is [Date.now()] and [generated] the template string built from the
    clock and [Math.random()].  The entry of the store is an object mutated in
    place, hence the store is written back on the denied path too. *)
Definition checkRateLimit (ip : string) (requestId : option string)
    (now : Z) (generated : string) (rateLimitStore : gmap string RateLimitData)
  : CheckResult * gmap string RateLimitData :=
  let key := ip in
  let limitData :=
    match rateLimitStore !! key with
    | Some d => d
    | None => {| count := 0; resetTime := now + RATE_LIMIT_WINDOW_MS;
                 requests := []; lastCleanup := now |}
    end in
  let oneMinuteAgo := now - RATE_LIMIT_WINDOW_MS in
  let pruned := filter (λ req, oneMinuteAgo < timestamp req) (requests limitData) in
  let cnt := Z.of_nat (length pruned) in
  let reset := if decide (resetTime limitData < now)
               then now + RATE_LIMIT_WINDOW_MS else resetTime limitData in
  if decide (RATE_LIMIT_PER_MINUTE ≤ cnt) then
    let oldestRequest := head pruned in
    let retry :=
      match oldestRequest with
      | Some o => ceil_div (timestamp o + RATE_LIMIT_WINDOW_MS - now) 1000
      | None => 60
      end in
    ({| allowed := false; remaining := 0; cr_resetTime := reset;
        requestsInLastMinute := cnt; retryAfter := Some retry |},
     <[key := {| count := cnt; resetTime := reset; requests := pruned;
                 lastCleanup := lastCleanup limitData |}]> rateLimitStore)
  else
    let currentRequestId := orGenerated requestId generated in
    let appended := pruned ++ [{| timestamp := now; rid := currentRequestId |}] in
    let cnt' := Z.of_nat (length appended) in
    ({| allowed := true; remaining := RATE_LIMIT_PER_MINUTE - cnt';
        cr_resetTime := reset; requestsInLastMinute := cnt';
        retryAfter := None |},
     <[key := {| count := cnt'; resetTime := reset; requests := appended;
                 lastCleanup := lastCleanup limitData |}]> rateLimitStore).

(** A permission check as it reaches the limiter. *)
Record Check := mkCheck {
  c_ip : string;
  c_requestId : option string;
  c_now : Z;
  c_generated : string
}.

Definition check (c : Check) (store : gmap string RateLimitData)
  : CheckResult * gmap string RateLimitData :=
  checkRateLimit (c_ip c) (c_requestId c) (c_now c) (c_generated c) store.

(** The store after a sequence of checks, oldest first. *)
Fixpoint run_checks (cs : list Check) (store : gmap string RateLimitData)
  : gmap string RateLimitData :=
  match cs with
  | [] => store
  | c :: rest => run_checks rest (check c store).2
  end.

End Limiter.

(** Timestamps recorded for [ip], as they stand before the check. *)
Definition recorded (store : gmap string RateLimitData) (ip : string)
  : list RequestRecord :=
  match store !! ip with Some d => requests d | None => [] end.

(** A recorded request is inside the trailing window ending at [now]. *)
Definition in_window (now : Z) (r : RequestRecord) : Prop :=
  now - RATE_LIMIT_WINDOW_MS < timestamp r.

#[global] Instance in_window_dec now r : Decision (in_window now r).
Proof. unfold in_window. apply _. Defined.

Definition window_record (store : gmap string RateLimitData) (ip : string)
    (now : Z) : list RequestRecord :=
  filter (in_window now) (recorded store ip).

(** The clock readings of a sequence of checks never go back. *)
Fixpoint chrono_from (t : Z) (cs : list Check) : Prop :=
  match cs with
  | [] => True
  | c :: rest => t ≤ c_now c ∧ chrono_from (c_now c) rest
  end.

Definition chronological (cs : list Check) : Prop :=
  match cs with
  | [] => True
  | c :: rest => chrono_from (c_now c) rest
  end.

(** A record is in ascending order of time and not later than [t]. *)
Fixpoint ascending (l : list RequestRecord) : Prop :=
  match l with
  | [] => True
  | x :: rest => Forall (λ y, timestamp x ≤ timestamp y) rest ∧ ascending rest
  end.

Definition store_ok (t : Z) (store : gmap string RateLimitData) : Prop :=
  ∀ ip d, store !! ip = Some d →
    ascending (requests d) ∧ Forall (λ y, timestamp y ≤ t) (requests d).

End Route.

(* ===================================================================== *)
(** ** rateLimitQueue.ts: the client-side scheduler                        *)
(* ===================================================================== *)

Module Queue.

Definition MAX_RETRIES : Z := 3.
Definition RETRY_BACKOFF_BASE : Z := 2000.
Definition PROCESSING_DELAY : Z := 6000.
(** Exported by [types/video-analysis.ts]. *)
Definition DEFAULT_RATE_LIMIT_PER_MINUTE : Z := 10.

(** *** Data *)

Record AnalysisOptions := mkAnalysisOptions {
  includeVisualHook : bool;
  includeTextHook : bool;
  includeVoiceHook : bool;
  includeVideoScript : bool;
  includePainPoint : bool
}.

(** A browser [File]: the three fields that are persisted and an opaque
    handle on the bytes. *)
Record File := mkFile {
  file_name : string;
  file_size : Z;
  file_type : string;
  file_payload : nat
}.

Record VideoAnalysisRequest := mkRequest {
  id : string;
  videoFile : File;
  filename : string;
  analysisOptions : option AnalysisOptions;
  createdAt : Z
}.

Inductive Status := pending | processing | completed | error.

Record VideoAnalysisResult := mkResult {
  res_id : string;
  res_filename : string;
  status : Status;
  visualHook : option string;
  textHook : option string;
  voiceHook : option string;
  videoScript : option string;
  painPoint : option string;
  processingTime : option Z;
  res_error : option string;
  res_createdAt : Z;
  completedAt : option Z
}.

Record RateLimitInfo := mkRateLimitInfo {
  remaining : Z;
  resetTime : Z;
  requestsInLastMinute : Z;
  maxRequestsPerMinute : Z
}.

Record QueueStatus := mkQueueStatus {
  qs_position : Z;
  qs_estimatedWaitTime : Z;
  qs_isProcessing : bool;
  qs_isPaused : bool;
  qs_totalInQueue : Z;
  qs_completedCount : Z;
  qs_errorCount : Z
}.

(** [VideoAnalysisApiResponse] and its parts. *)
Record ApiData := mkApiData {
  d_id : string;
  d_visualHook : string;
  d_textHook : string;
  d_voiceHook : string;
  d_videoScript : string;
  d_painPoint : string;
  d_processingTime : Z
}.

(** [error.details] as the route fills it on a 429. *)
Record ErrorDetails := mkErrorDetails {
  det_resetTime : option Z;
  det_retryAfter : option Z;
  det_requestsInLastMinute : option Z
}.

Record ApiError := mkApiError {
  message : string;
  code : string;
  details : option ErrorDetails
}.

Record VideoAnalysisApiResponse := mkApiResponse {
  success : bool;
  data : option ApiData;
  api_error : option ApiError;
  api_rateLimitInfo : option RateLimitInfo
}.

Record QueueItem := mkQueueItem {
  request : VideoAnalysisRequest;
  retryCount : Z;
  maxRetries : Z;
  lastAttempt : option Z
}.

Record Statistics := mkStatistics {
  totalProcessed : Z;
  successCount : Z;
  errorCount : Z;
  startTime : option Z
}.

Record QueueState := mkQueueState {
  items : list QueueItem;
  isProcessing : bool;
  isPaused : bool;
  rateLimitInfo : RateLimitInfo;
  statistics : Statistics
}.

(** *** The environment of the object *)

(** What a pending [setTimeout] callback does when it fires. *)
Inductive TimerAction :=
  | CallProcessNext
  | Requeue (item : QueueItem).

Record Timer := mkTimer {
  handle : nat;
  delay : Z;
  due : Z;
  action : TimerAction
}.

(** One serialized queue item: the request with the [File] reduced to its
    name, size and type. *)
Record StoredItem := mkStoredItem {
  si_id : string;
  si_file_name : string;
  si_file_size : Z;
  si_file_type : string;
  si_filename : string;
  si_analysisOptions : option AnalysisOptions;
  si_createdAt : Z;
  si_retryCount : Z;
  si_maxRetries : Z;
  si_lastAttempt : option Z
}.

(** The value [JSON.parse] yields for the storage key.  The two fields that
    [loadFromStorage] tests for truthiness are optional. *)
Record ParsedState := mkParsedState {
  p_items : list StoredItem;
  p_isProcessing : bool;
  p_isPaused : bool;
  p_rateLimitInfo : option RateLimitInfo;
  p_statistics : option Statistics
}.

(** [localStorage] under [STORAGE_KEY]: nothing, a string that [JSON.parse]
    rejects, or a parsed record. *)
Inductive StorageEntry :=
  | Absent
  | Unparsable
  | Parsed (ps : ParsedState).

(** Effects visible outside the object, in order: callback invocations and
    network requests. *)
Inductive Emitted :=
  | EProgress (st : QueueStatus)
  | ERateLimit (info : RateLimitInfo)
  | EResult (result : VideoAnalysisResult)
  | EFetch (req : VideoAnalysisRequest).

(** The object's fields together with the timer table, the storage, the
    calls awaiting their response and the trace of effects. *)
Record World := mkWorld {
  state : QueueState;
  processingTimer : option nat;
  rateLimitTimer : option nat;
  progressCallback : bool;
  rateLimitCallback : bool;
  resultCallback : bool;
  timers : list Timer;
  nextHandle : nat;
  localStorage : StorageEntry;
  inflight : list QueueItem;
  trace : list Emitted
}.

(** How the remote call settles: [fetch] or [response.json()] rejects with an
    [Error] carrying a message, or a response body is obtained. *)
Inductive Outcome :=
  | Rejected (msg : string)
  | Responded (apiResponse : VideoAnalysisApiResponse).

(** *** Field updates *)

Definition set_items (l : list QueueItem) (s : QueueState) : QueueState :=
  mkQueueState l (isProcessing s) (isPaused s) (rateLimitInfo s) (statistics s).
Definition set_isProcessing (b : bool) (s : QueueState) : QueueState :=
  mkQueueState (items s) b (isPaused s) (rateLimitInfo s) (statistics s).
Definition set_isPaused (b : bool) (s : QueueState) : QueueState :=
  mkQueueState (items s) (isProcessing s) b (rateLimitInfo s) (statistics s).
Definition set_rateLimitInfo (r : RateLimitInfo) (s : QueueState) : QueueState :=
  mkQueueState (items s) (isProcessing s) (isPaused s) r (statistics s).
Definition set_statistics (t : Statistics) (s : QueueState) : QueueState :=
  mkQueueState (items s) (isProcessing s) (isPaused s) (rateLimitInfo s) t.

Definition with_state (f : QueueState → QueueState) (w : World) : World :=
  mkWorld (f (state w)) (processingTimer w) (rateLimitTimer w)
    (progressCallback w) (rateLimitCallback w) (resultCallback w)
    (timers w) (nextHandle w) (localStorage w) (inflight w) (trace w).
Definition set_processingTimer (h : option nat) (w : World) : World :=
  mkWorld (state w) h (rateLimitTimer w)
    (progressCallback w) (rateLimitCallback w) (resultCallback w)
    (timers w) (nextHandle w) (localStorage w) (inflight w) (trace w).
Definition set_rateLimitTimer (h : option nat) (w : World) : World :=
  mkWorld (state w) (processingTimer w) h
    (progressCallback w) (rateLimitCallback w) (resultCallback w)
    (timers w) (nextHandle w) (localStorage w) (inflight w) (trace w).
Definition set_callbacks (p r res : bool) (w : World) : World :=
  mkWorld (state w) (processingTimer w) (rateLimitTimer w) p r res
    (timers w) (nextHandle w) (localStorage w) (inflight w) (trace w).
Definition set_timers (ts : list Timer) (n : nat) (w : World) : World :=
  mkWorld (state w) (processingTimer w) (rateLimitTimer w)
    (progressCallback w) (rateLimitCallback w) (resultCallback w)
    ts n (localStorage w) (inflight w) (trace w).
Definition set_localStorage (e : StorageEntry) (w : World) : World :=
  mkWorld (state w) (processingTimer w) (rateLimitTimer w)
    (progressCallback w) (rateLimitCallback w) (resultCallback w)
    (timers w) (nextHandle w) e (inflight w) (trace w).
Definition set_inflight (l : list QueueItem) (w : World) : World :=
  mkWorld (state w) (processingTimer w) (rateLimitTimer w)
    (progressCallback w) (rateLimitCallback w) (resultCallback w)
    (timers w) (nextHandle w) (localStorage w) l (trace w).
Definition emit (e : Emitted) (w : World) : World :=
  mkWorld (state w) (processingTimer w) (rateLimitTimer w)
    (progressCallback w) (rateLimitCallback w) (resultCallback w)
    (timers w) (nextHandle w) (localStorage w) (inflight w) (trace w ++ [e]).

(** *** Completions: normal return or a thrown [Error] *)

Inductive Completion (A : Type) :=
  | Normal (a : A)
  | Throw (msg : string).
Arguments Normal {A} a.
Arguments Throw {A} msg.

(** A method body: it transforms the world and returns or throws. *)
Definition M (A : Type) : Type := World → Completion A * World.

Definition ret {A} (a : A) : M A := λ w, (Normal a, w).
Definition throw {A} (msg : string) : M A := λ w, (Throw msg, w).
Definition bind {A B} (m : M A) (k : A → M B) : M B :=
  λ w, match m w with
       | (Normal a, w') => k a w'
       | (Throw msg, w') => (Throw msg, w')
       end.
(** [try { body } catch (error) { handler(error.message) }]. *)
Definition tryCatch {A} (body : M A) (handler : string → M A) : M A :=
  λ w, match body w with
       | (Normal a, w') => (Normal a, w')
       | (Throw msg, w') => handler msg w'
       end.
(** A block of statements that cannot throw. *)
Definition lift (f : World → World) : M unit := λ w, (Normal tt, f w).

Notation "'let!' x ':=' m 'in' k" := (bind m (λ x, k))
  (at level 10, x name, m at level 100, k at level 200).
Notation "m '>>;' k" := (bind m (λ _, k))
  (at level 100, k at level 200, right associativity).

(** *** Strings *)

Definition lower_ascii (c : ascii) : ascii :=
  let n := nat_of_ascii c in
  if ((65 <=? n) && (n <=? 90))%nat then ascii_of_nat (n + 32) else c.

(** [String.prototype.toLowerCase] on the ASCII range: messages are taken
    to be made of ASCII characters, which is where a [string] of 8-bit
    characters and a JavaScript string are the same thing.  Other characters
    are left as they are. *)
Fixpoint toLowerCase (s : string) : string :=
  match s with
  | EmptyString => EmptyString
  | String c rest => String (lower_ascii c) (toLowerCase rest)
  end.

(** [s.includes(sub)]. *)
Fixpoint includes (sub s : string) : bool :=
  String.prefix sub s ||
  match s with
  | EmptyString => false
  | String _ rest => includes sub rest
  end.

Definition retryableErrors : list string :=
  [ "network"; "timeout"; "rate limit"; "temporary";
    "service unavailable"; "internal server error" ]%string.

Definition isRetryableError (errorMessage : string) : bool :=
  let lowerMessage := toLowerCase errorMessage in
  existsb (λ e, includes e lowerMessage) retryableErrors.

(** *** State and notifications *)

Definition initializeState (now : Z) : QueueState :=
  {| items := [];
     isProcessing := false;
     isPaused := false;
     rateLimitInfo :=
       {| remaining := DEFAULT_RATE_LIMIT_PER_MINUTE;
          resetTime := now + 60000;
          requestsInLastMinute := 0;
          maxRequestsPerMinute := DEFAULT_RATE_LIMIT_PER_MINUTE |};
     statistics :=
       {| totalProcessed := 0; successCount := 0; errorCount := 0;
          startTime := None |} |}.

Definition getQueueStatus (s : QueueState) : QueueStatus :=
  let totalInQueue := Z.of_nat (length (items s)) in
  let position := if isProcessing s then Z.max 1 totalInQueue else 0 in
  let estimatedWaitTime := totalInQueue * (PROCESSING_DELAY / 1000) in
  {| qs_position := position;
     qs_estimatedWaitTime := estimatedWaitTime;
     qs_isProcessing := isProcessing s;
     qs_isPaused := isPaused s;
     qs_totalInQueue := totalInQueue;
     qs_completedCount := successCount (statistics s);
     qs_errorCount := errorCount (statistics s) |}.

(** The three notification methods call the subscribed callback, if any.
    Here, and in the methods of this module, the callback returns; what the
    methods do when a callback throws is described in [Callbacks]. *)
Definition notifyProgress (w : World) : World :=
  if progressCallback w then emit (EProgress (getQueueStatus (state w))) w else w.

Definition notifyRateLimit (w : World) : World :=
  if rateLimitCallback w then emit (ERateLimit (rateLimitInfo (state w))) w else w.

Definition notifyResult (result : VideoAnalysisResult) (w : World) : World :=
  if resultCallback w then emit (EResult result) w else w.

Definition onProgress (w : World) : World :=
  set_callbacks true (rateLimitCallback w) (resultCallback w) w.
Definition onRateLimitUpdate (w : World) : World :=
  set_callbacks (progressCallback w) true (resultCallback w) w.
Definition onResult (w : World) : World :=
  set_callbacks (progressCallback w) (rateLimitCallback w) true w.

(** *** Persistence *)

Definition serializeItem (item : QueueItem) : StoredItem :=
  let r := request item in
  {| si_id := id r;
     si_file_name := file_name (videoFile r);
     si_file_size := file_size (videoFile r);
     si_file_type := file_type (videoFile r);
     si_filename := filename r;
     si_analysisOptions := analysisOptions r;
     si_createdAt := createdAt r;
     si_retryCount := retryCount item;
     si_maxRetries := maxRetries item;
     si_lastAttempt := lastAttempt item |}.

Definition serializeState (s : QueueState) : ParsedState :=
  {| p_items := map serializeItem (items s);
     p_isProcessing := isProcessing s;
     p_isPaused := isPaused s;
     p_rateLimitInfo := Some (rateLimitInfo s);
     p_statistics := Some (statistics s) |}.

(** [saveToStorage]: the whole body sits in a [try] whose handler only logs. *)
Definition saveToStorage (w : World) : World :=
  set_localStorage (Parsed (serializeState (state w))) w.

(** [loadFromStorage]: the rate-limit record and the statistics are taken
    over when present; the items are left alone.  A missing entry or a parse
    error leaves the state as it is. *)
Definition loadFromStorage (w : World) : World :=
  match localStorage w with
  | Absent => w
  | Unparsable => w
  | Parsed parsedState =>
      let w1 :=
        match p_rateLimitInfo parsedState with
        | Some info => with_state (set_rateLimitInfo info) w
        | None => w
        end in
      match p_statistics parsedState with
      | Some st => with_state (set_statistics st) w1
      | None => w1
      end
  end.

(** [new VideoAnalysisQueue()] at time [now] in a browser whose storage holds
    [stored]. *)
Definition construct (now : Z) (stored : StorageEntry) : World :=
  loadFromStorage
    {| state := initializeState now;
       processingTimer := None; rateLimitTimer := None;
       progressCallback := false; rateLimitCallback := false;
       resultCallback := false;
       timers := []; nextHandle := 1%nat;
       localStorage := stored; inflight := []; trace := [] |}.

(** *** Timers *)

(** The longest delay a timer takes as it is, [2^31 - 1] ms. *)
Definition TIMEOUT_MAX : Z := 2147483647.

(** The time a timer set for [d] ms waits: a delay below 1 ms or above
    [TIMEOUT_MAX] is replaced by 1 ms. *)
Definition timerDelay (d : Z) : Z :=
  if decide (1 ≤ d ≤ TIMEOUT_MAX) then d else 1.

(** [setTimeout(action, delay)] at time [now]: the new handle and the world
    with the callback registered.  [delay] is the delay asked for, [due] the
    time from which the timer may fire. *)
Definition setTimeout (act : TimerAction) (d : Z) (now : Z) (w : World)
  : nat * World :=
  let h := nextHandle w in
  (h, set_timers (timers w ++ [{| handle := h; delay := d;
                                  due := now + timerDelay d;
                                  action := act |}])
                 (S h) w).

Definition clearTimeout (h : nat) (w : World) : World :=
  set_timers (filter (λ t, handle t ≠ h) (timers w)) (nextHandle w) w.

Definition clearTimers (w : World) : World :=
  let w1 :=
    match processingTimer w with
    | Some h => set_processingTimer None (clearTimeout h w)
    | None => w
    end in
  match rateLimitTimer w1 with
  | Some h => set_rateLimitTimer None (clearTimeout h w1)
  | None => w1
  end.

(** *** Queue management *)

Definition newItem (req : VideoAnalysisRequest) : QueueItem :=
  {| request := req; retryCount := 0; maxRetries := MAX_RETRIES;
     lastAttempt := None |}.

Definition addToQueue (req : VideoAnalysisRequest) (w : World) : World :=
  notifyProgress (saveToStorage
    (with_state (λ s, set_items (items s ++ [newItem req]) s) w)).

Definition addMultipleToQueue (reqs : list VideoAnalysisRequest) (w : World)
  : World :=
  notifyProgress (saveToStorage
    (with_state (λ s, set_items (items s ++ map newItem reqs) s) w)).

Definition stopProcessing (w : World) : World :=
  notifyProgress (saveToStorage (clearTimers
    (with_state (λ s, set_isPaused false (set_isProcessing false s)) w))).

Definition pauseProcessing (w : World) : World :=
  notifyProgress (saveToStorage (clearTimers
    (with_state (set_isPaused true) w))).

Definition resetStatistics (w : World) : World :=
  with_state (set_statistics
    {| totalProcessed := 0; successCount := 0; errorCount := 0;
       startTime := None |}) w.

Definition clearQueue (w : World) : World :=
  notifyProgress (saveToStorage (resetStatistics
    (with_state (set_items []) (stopProcessing w)))).

Definition removeFromQueue (requestId : string) (w : World) : World :=
  notifyProgress (saveToStorage
    (with_state
       (λ s, set_items (filter (λ item, id (request item) ≠ requestId) (items s)) s)
       w)).

(** *** The dispatch loop *)

(** The local window reset of [processNext]. *)
Definition resetWindow (now : Z) (info : RateLimitInfo) : RateLimitInfo :=
  {| remaining := maxRequestsPerMinute info;
     resetTime := now + 60000;
     requestsInLastMinute := 0;
     maxRequestsPerMinute := maxRequestsPerMinute info |}.

(** The local decrement on success. *)
Definition consumeSlot (info : RateLimitInfo) : RateLimitInfo :=
  {| remaining := Z.max 0 (remaining info - 1);
     resetTime := resetTime info;
     requestsInLastMinute := requestsInLastMinute info + 1;
     maxRequestsPerMinute := maxRequestsPerMinute info |}.

Definition touch (now : Z) (item : QueueItem) : QueueItem :=
  {| request := request item; retryCount := retryCount item;
     maxRetries := maxRetries item; lastAttempt := Some now |}.

(** [items.shift()], stamp the item and enter [processVideoAnalysis] up to
    the point where [fetch] is awaited. *)
Definition dispatch (now : Z) (w : World) : World :=
  match items (state w) with
  | [] => w
  | item :: rest =>
      let item' := touch now item in
      let w1 := with_state (set_items rest) w in
      set_inflight (inflight w1 ++ [item']) (emit (EFetch (request item')) w1)
  end.

(** [processNext] from its entry to its first suspension. *)
Definition processNext (now : Z) (w : World) : World :=
  let s := state w in
  if negb (isProcessing s) || isPaused s || (length (items s) =? 0)%nat then
    if (length (items s) =? 0)%nat && isProcessing s
    then stopProcessing w
    else w
  else
    let info := rateLimitInfo s in
    if decide (remaining info ≤ 0) then
      let waitTime := resetTime info - now in
      if decide (0 < waitTime) then
        let '(h, w1) := setTimeout CallProcessNext waitTime now w in
        set_rateLimitTimer (Some h) w1
      else
        dispatch now
          (notifyRateLimit (with_state (set_rateLimitInfo (resetWindow now info)) w))
    else dispatch now w.

Definition startProcessing (now : Z) (w : World) : World :=
  if isProcessing (state w) then w
  else
    let w1 := with_state
      (λ s, set_statistics
              {| totalProcessed := totalProcessed (statistics s);
                 successCount := successCount (statistics s);
                 errorCount := errorCount (statistics s);
                 startTime := Some now |}
              (set_isPaused false (set_isProcessing true s))) w in
    processNext now (notifyProgress (saveToStorage w1)).

Definition resumeProcessing (now : Z) (w : World) : World :=
  if negb (isProcessing (state w)) then w
  else
    processNext now (notifyProgress (saveToStorage
      (with_state (set_isPaused false) w))).

Definition resetRetry (item : QueueItem) : QueueItem :=
  {| request := request item; retryCount := 0;
     maxRetries := maxRetries item; lastAttempt := None |}.

(** [retryFailedItem]: the first pending item with this id is reset where it
    stands in the array. *)
Definition retryFailedItem (now : Z) (requestId : string) (w : World) : World :=
  match list_find (λ item, id (request item) = requestId) (items (state w)) with
  | Some (i, item) =>
      let w1 := with_state
        (λ s, set_items (<[i := resetRetry item]> (items s)) s) w in
      if negb (isProcessing (state w1)) then startProcessing now w1 else w1
  | None => w
  end.

(** The result built by [processVideoAnalysis] from the response data. *)
Definition completedResult (req : VideoAnalysisRequest) (d : ApiData)
    (now : Z) : VideoAnalysisResult :=
  {| res_id := id req;
     res_filename := filename req;
     status := completed;
     visualHook := Some (d_visualHook d);
     textHook := Some (d_textHook d);
     voiceHook := Some (d_voiceHook d);
     videoScript := Some (d_videoScript d);
     painPoint := Some (d_painPoint d);
     processingTime := Some (d_processingTime d);
     res_error := None;
     res_createdAt := createdAt req;
     completedAt := Some now |}.

Definition errorResult (item : QueueItem) (errorMessage : string) (now : Z)
  : VideoAnalysisResult :=
  {| res_id := id (request item);
     res_filename := filename (request item);
     status := error;
     visualHook := None; textHook := None; voiceHook := None;
     videoScript := None; painPoint := None; processingTime := None;
     res_error := Some errorMessage;
     res_createdAt := createdAt (request item);
     completedAt := Some now |}.

(** [apiResponse.error?.message || 'Analysis failed']. *)
Definition failureMessage (r : VideoAnalysisApiResponse) : string :=
  match api_error r with
  | Some e => if decide (message e = EmptyString)
              then "Analysis failed"%string else message e
  | None => "Analysis failed"%string
  end.

(** [processVideoAnalysis] from the point where the awaited call settles. *)
Definition processVideoAnalysis_settle (req : VideoAnalysisRequest)
    (o : Outcome) (now : Z) : M VideoAnalysisResult :=
  match o with
  | Rejected msg => throw msg
  | Responded apiResponse =>
      (match api_rateLimitInfo apiResponse with
       | Some info =>
           lift (λ w, notifyRateLimit (with_state (set_rateLimitInfo info) w))
       | None => ret tt
       end) >>;
      match success apiResponse, data apiResponse with
      | true, Some d => ret (completedResult req d now)
      | _, _ => throw (failureMessage apiResponse)
      end
  end.

Definition bumpRetry (item : QueueItem) : QueueItem :=
  {| request := request item; retryCount := retryCount item + 1;
     maxRetries := maxRetries item; lastAttempt := lastAttempt item |}.

(** [RETRY_BACKOFF_BASE * Math.pow(2, retryCount - 1)]; the count is at
    least 1 where this is evaluated. *)
Definition backoffDelay (count : Z) : Z := RETRY_BACKOFF_BASE * 2 ^ (count - 1).

(** [handleProcessingError(item, error)], [errorMessage] being the message of
    the caught error. *)
Definition handleProcessingError (item : QueueItem) (errorMessage : string)
    (now : Z) (w : World) : World :=
  let item' := bumpRetry item in
  let isRetryable := isRetryableError errorMessage in
  let w1 :=
    if isRetryable && bool_decide (retryCount item' < maxRetries item') then
      (setTimeout (Requeue item') (backoffDelay (retryCount item')) now w).2
    else
      notifyResult (errorResult item' errorMessage now)
        (with_state
           (λ s, set_statistics
                   {| totalProcessed := totalProcessed (statistics s) + 1;
                      successCount := successCount (statistics s);
                      errorCount := errorCount (statistics s) + 1;
                      startTime := startTime (statistics s) |} s) w) in
  notifyProgress (saveToStorage w1).

(** The statements of [processNext] after a successful [await]. *)
Definition recordSuccess (result : VideoAnalysisResult) (w : World) : World :=
  let w1 := with_state
    (λ s, set_rateLimitInfo (consumeSlot (rateLimitInfo s))
            (set_statistics
               {| totalProcessed := totalProcessed (statistics s) + 1;
                  successCount := successCount (statistics s) + 1;
                  errorCount := errorCount (statistics s);
                  startTime := startTime (statistics s) |} s)) w in
  notifyResult result (notifyRateLimit (notifyProgress (saveToStorage w1))).

(** [this.processingTimer = setTimeout(() => this.processNext(), PROCESSING_DELAY)]. *)
Definition scheduleNext (now : Z) (w : World) : World :=
  let '(h, w1) := setTimeout CallProcessNext PROCESSING_DELAY now w in
  set_processingTimer (Some h) w1.

(** [processNext] from the moment the remote call of the [k]-th call in
    flight settles with [o], to its end. *)
Definition processNext_settle (now : Z) (k : nat) (o : Outcome) : M unit :=
  λ w,
    match inflight w !! k with
    | None => (Normal tt, w)
    | Some item =>
        (tryCatch
           (let! result := processVideoAnalysis_settle (request item) o now in
            lift (recordSuccess result))
           (λ errorMessage, lift (handleProcessingError item errorMessage now))
         >>; lift (scheduleNext now))
          (set_inflight (delete k (inflight w)) w)
    end.

(** A timer whose time has come fires and leaves the table. *)
Definition fire (now : Z) (h : nat) (w : World) : World :=
  match list_find (λ t, handle t = h) (timers w) with
  | None => w
  | Some (_, t) =>
      if decide (due t ≤ now) then
        let w1 := clearTimeout h w in
        match action t with
        | CallProcessNext => processNext now w1
        | Requeue item =>
            notifyProgress (saveToStorage
              (with_state (λ s, set_items (item :: items s) s) w1))
        end
      else w
  end.

Definition destroy (w : World) : World :=
  set_callbacks false false false (clearTimers w).

(** *** Everything that can happen to the object *)

Inductive Event :=
  | OnProgress | OnRateLimitUpdate | OnResult
  | AddToQueue (req : VideoAnalysisRequest)
  | AddMultipleToQueue (reqs : list VideoAnalysisRequest)
  | StartProcessing | PauseProcessing | ResumeProcessing | StopProcessing
  | ClearQueue
  | RemoveFromQueue (requestId : string)
  | RetryFailedItem (requestId : string)
  | Destroy
  | TimerFires (h : nat)
  | CallSettles (k : nat) (o : Outcome).

Definition step (now : Z) (e : Event) (w : World) : World :=
  match e with
  | OnProgress => onProgress w
  | OnRateLimitUpdate => onRateLimitUpdate w
  | OnResult => onResult w
  | AddToQueue req => addToQueue req w
  | AddMultipleToQueue reqs => addMultipleToQueue reqs w
  | StartProcessing => startProcessing now w
  | PauseProcessing => pauseProcessing w
  | ResumeProcessing => resumeProcessing now w
  | StopProcessing => stopProcessing w
  | ClearQueue => clearQueue w
  | RemoveFromQueue requestId => removeFromQueue requestId w
  | RetryFailedItem requestId => retryFailedItem now requestId w
  | Destroy => destroy w
  | TimerFires h => fire now h w
  | CallSettles k o => (processNext_settle now k o w).2
  end.

(** A run: events with the clock reading at which each happens. *)
Fixpoint run (evs : list (Z * Event)) (w : World) : World :=
  match evs with
  | [] => w
  | (now, e) :: rest => run rest (step now e w)
  end.

End Queue.

(* ===================================================================== *)
(** ** The scheduler with subscribers that may throw                      *)
(* ===================================================================== *)

(** [Queue] describes the object while every subscriber returns.  The three
    callbacks are functions of the caller, and the class calls them without
    any guard; this module describes every method again with callbacks that
    may throw.  [raises e] says what the callback does when it is handed the
    payload of [e]: [Some msg] when it throws, [msg] being the message that
    [handleProcessingError] reads off the thrown value, and [None] when it
    returns.  A callback is taken not to call the queue back. *)
Module Callbacks.
Import Queue.

Section Subscribers.
Variable raises : Emitted → option string.

(** The call of a callback with the payload of [e]. *)
Definition invoke (e : Emitted) : M unit :=
  λ w, match raises e with
       | Some msg => (Throw msg, emit e w)
       | None => (Normal tt, emit e w)
       end.

Definition notifyProgress : M unit :=
  λ w, if progressCallback w
       then invoke (EProgress (getQueueStatus (state w))) w
       else (Normal tt, w).

Definition notifyRateLimit : M unit :=
  λ w, if rateLimitCallback w
       then invoke (ERateLimit (rateLimitInfo (state w))) w
       else (Normal tt, w).

Definition notifyResult (result : VideoAnalysisResult) : M unit :=
  λ w, if resultCallback w then invoke (EResult result) w else (Normal tt, w).

(** Calling an [async] function: it runs up to its first [await]; what it
    throws rejects the promise it returns, which nobody awaits, and the
    caller goes on. *)
Definition detached (m : M unit) : M unit := λ w, (Normal tt, (m w).2).

(** *** Queue management *)

Definition addToQueue (req : VideoAnalysisRequest) : M unit :=
  lift (λ w, saveToStorage
               (with_state (λ s, set_items (items s ++ [newItem req]) s) w)) >>;
  notifyProgress.

Definition addMultipleToQueue (reqs : list VideoAnalysisRequest) : M unit :=
  lift (λ w, saveToStorage
               (with_state (λ s, set_items (items s ++ map newItem reqs) s) w)) >>;
  notifyProgress.

Definition stopProcessing : M unit :=
  lift (λ w, saveToStorage (clearTimers
               (with_state (λ s, set_isPaused false (set_isProcessing false s)) w))) >>;
  notifyProgress.

Definition pauseProcessing : M unit :=
  lift (λ w, saveToStorage (clearTimers (with_state (set_isPaused true) w))) >>;
  notifyProgress.

Definition clearQueue : M unit :=
  stopProcessing >>;
  lift (λ w, saveToStorage (resetStatistics (with_state (set_items []) w))) >>;
  notifyProgress.

Definition removeFromQueue (requestId : string) : M unit :=
  lift (λ w, saveToStorage
               (with_state
                  (λ s, set_items
                          (filter (λ item, id (request item) ≠ requestId) (items s)) s)
                  w)) >>;
  notifyProgress.

(** *** The dispatch loop *)

(** [processNext] from its entry to its first suspension. *)
Definition processNext (now : Z) : M unit :=
  λ w,
    let s := state w in
    if negb (isProcessing s) || isPaused s || (length (items s) =? 0)%nat then
      if (length (items s) =? 0)%nat && isProcessing s
      then stopProcessing w
      else (Normal tt, w)
    else
      let info := rateLimitInfo s in
      if decide (remaining info ≤ 0) then
        let waitTime := resetTime info - now in
        if decide (0 < waitTime) then
          lift (λ w, let '(h, w1) := setTimeout CallProcessNext waitTime now w in
                     set_rateLimitTimer (Some h) w1) w
        else
          (lift (with_state (set_rateLimitInfo (resetWindow now info))) >>;
           notifyRateLimit >>;
           lift (dispatch now)) w
      else lift (dispatch now) w.

Definition startProcessing (now : Z) : M unit :=
  λ w,
    if isProcessing (state w) then (Normal tt, w)
    else
      (lift (λ w, saveToStorage (with_state
               (λ s, set_statistics
                       {| totalProcessed := totalProcessed (statistics s);
                          successCount := successCount (statistics s);
                          errorCount := errorCount (statistics s);
                          startTime := Some now |}
                       (set_isPaused false (set_isProcessing true s))) w)) >>;
       notifyProgress >>;
       detached (processNext now)) w.

Definition resumeProcessing (now : Z) : M unit :=
  λ w,
    if negb (isProcessing (state w)) then (Normal tt, w)
    else
      (lift (λ w, saveToStorage (with_state (set_isPaused false) w)) >>;
       notifyProgress >>;
       detached (processNext now)) w.

Definition retryFailedItem (now : Z) (requestId : string) : M unit :=
  λ w,
    match list_find (λ item, id (request item) = requestId) (items (state w)) with
    | Some (i, item) =>
        let w1 := with_state
          (λ s, set_items (<[i := resetRetry item]> (items s)) s) w in
        if negb (isProcessing (state w1)) then startProcessing now w1
        else (Normal tt, w1)
    | None => (Normal tt, w)
    end.

(** [processVideoAnalysis] from the point where the awaited call settles. *)
Definition processVideoAnalysis_settle (req : VideoAnalysisRequest)
    (o : Outcome) (now : Z) : M VideoAnalysisResult :=
  match o with
  | Rejected msg => throw msg
  | Responded apiResponse =>
      (match api_rateLimitInfo apiResponse with
       | Some info =>
           lift (with_state (set_rateLimitInfo info)) >>; notifyRateLimit
       | None => ret tt
       end) >>;
      match success apiResponse, data apiResponse with
      | true, Some d => ret (completedResult req d now)
      | _, _ => throw (failureMessage apiResponse)
      end
  end.

Definition handleProcessingError (item : QueueItem) (errorMessage : string)
    (now : Z) : M unit :=
  let item' := bumpRetry item in
  let isRetryable := isRetryableError errorMessage in
  (if isRetryable && bool_decide (retryCount item' < maxRetries item') then
     lift (λ w, (setTimeout (Requeue item') (backoffDelay (retryCount item')) now w).2)
   else
     lift (with_state
             (λ s, set_statistics
                     {| totalProcessed := totalProcessed (statistics s) + 1;
                        successCount := successCount (statistics s);
                        errorCount := errorCount (statistics s) + 1;
                        startTime := startTime (statistics s) |} s)) >>;
     notifyResult (errorResult item' errorMessage now)) >>;
  lift saveToStorage >>;
  notifyProgress.

(** The statements of [processNext] after a successful [await]. *)
Definition recordSuccess (result : VideoAnalysisResult) : M unit :=
  lift (λ w, saveToStorage (with_state
          (λ s, set_rateLimitInfo (consumeSlot (rateLimitInfo s))
                  (set_statistics
                     {| totalProcessed := totalProcessed (statistics s) + 1;
                        successCount := successCount (statistics s) + 1;
                        errorCount := errorCount (statistics s);
                        startTime := startTime (statistics s) |} s)) w)) >>;
  notifyProgress >>;
  notifyRateLimit >>;
  notifyResult result.

(** [processNext] from the moment the remote call of the [k]-th call in
    flight settles with [o], to its end.  What is thrown inside the [try],
    by [processVideoAnalysis] or by a callback, is handed to
    [handleProcessingError]; what that throws leaves [processNext] before
    the next tick is armed. *)
Definition processNext_settle (now : Z) (k : nat) (o : Outcome) : M unit :=
  λ w,
    match inflight w !! k with
    | None => (Normal tt, w)
    | Some item =>
        (tryCatch
           (let! result := processVideoAnalysis_settle (request item) o now in
            recordSuccess result)
           (λ errorMessage, handleProcessingError item errorMessage now)
         >>; lift (scheduleNext now))
          (set_inflight (delete k (inflight w)) w)
    end.

(** A timer whose time has come fires and leaves the table. *)
Definition fire (now : Z) (h : nat) : M unit :=
  λ w,
    match list_find (λ t, handle t = h) (timers w) with
    | None => (Normal tt, w)
    | Some (_, t) =>
        if decide (due t ≤ now) then
          match action t with
          | CallProcessNext => (lift (clearTimeout h) >>; processNext now) w
          | Requeue item =>
              (lift (λ w, saveToStorage
                            (with_state (λ s, set_items (item :: items s) s)
                               (clearTimeout h w))) >>;
               notifyProgress) w
          end
        else (Normal tt, w)
    end.

(** *** Everything that can happen to the object *)

Definition step (now : Z) (e : Event) : M unit :=
  match e with
  | OnProgress => lift onProgress
  | OnRateLimitUpdate => lift onRateLimitUpdate
  | OnResult => lift onResult
  | AddToQueue req => addToQueue req
  | AddMultipleToQueue reqs => addMultipleToQueue reqs
  | StartProcessing => startProcessing now
  | PauseProcessing => pauseProcessing
  | ResumeProcessing => resumeProcessing now
  | StopProcessing => stopProcessing
  | ClearQueue => clearQueue
  | RemoveFromQueue requestId => removeFromQueue requestId
  | RetryFailedItem requestId => retryFailedItem now requestId
  | Destroy => lift destroy
  | TimerFires h => fire now h
  | CallSettles k o => processNext_settle now k o
  end.

(** A run: whatever an event throws goes to the caller of the method or, for
    a timer or a settling call, to nobody; the object lives on. *)
Fixpoint run (evs : list (Z * Event)) (w : World) : World :=
  match evs with
  | [] => w
  | (now, e) :: rest => run rest (step now e w).2
  end.

End Subscribers.

(** Subscribers that return, whatever they are handed. *)
Definition returning (raises : Emitted → option string) : Prop :=
  ∀ e, raises e = None.



End Callbacks.

(* ===================================================================== *)
(** ** Notions used to state the properties                               *)
(* ===================================================================== *)

Module Notions.
Import Queue.

(** The bookkeeping equation of [RateLimitInfo]. *)
Definition balanced (info : RateLimitInfo) : Prop :=
  remaining info = Z.max 0 (maxRequestsPerMinute info - requestsInLastMinute info).


(** The server snapshot an event brings with it, if any. *)
Definition snapshot_of (e : Event) : option RateLimitInfo :=
  match e with
  | CallSettles _ (Responded apiResponse) => api_rateLimitInfo apiResponse
  | _ => None
  end.

(** The ways one event may change the rate-limit record. *)
Inductive rate_change (now : Z) (snapshot : option RateLimitInfo)
    (before : RateLimitInfo) : RateLimitInfo → Prop :=
  | rc_unchanged : rate_change now snapshot before before
  | rc_reset :
      remaining before ≤ 0 → resetTime before - now ≤ 0 →
      rate_change now snapshot before (resetWindow now before)
  | rc_decrement : rate_change now snapshot before (consumeSlot before)
  | rc_snapshot s :
      snapshot = Some s → rate_change now snapshot before s
  | rc_snapshot_decrement s :
      snapshot = Some s → rate_change now snapshot before (consumeSlot s).

(** A callback that is invoked when subscribed. *)
Definition emit_when (b : bool) (e : Emitted) (w : World) : World :=
  mkWorld (state w) (processingTimer w) (rateLimitTimer w)
    (progressCallback w) (rateLimitCallback w) (resultCallback w)
    (timers w) (nextHandle w) (localStorage w) (inflight w)
    (trace w ++ if b then [e] else []).

(** The timer table once the handle stored in a field is cleared. *)
Definition without (field : option nat) (ts : list Timer) : list Timer :=
  match field with
  | Some h => filter (λ t, handle t ≠ h) ts
  | None => ts
  end.

(** Whether [processVideoAnalysis] returns or throws once its call settles. *)
Definition verdict (req : VideoAnalysisRequest) (o : Outcome) (now : Z)
  : Completion VideoAnalysisResult :=
  match o with
  | Rejected msg => Throw msg
  | Responded apiResponse =>
      match success apiResponse, data apiResponse with
      | true, Some d => Normal (completedResult req d now)
      | _, _ => Throw (failureMessage apiResponse)
      end
  end.

(** The world once [processVideoAnalysis] has taken over the snapshot of the
    response. *)
Definition absorb (o : Outcome) (w : World) : World :=
  match snapshot_of (CallSettles 0%nat o) with
  | Some info => notifyRateLimit (with_state (set_rateLimitInfo info) w)
  | None => w
  end.

(** The world at the end of [processNext] when the call of [item] settles. *)
Definition after_settle (item : QueueItem) (o : Outcome) (now : Z) (w : World)
  : World :=
  scheduleNext now
    match verdict (request item) o now with
    | Normal result => recordSuccess result (absorb o w)
    | Throw msg => handleProcessingError item msg now (absorb o w)
    end.



(** The number of network requests issued so far. *)
Definition fetches (w : World) : nat :=
  length (omap (λ e, match e with EFetch r => Some r | _ => None end) (trace w)).

(** The results handed to the result callback so far. *)
Definition results (w : World) : list VideoAnalysisResult :=
  omap (λ e, match e with EResult r => Some r | _ => None end) (trace w).

(** Events that come from the environment on its own, without a call to
    the object: a timer fires or a remote call settles. *)
Definition background (e : Event) : Prop :=
  match e with
  | TimerFires _ | CallSettles _ _ => True
  | _ => False
  end.

(** The server snapshots of a run satisfy [P]. *)
Definition snapshots_satisfy (P : RateLimitInfo → Prop) (evs : list (Z * Event))
  : Prop :=
  Forall (λ ne, match snapshot_of ne.2 with Some s => P s | None => True end) evs.

(** Backoff timers still pending. *)
Definition pending_requeues (w : World) : list Timer :=
  omap (λ t, match action t with Requeue _ => Some t | _ => None end) (timers w).

End Notions.

(* ===================================================================== *)
(** ** Concrete inputs                                                    *)
(* ===================================================================== *)

Module Examples.
Import Queue.
Local Open Scope string_scope.

Definition checks_0_1 : list Route.Check :=
  [ Route.mkCheck "10.0.0.1" None 0 "req_0_a";
    Route.mkCheck "10.0.0.1" None 1000 "req_1000_b" ].
Definition check_2 : Route.Check :=
  Route.mkCheck "10.0.0.1" None 2000 "req_2000_c".

Definition clip : File :=
  {| file_name := "clip.mp4"; file_size := 1048576;
     file_type := "video/mp4"; file_payload := 1%nat |}.

Definition req1 : VideoAnalysisRequest :=
  {| id := "v1"; videoFile := clip; filename := "clip.mp4";
     analysisOptions := Some (mkAnalysisOptions true true true true true);
     createdAt := 500 |}.

(** A new queue in an empty browser, with the three callbacks subscribed. *)
Definition fresh : World :=
  onResult (onRateLimitUpdate (onProgress (construct 1000 Absent))).

(** One item enqueued and started: its call is in flight. *)
Definition dispatched : World :=
  run [(1000, AddToQueue req1); (1000, StartProcessing)] fresh.

Definition okData : ApiData :=
  {| d_id := "analysis_1"; d_visualHook := "hook"; d_textHook := "text";
     d_voiceHook := "voice"; d_videoScript := "script";
     d_painPoint := "pain"; d_processingTime := 1200 |}.

(** A successful response without a snapshot. *)
Definition okResponse : VideoAnalysisApiResponse :=
  {| success := true; data := Some okData; api_error := None;
     api_rateLimitInfo := None |}.


(** The 429 body of the route, asking to wait 30 seconds. *)
Definition rateLimited429 : VideoAnalysisApiResponse :=
  {| success := false; data := None;
     api_error :=
       Some {| message := "Rate limit exceeded. Please wait 30 seconds before making another request.";
               code := "RATE_LIMIT_EXCEEDED";
               details := Some {| det_resetTime := Some 61000;
                                  det_retryAfter := Some 30;
                                  det_requestsInLastMinute := Some 10 |} |};
     api_rateLimitInfo :=
       Some {| remaining := 0; resetTime := 61000;
               requestsInLastMinute := 10; maxRequestsPerMinute := 10 |} |}.



(** The remote call of the only item always fails with a network error; every
    timer fires when due. *)
Definition always_failing : World :=
  run [(2000, CallSettles 0%nat (Rejected "Network error"));
       (4000, TimerFires 1%nat); (8000, TimerFires 2%nat);
       (9000, CallSettles 0%nat (Rejected "Network error"));
       (13000, TimerFires 3%nat); (15000, TimerFires 4%nat);
       (16000, CallSettles 0%nat (Rejected "Network error"));
       (22000, TimerFires 5%nat)] dispatched.

(** A stored record whose window closed long ago and whose counters do not
    add up, with one stored item. *)
Definition staleStored : ParsedState :=
  {| p_items :=
       [ {| si_id := "v0"; si_file_name := "old.mp4"; si_file_size := 10;
            si_file_type := "video/mp4"; si_filename := "old.mp4";
            si_analysisOptions := None; si_createdAt := 1;
            si_retryCount := 1; si_maxRetries := 3; si_lastAttempt := Some 2 |} ];
     p_isProcessing := true;
     p_isPaused := false;
     p_rateLimitInfo :=
       Some {| remaining := 5; resetTime := 1000;
               requestsInLastMinute := 3; maxRequestsPerMinute := 10 |};
     p_statistics :=
       Some {| totalProcessed := 4; successCount := 3; errorCount := 1;
               startTime := Some 10 |} |}.

End Examples.

(* ===================================================================== *)
(** ** route.ts: housekeeping and the snapshot sent to the client         *)
(* ===================================================================== *)

Module RouteExt.
Import Route.

Definition CLEANUP_INTERVAL_MS : Z := 300000.

(** The body of the [setInterval] callback at time [now]: entries whose
    [resetTime] lies more than five minutes back are deleted. *)
Definition cleanup (now : Z) (rateLimitStore : gmap string RateLimitData)
  : gmap string RateLimitData :=
  filter (λ kd, ¬ (resetTime kd.2 + CLEANUP_INTERVAL_MS < now)) rateLimitStore.

(** The [rateLimitInfo] record that [POST] builds from the answer of
    [checkRateLimit] and sends with every response after the check. *)
Definition rateLimitInfoOf (RATE_LIMIT_PER_MINUTE : Z) (res : CheckResult)
  : Queue.RateLimitInfo :=
  {| Queue.remaining := remaining res;
     Queue.resetTime := cr_resetTime res;
     Queue.requestsInLastMinute := requestsInLastMinute res;
     Queue.maxRequestsPerMinute := RATE_LIMIT_PER_MINUTE |}.

(** The answers given to a sequence of checks, oldest first. *)
Fixpoint answers (ceiling : Z) (cs : list Check)
    (store : gmap string RateLimitData) : list CheckResult :=
  match cs with
  | [] => []
  | c :: rest =>
      (check ceiling c store).1 :: answers ceiling rest (check ceiling c store).2
  end.

(** Two stores that differ only by entries a cleanup at time [t] may have
    deleted, and by the [lastCleanup] field, which is never read. *)
Definition same_but_stale (t : Z) (cleaned store : gmap string RateLimitData)
  : Prop :=
  ∀ ip,
    match cleaned !! ip, store !! ip with
    | Some d1, Some d2 => resetTime d1 = resetTime d2 ∧ requests d1 = requests d2
    | None, Some d2 =>
        resetTime d2 + RATE_LIMIT_WINDOW_MS ≤ t ∧
        Forall (λ r, timestamp r ≤ resetTime d2) (requests d2)
    | None, None => True
    | Some _, None => False
    end.

(** No record of the store holds more than the ceiling allows. *)
Definition within_ceiling (ceiling : Z) (store : gmap string RateLimitData) : Prop :=
  ∀ ip d, store !! ip = Some d →
    Z.of_nat (length (requests d)) ≤ Z.max 0 ceiling.

(** No recorded request is later than the [resetTime] of its entry. *)
Definition before_reset (store : gmap string RateLimitData) : Prop :=
  ∀ ip d, store !! ip = Some d →
    Forall (λ r, timestamp r ≤ resetTime d) (requests d).

(** The record the limiter keeps of a check it allows. *)
Definition record_of (c : Check) : RequestRecord :=
  {| timestamp := c_now c; rid := orGenerated (c_requestId c) (c_generated c) |}.

(** The limiter as the claim reads it, from the checks alone.  Among the
    checks allowed so far, those that count against a check of [ip] at time
    [now] are the ones of the same address made less than 60 seconds
    before. *)
Definition spec_counted (ip : string) (now : Z) (allowed_so_far : list Check)
  : list Check :=
  filter (λ c, c_ip c = ip ∧ now - 60000 < c_now c) allowed_so_far.

(** The checks that are allowed, oldest first: a check is allowed when
    fewer than [ceiling] allowed checks count against it. *)
Fixpoint spec_allowed (ceiling : Z) (allowed_so_far cs : list Check) : list Check :=
  match cs with
  | [] => allowed_so_far
  | c :: rest =>
      if decide (ceiling ≤ Z.of_nat (length (spec_counted (c_ip c) (c_now c)
                                                allowed_so_far)))
      then spec_allowed ceiling allowed_so_far rest
      else spec_allowed ceiling (allowed_so_far ++ [c]) rest
  end.

(** From time [t] on, the window record of every address is made of the
    allowed checks that count then. *)
Definition record_agrees (t : Z) (store : gmap string RateLimitData)
    (allowed_so_far : list Check) : Prop :=
  ∀ ip now, t ≤ now →
    window_record store ip now = record_of <$> spec_counted ip now allowed_so_far.

(** The rate-limit records the route can send: the one built from the answer
    of a check, and the fixed one of the responses that involve no check
    (missing API key, unexpected error, wrong method), with the clock reading
    plus one minute as [resetTime]. *)
Definition from_route (RATE_LIMIT_PER_MINUTE : Z) (s : Queue.RateLimitInfo) : Prop :=
  (∃ c store, s = rateLimitInfoOf RATE_LIMIT_PER_MINUTE
                    (check RATE_LIMIT_PER_MINUTE c store).1) ∨
  (∃ now, s = {| Queue.remaining := RATE_LIMIT_PER_MINUTE;
                 Queue.resetTime := now + 60000;
                 Queue.requestsInLastMinute := 0;
                 Queue.maxRequestsPerMinute := RATE_LIMIT_PER_MINUTE |}).

End RouteExt.

(* ===================================================================== *)
(** ** Notions for whole runs of the scheduler                            *)
(* ===================================================================== *)

Module Accounting.
Import Queue Notions.

(** The timer table is coherent: handles are distinct and already issued,
    the two handles the object keeps have been issued, and neither of them
    designates a backoff timer. *)
Definition timers_wf (w : World) : Prop :=
  (∀ t, t ∈ timers w → (handle t < nextHandle w)%nat) ∧
  NoDup (handle <$> timers w) ∧
  (∀ h, processingTimer w = Some h → (h < nextHandle w)%nat) ∧
  (∀ h, rateLimitTimer w = Some h → (h < nextHandle w)%nat) ∧
  (∀ t, t ∈ pending_requeues w →
        processingTimer w ≠ Some (handle t) ∧ rateLimitTimer w ≠ Some (handle t)).

(** What the coherence of the timer table depends on. *)
Definition timer_view (w : World) :=
  (timers w, nextHandle w, processingTimer w, rateLimitTimer w).

(** The items a backoff timer will put back. *)
Definition requeued_items (w : World) : list QueueItem :=
  omap (λ t, match action t with Requeue item => Some item | _ => None end)
       (timers w).

(** Every work item the object still knows about, wherever it is: pending,
    in flight, or waiting for its backoff. *)
Definition live_items (w : World) : list QueueItem :=
  items (state w) ++ inflight w ++ requeued_items w.

(** Items still known plus items brought to an end. *)
Definition accounted (w : World) : Z :=
  Z.of_nat (length (live_items w)) + totalProcessed (statistics (state w)).

(** What the count depends on. *)
Definition item_view (w : World) :=
  (items (state w), inflight w, timers w, totalProcessed (statistics (state w))).

(** The number of items an event hands to the queue. *)
Definition added (e : Event) : Z :=
  match e with
  | AddToQueue _ => 1
  | AddMultipleToQueue reqs => Z.of_nat (length reqs)
  | _ => 0
  end.

Fixpoint added_in (evs : list (Z * Event)) : Z :=
  match evs with
  | [] => 0
  | (_, e) :: rest => added e + added_in rest
  end.

(** Events by which the caller discards items. *)
Definition discards (e : Event) : Prop :=
  match e with
  | ClearQueue | RemoveFromQueue _ => True
  | _ => False
  end.

(** The three counters add up. *)
Definition stats_consistent (w : World) : Prop :=
  totalProcessed (statistics (state w))
    = successCount (statistics (state w)) + errorCount (statistics (state w)).

(** An item that may still be sent has not used up its budget. *)
Definition within_budget (item : QueueItem) : Prop :=
  0 ≤ retryCount item < maxRetries item ∧ maxRetries item = MAX_RETRIES.

(** A backoff timer carries an item within budget that has failed at least
    once, and the delay computed from the count of that item. *)
Definition timer_ok (t : Timer) : Prop :=
  match action t with
  | Requeue item =>
      within_budget item ∧ 1 ≤ retryCount item ∧
      delay t = backoffDelay (retryCount item)
  | CallProcessNext => True
  end.

(** Every item that may still be sent is within budget. *)
Definition budget_kept (w : World) : Prop :=
  Forall within_budget (items (state w)) ∧
  Forall within_budget (inflight w) ∧
  Forall timer_ok (timers w).

(** What [budget_kept] depends on. *)
Definition budget_view (w : World) :=
  (items (state w), inflight w, timers w).

(** The queue sends nothing on its own: it is not processing, or paused. *)
Definition quiet (w : World) : Prop :=
  isProcessing (state w) = false ∨ isPaused (state w) = true.

(** What the callbacks have been told so far. *)
Definition notifications (w : World) : list Emitted :=
  omap (λ e, match e with EFetch _ => None | _ => Some e end) (trace w).

(** Nobody is subscribed. *)
Definition silent (w : World) : Prop :=
  progressCallback w = false ∧ rateLimitCallback w = false ∧
  resultCallback w = false.

(** Events by which a callback is registered. *)
Definition subscribes (e : Event) : Prop :=
  match e with
  | OnProgress | OnRateLimitUpdate | OnResult => True
  | _ => False
  end.

(** The number of results with a given status handed to the result callback
    so far. *)
Definition has_status (st : Status) (r : VideoAnalysisResult) : bool :=
  match st, status r with
  | completed, completed | error, error
  | pending, pending | processing, processing => true
  | _, _ => false
  end.

Definition reported (st : Status) (w : World) : Z :=
  Z.of_nat (length (List.filter (has_status st) (results w))).

(** The counter of the statistics that counts the results of a status: the
    successes for [completed], the errors for [error], none for the other
    two. *)
Definition counted (st : Status) (w : World) : Z :=
  match st with
  | completed => successCount (statistics (state w))
  | error => errorCount (statistics (state w))
  | _ => 0
  end.

(** What the agreement of the counters with the reported results depends
    on. *)
Definition report_view (w : World) :=
  (resultCallback w, successCount (statistics (state w)),
   errorCount (statistics (state w)), results w).

(** Events that neither withdraw the result callback nor reset the
    counters. *)
Definition keeps_reporting (e : Event) : Prop :=
  match e with
  | Destroy | ClearQueue => False
  | _ => True
  end.


End Accounting.

(* ===================================================================== *)
(** ** Further concrete inputs                                            *)
(* ===================================================================== *)

Module MoreExamples.
Import Queue.
Local Open Scope string_scope.

(** The whole life of a queue whose only item always fails with a network
    error: subscription, enqueueing, start, and every settlement and timer. *)
Definition failing_script : list (Z * Event) :=
  [ (1000, OnProgress); (1000, OnRateLimitUpdate); (1000, OnResult);
    (1000, AddToQueue Examples.req1); (1000, StartProcessing);
    (2000, CallSettles 0%nat (Rejected "Network error"));
    (4000, TimerFires 1%nat); (8000, TimerFires 2%nat);
    (9000, CallSettles 0%nat (Rejected "Network error"));
    (13000, TimerFires 3%nat); (15000, TimerFires 4%nat);
    (16000, CallSettles 0%nat (Rejected "Network error"));
    (22000, TimerFires 5%nat) ].

Definition req2 : VideoAnalysisRequest :=
  {| id := "v2"; videoFile := Examples.clip; filename := "second.mp4";
     analysisOptions := None; createdAt := 600 |}.

(** Two items enqueued and started: the call of the first is in flight, the
    second is pending. *)
Definition two_queued : World :=
  run [(1000, AddMultipleToQueue [Examples.req1; req2]); (1000, StartProcessing)]
    Examples.fresh.

(** A successful response carrying the record the route builds from the
    first check of an address, under a ceiling of 10. *)
Definition routeResponse : VideoAnalysisApiResponse :=
  {| success := true; data := Some Examples.okData; api_error := None;
     api_rateLimitInfo :=
       Some (RouteExt.rateLimitInfoOf 10
               (Route.check 10 Examples.check_2 ∅).1) |}.

(** One item is sent and answered by [routeResponse]. *)
Definition served_script : list (Z * Event) :=
  [ (1000, AddToQueue Examples.req1); (1000, StartProcessing);
    (2000, CallSettles 0%nat (Responded routeResponse)) ].

(** The first call failed with a network error: the item waits for its
    backoff timer (handle 1), the next tick is armed (handle 2). *)
Definition in_backoff : World :=
  run [(2000, CallSettles 0%nat (Rejected "Network error"))] Examples.dispatched.

(** A running queue with one pending item whose window is used up until
    time 61000. *)
Definition exhausted : World :=
  run [(2000, CallSettles 0%nat (Responded Examples.rateLimited429));
       (4000, TimerFires 1%nat)] Examples.dispatched.

(** Two checks of one address at 5 s and 6 s, and a third at 7 s. *)
Definition checks_5_6 : list Route.Check :=
  [ Route.mkCheck "10.0.0.1" None 5000 "req_5000_a";
    Route.mkCheck "10.0.0.1" None 6000 "req_6000_b" ].
Definition check_7 : Route.Check :=
  Route.mkCheck "10.0.0.1" None 7000 "req_7000_c".

(** The clock goes back between two checks of one address: 5 s, then 1 s;
    a third check comes at 6 s. *)
Definition checks_5_1 : list Route.Check :=
  [ Route.mkCheck "10.0.0.1" None 5000 "req_5000_a";
    Route.mkCheck "10.0.0.1" None 1000 "req_1000_b" ].
Definition check_6 : Route.Check :=
  Route.mkCheck "10.0.0.1" None 6000 "req_6000_c".

(** Subscribers that return whatever they are handed. *)
Definition quiet_subscribers : Emitted → option string := λ _, None.



End MoreExamples.

(* ===================================================================== *)
(** ** Properties of the sliding-window limiter                           *)
(* ===================================================================== *)

Module RouteFacts.
Import Route.

Lemma ceil_div_pos x : 0 < x → 1 ≤ ceil_div x 1000.
Proof.
  intros Hx. unfold ceil_div.
  pose proof (Z.div_mod (- x) 1000 ltac:(lia)) as Hdm.
  pose proof (Z.mod_pos_bound (- x) 1000 ltac:(lia)) as Hb.
  lia.
Qed.

Lemma ascending_filter (P : RequestRecord → Prop) `{!∀ x, Decision (P x)} l :
  ascending l → ascending (filter P l).
Proof.
  induction l as [|x l IH]; simpl; [done|].
  intros [Hx Hl]. rewrite filter_cons. destruct (decide (P x)); simpl; auto.
  split; [|auto].
  apply Forall_forall. intros y Hy.
  apply list_elem_of_filter in Hy as [_ Hy].
  rewrite Forall_forall in Hx. auto.
Qed.

Lemma ascending_snoc l (r : RequestRecord) :
  ascending l → Forall (λ y, timestamp y ≤ timestamp r) l → ascending (l ++ [r]).
Proof.
  induction l as [|x l IH]; simpl.
  - intros _ _. split; [constructor | done].
  - intros [Hx Hl] Hle. apply Forall_cons in Hle as [Hxr Hle]. split; [|auto].
    apply Forall_app. split; [done|]. by repeat constructor.
Qed.

Lemma ascending_head l (h x : RequestRecord) :
  ascending l → head l = Some h → x ∈ l → timestamp h ≤ timestamp x.
Proof.
  destruct l as [|y l]; simpl; [done|].
  intros [Hy _] [= ->] Hin. apply elem_of_cons in Hin as [->|Hin]; [lia|].
  rewrite Forall_forall in Hy. auto.
Qed.

Lemma Forall_filter_keep (Q P : RequestRecord → Prop) `{!∀ x, Decision (P x)} l :
  Forall Q l → Forall Q (filter P l).
Proof.
  rewrite !Forall_forall. intros HQ x Hx.
  apply list_elem_of_filter in Hx as [_ Hx]. auto.
Qed.

(** One check keeps every record of the store in ascending order, when the
    clock has not gone back. *)
Lemma check_store_ok ceiling c t store :
  t ≤ c_now c → store_ok t store → store_ok (c_now c) (check ceiling c store).2.
Proof.
  intros Ht Hok. unfold check, checkRateLimit.
  set (d0 := match store !! c_ip c with Some d => d | None => _ end).
  assert (Hd0 : ascending (requests d0) ∧ Forall (λ y, timestamp y ≤ t) (requests d0)).
  { subst d0. destruct (store !! c_ip c) as [d|] eqn:E; [eauto|].
    simpl. split; [done | constructor]. }
  destruct Hd0 as [Hasc Hle].
  assert (Hother : ∀ ip d, ip ≠ c_ip c → store !! ip = Some d →
            ascending (requests d) ∧ Forall (λ y, timestamp y ≤ c_now c) (requests d)).
  { intros ip d _ E. destruct (Hok ip d E) as [Ha Hb]. split; [done|].
    eapply Forall_impl; [exact Hb|]. simpl. intros. lia. }
  set (pruned := filter _ (requests d0)).
  assert (Hpa : ascending pruned) by (by apply ascending_filter).
  assert (Hpl : Forall (λ y, timestamp y ≤ c_now c) pruned).
  { apply Forall_filter_keep. eapply Forall_impl; [exact Hle|]. simpl. intros. lia. }
  destruct (decide (ceiling ≤ Z.of_nat (length pruned))); simpl;
    intros ip d; rewrite lookup_insert; case_decide as E; try (subst ip).
  - intros [= <-]. simpl. done.
  - intros E'. by eapply Hother.
  - intros [= <-]. simpl. split.
    + apply ascending_snoc; [done|]. simpl. done.
    + apply Forall_app. split; [done|]. repeat constructor. simpl. lia.
  - intros E'. by eapply Hother.
Qed.

Lemma run_checks_store_ok ceiling cs : ∀ t store,
  chrono_from t cs → store_ok t store →
  ∃ t', t ≤ t' ∧ store_ok t' (run_checks ceiling cs store) ∧
        (∀ c, chrono_from t (cs ++ [c]) → t' ≤ c_now c).
Proof.
  induction cs as [|c0 cs IH]; simpl; intros t store Hc Hok.
  - exists t. split; [lia|]. split; [done|]. intros c [H _]. done.
  - destruct Hc as [Ht Hc].
    destruct (IH (c_now c0) _ Hc (check_store_ok ceiling c0 t store Ht Hok))
      as (t' & Hle & Hok' & Hnext).
    exists t'. split; [lia|]. split; [done|].
    intros c [_ Hc']. auto.
Qed.

Lemma store_ok_empty t : store_ok t ∅.
Proof. intros ip d. rewrite lookup_empty. done. Qed.

(** The record of every address is in ascending order after a chronological
    sequence of checks from the empty store. *)
Lemma reachable_ascending ceiling cs c :
  chronological (cs ++ [c]) →
  ascending (recorded (run_checks ceiling cs ∅) (c_ip c)).
Proof.
  intros Hc. unfold recorded.
  destruct cs as [|c0 cs]; simpl in *.
  - rewrite lookup_empty. done.
  - assert (Hc0 : chrono_from (c_now c0) (c0 :: cs)).
    { simpl. split; [lia|]. clear -Hc. revert Hc. generalize (c_now c0).
      induction cs as [|c1 cs IH]; simpl; [done|]. intros z [? ?]. eauto. }
    destruct (run_checks_store_ok ceiling (c0 :: cs) (c_now c0) ∅ Hc0
                (store_ok_empty _)) as (t' & _ & Hok & _).
    simpl in Hok.
    destruct (run_checks ceiling cs _ !! c_ip c) as [d|] eqn:E; [|done].
    by destruct (Hok _ _ E).
Qed.

(** What one check answers, in any state of the store. *)
Lemma check_answer ceiling c store :
  let res := (check ceiling c store).1 in
  let window := window_record store (c_ip c) (c_now c) in
  (allowed res = false ↔ ceiling ≤ Z.of_nat (length window)) ∧
  (allowed res = false →
     retryAfter res =
       Some match head window with
            | Some o => ceil_div (timestamp o + RATE_LIMIT_WINDOW_MS - c_now c) 1000
            | None => 60
            end).
Proof.
  unfold check, checkRateLimit, window_record, recorded, in_window.
  destruct (store !! c_ip c) as [d|]; simpl;
    match goal with |- context [decide (ceiling ≤ ?n)] =>
      destruct (decide (ceiling ≤ n)) end; simpl; split; try done;
    split; intros; try done; lia.
Qed.

(** The decision in terms of the record the limiter holds: the last check
    is denied if and only if the recorded timestamps still inside the
    trailing window number at least the ceiling; [retryAfter] is then
    computed from the request recorded first, which is the oldest one when
    the clock readings never go back. *)
Lemma decision_on_record (ceiling : Z) (cs : list Check) (c : Check) :
  let store := run_checks ceiling cs ∅ in
  let res := (check ceiling c store).1 in
  let window := window_record store (c_ip c) (c_now c) in
  (allowed res = false ↔ ceiling ≤ Z.of_nat (length window)) ∧
  (allowed res = false →
     ∃ r, retryAfter res = Some r ∧ 0 ≤ r ∧
          (window = [] → r = 60) ∧
          (∀ o, head window = Some o →
                r = ceil_div (timestamp o + RATE_LIMIT_WINDOW_MS - c_now c) 1000 ∧
                1000 * (r - 1) < timestamp o + RATE_LIMIT_WINDOW_MS - c_now c ≤ 1000 * r) ∧
          (chronological (cs ++ [c]) →
           ∀ o, o ∈ window →
                (∀ x, x ∈ window → timestamp o ≤ timestamp x) →
                r = ceil_div (timestamp o + RATE_LIMIT_WINDOW_MS - c_now c) 1000 ∧
                1000 * (r - 1) < timestamp o + RATE_LIMIT_WINDOW_MS - c_now c ≤ 1000 * r)).
Proof.
  intros store res window.
  destruct (check_answer ceiling c store) as [Hiff Hretry].
  fold res window in Hiff, Hretry.
  split; [exact Hiff|]. intros Hden. specialize (Hretry Hden).
  assert (Hin : ∀ x, x ∈ window → 0 < timestamp x + RATE_LIMIT_WINDOW_MS - c_now c).
  { intros x Hx. apply list_elem_of_filter in Hx as [Hx _].
    unfold in_window in Hx. lia. }
  assert (Hround : ∀ x, let r := ceil_div x 1000 in 1000 * (r - 1) < x ≤ 1000 * r).
  { intros x. unfold ceil_div.
    pose proof (Z.div_mod (- x) 1000 ltac:(lia)) as Hdm.
    pose proof (Z.mod_pos_bound (- x) 1000 ltac:(lia)) as Hb.
    simpl. lia. }
  eexists. split; [exact Hretry|].
  destruct (head window) as [h|] eqn:Hh.
  - assert (Hhw : h ∈ window).
    { apply head_Some in Hh as [l' ->]. apply elem_of_cons. by left. }
    split; [pose proof (ceil_div_pos _ (Hin h Hhw)); lia|].
    split; [intros ->; done|].
    split.
    + intros o [= <-]. split; [done | apply Hround].
    + intros Hc o Ho Hmin.
      assert (Hasc : ascending window).
      { apply ascending_filter. by apply reachable_ascending. }
      assert (timestamp o = timestamp h) as ->.
      { pose proof (ascending_head window h o Hasc Hh Ho).
        specialize (Hmin h Hhw). lia. }
      split; [done | apply Hround].
  - apply head_None in Hh. split; [lia|]. split; [done|].
    split; [done|].
    intros _ o Ho. rewrite Hh in Ho. by apply elem_of_nil in Ho.
Qed.

End RouteFacts.

(* ===================================================================== *)
(** ** Properties of the scheduler                                        *)
(* ===================================================================== *)

Module QueueFacts.
Import Queue Notions.

(** *** The continuation of [processNext], unfolded *)

Lemma analysis_settles req o now w :
  processVideoAnalysis_settle req o now w = (verdict req o now, absorb o w).
Proof.
  unfold processVideoAnalysis_settle, verdict, absorb, snapshot_of.
  destruct o as [msg|r]; [done|].
  unfold bind, lift, ret, throw.
  destruct (api_rateLimitInfo r), (success r), (data r); done.
Qed.

Lemma processNext_settle_found now k o w item :
  inflight w !! k = Some item →
  processNext_settle now k o w
    = (Normal tt, after_settle item o now (set_inflight (delete k (inflight w)) w)).
Proof.
  intros Hk. unfold processNext_settle, after_settle. rewrite Hk.
  unfold bind, tryCatch, lift. rewrite analysis_settles.
  destruct (verdict (request item) o now); done.
Qed.

Lemma processNext_settle_missing now k o w :
  inflight w !! k = None → processNext_settle now k o w = (Normal tt, w).
Proof. intros Hk. unfold processNext_settle. by rewrite Hk. Qed.



(** The notification methods and [clearTimers] as plain field updates. *)
Lemma notifyProgress_shape w :
  notifyProgress w
    = emit_when (progressCallback w) (EProgress (getQueueStatus (state w))) w.
Proof.
  unfold notifyProgress, emit_when, emit.
  destruct w as [? ? ? [] ? ? ? ? ? ? ?]; simpl; by rewrite ?app_nil_r.
Qed.

Lemma notifyRateLimit_shape w :
  notifyRateLimit w
    = emit_when (rateLimitCallback w) (ERateLimit (rateLimitInfo (state w))) w.
Proof.
  unfold notifyRateLimit, emit_when, emit.
  destruct w as [? ? ? ? [] ? ? ? ? ? ?]; simpl; by rewrite ?app_nil_r.
Qed.

Lemma notifyResult_shape r w :
  notifyResult r w = emit_when (resultCallback w) (EResult r) w.
Proof.
  unfold notifyResult, emit_when, emit.
  destruct w as [? ? ? ? ? [] ? ? ? ? ?]; simpl; by rewrite ?app_nil_r.
Qed.

Lemma clearTimers_shape w :
  clearTimers w
    = set_rateLimitTimer None (set_processingTimer None
        (set_timers (without (rateLimitTimer w) (without (processingTimer w) (timers w)))
                    (nextHandle w) w)).
Proof.
  unfold clearTimers, clearTimeout, without.
  destruct w as [? [h1|] [h2|] ? ? ? ? ? ? ? ?]; simpl; done.
Qed.

(** Normalisation of one field of a world built by the bookkeeping
    operations, without unfolding the data they carry. *)
Ltac world_norm :=
  unfold after_settle, scheduleNext, recordSuccess, handleProcessingError,
    absorb, stopProcessing, pauseProcessing, saveToStorage;
  rewrite ?notifyProgress_shape, ?notifyRateLimit_shape, ?notifyResult_shape,
    ?clearTimers_shape;
  cbn [ emit_when setTimeout emit
      with_state set_items set_isProcessing set_isPaused set_rateLimitInfo
      set_statistics set_processingTimer set_rateLimitTimer set_callbacks
      set_timers set_localStorage set_inflight
      state processingTimer rateLimitTimer progressCallback rateLimitCallback
      resultCallback timers nextHandle localStorage inflight trace
      items isProcessing isPaused rateLimitInfo statistics
      totalProcessed successCount errorCount startTime
      fst snd ].


Section Settle.
Context (now : Z) (k : nat) (o : Outcome) (w : World) (item : QueueItem).
Hypothesis Hk : inflight w !! k = Some item.

Lemma settle_world : (processNext_settle now k o w).2 = after_settle item o now (set_inflight (delete k (inflight w)) w).
Proof. by rewrite (processNext_settle_found now k o w item Hk). Qed.

Lemma settle_isProcessing :
  isProcessing (state (after_settle item o now (set_inflight (delete k (inflight w)) w))) = isProcessing (state w).
Proof.
  unfold after_settle, handleProcessingError, absorb.
  destruct (verdict _ _ _); [|destruct (_ && _)]; destruct (snapshot_of _);
    world_norm; done.
Qed.

Lemma settle_success result :
  verdict (request item) o now = Normal result →
  statistics (state (after_settle item o now (set_inflight (delete k (inflight w)) w)))
    = {| totalProcessed := totalProcessed (statistics (state w)) + 1;
         successCount := successCount (statistics (state w)) + 1;
         errorCount := errorCount (statistics (state w));
         startTime := startTime (statistics (state w)) |} ∧
  results (after_settle item o now (set_inflight (delete k (inflight w)) w))
    = results w ++ (if resultCallback w then [result] else []).
Proof.
  intros Hv. unfold after_settle, absorb. rewrite Hv.
  destruct (snapshot_of _); world_norm; (split; [done|]);
    unfold results; simpl; rewrite !omap_app; simpl;
    destruct (progressCallback w), (rateLimitCallback w), (resultCallback w);
    simpl; by rewrite ?app_nil_r.
Qed.

Lemma settle_terminal msg :
  verdict (request item) o now = Throw msg →
  isRetryableError msg && bool_decide (retryCount item + 1 < maxRetries item) = false →
  statistics (state (after_settle item o now (set_inflight (delete k (inflight w)) w)))
    = {| totalProcessed := totalProcessed (statistics (state w)) + 1;
         successCount := successCount (statistics (state w));
         errorCount := errorCount (statistics (state w)) + 1;
         startTime := startTime (statistics (state w)) |} ∧
  results (after_settle item o now (set_inflight (delete k (inflight w)) w))
    = results w ++ (if resultCallback w
                    then [errorResult (bumpRetry item) msg now] else []) ∧
  pending_requeues (after_settle item o now (set_inflight (delete k (inflight w)) w)) = pending_requeues w.
Proof.
  intros Hv Hr. unfold after_settle, absorb, handleProcessingError. rewrite Hv.
  change (retryCount (bumpRetry item)) with (retryCount item + 1).
  change (maxRetries (bumpRetry item)) with (maxRetries item).
  rewrite Hr.
  destruct (snapshot_of _); world_norm; (split; [done|]);
    unfold results, pending_requeues; simpl; rewrite !omap_app; simpl;
    destruct (progressCallback w), (rateLimitCallback w), (resultCallback w);
    simpl; by rewrite ?app_nil_r.
Qed.

Lemma settle_retry msg :
  verdict (request item) o now = Throw msg →
  isRetryableError msg && bool_decide (retryCount item + 1 < maxRetries item) = true →
  statistics (state (after_settle item o now (set_inflight (delete k (inflight w)) w))) = statistics (state w) ∧
  results (after_settle item o now (set_inflight (delete k (inflight w)) w)) = results w ∧
  timers (after_settle item o now (set_inflight (delete k (inflight w)) w))
    = timers w ++
      [ {| handle := nextHandle w;
           delay := backoffDelay (retryCount item + 1);
           due := now + timerDelay (backoffDelay (retryCount item + 1));
           action := Requeue (bumpRetry item) |};
        {| handle := S (nextHandle w);
           delay := PROCESSING_DELAY;
           due := now + PROCESSING_DELAY;
           action := CallProcessNext |} ].
Proof.
  intros Hv Hr. unfold after_settle, absorb, handleProcessingError. rewrite Hv.
  change (retryCount (bumpRetry item)) with (retryCount item + 1).
  change (maxRetries (bumpRetry item)) with (maxRetries item).
  rewrite Hr.
  destruct (snapshot_of _); world_norm; (split; [done|]);
    (split; [|by rewrite <- app_assoc]);
    unfold results; simpl; rewrite !omap_app; simpl;
    destruct (progressCallback w), (rateLimitCallback w), (resultCallback w);
    simpl; by rewrite ?app_nil_r.
Qed.

End Settle.


Lemma fire_requeue now h w i t item :
  list_find (λ t', handle t' = h) (timers w) = Some (i, t) →
  action t = Requeue item → due t ≤ now →
  items (state (fire now h w)) = item :: items (state w).
Proof.
  intros Hf Ha Hd. unfold fire. rewrite Hf.
  destruct (decide (due t ≤ now)); [|done]. rewrite Ha.
  by rewrite notifyProgress_shape.
Qed.


Lemma settle_fetches now k o w :
  fetches (processNext_settle now k o w).2 = fetches w.
Proof.
  destruct (inflight w !! k) as [item|] eqn:Hk.
  - rewrite (settle_world now k o w item Hk).
    unfold fetches, after_settle, handleProcessingError, absorb.
    destruct (verdict _ _ _); [|destruct (_ && _)];
      destruct (snapshot_of _); world_norm; rewrite !omap_app; simpl;
      destruct (progressCallback w), (rateLimitCallback w), (resultCallback w);
      simpl; by rewrite ?app_nil_r.
  - by rewrite (processNext_settle_missing now k o w Hk).
Qed.

Lemma settle_keeps_flag now k o w :
  isProcessing (state (processNext_settle now k o w).2) = isProcessing (state w).
Proof.
  destruct (inflight w !! k) as [item|] eqn:Hk.
  - rewrite (settle_world now k o w item Hk). apply settle_isProcessing.
  - by rewrite (processNext_settle_missing now k o w Hk).
Qed.


(** *** Stopping with a call in flight *)


(** *** Retry delay *)


(** *** Pacing *)



(** *** The dispatch step *)

Lemma dispatch_cons now w x rest :
  items (state w) = x :: rest →
  state (dispatch now w) = set_items rest (state w) ∧
  inflight (dispatch now w) = inflight w ++ [touch now x].
Proof. intros Hi. unfold dispatch. rewrite Hi. done. Qed.

Lemma dispatch_rate now w :
  rateLimitInfo (state (dispatch now w)) = rateLimitInfo (state w).
Proof. unfold dispatch. destruct (items (state w)); done. Qed.


Lemma processNext_rate now snap w :
  rate_change now snap (rateLimitInfo (state w))
    (rateLimitInfo (state (processNext now w))).
Proof.
  unfold processNext.
  destruct (negb _ || _ || _).
  - destruct (_ && _); [|constructor].
    world_norm. constructor.
  - destruct (decide (remaining _ ≤ 0)); [destruct (decide (0 < _))|].
    + simpl. constructor.
    + rewrite dispatch_rate, notifyRateLimit_shape. simpl.
      apply rc_reset; lia.
    + rewrite dispatch_rate. constructor.
Qed.

(** *** Explicit retry *)




(** *** The rate-limit record *)

Lemma consumeSlot_balanced info : balanced info → balanced (consumeSlot info).
Proof. unfold balanced, consumeSlot. simpl. lia. Qed.

Lemma resetWindow_balanced now info :
  0 ≤ maxRequestsPerMinute info → balanced (resetWindow now info).
Proof. unfold balanced, resetWindow. simpl. lia. Qed.


Lemma startProcessing_rate now snap w :
  rate_change now snap (rateLimitInfo (state w))
    (rateLimitInfo (state (startProcessing now w))).
Proof.
  unfold startProcessing. destruct (isProcessing (state w)); [constructor|].
  match goal with |- context [processNext now ?w1] =>
    pose proof (processNext_rate now snap w1) as H end.
  rewrite notifyProgress_shape in H at 1. exact H.
Qed.

Lemma settle_rate now k o w :
  rate_change now (snapshot_of (CallSettles k o)) (rateLimitInfo (state w))
    (rateLimitInfo (state (processNext_settle now k o w).2)).
Proof.
  destruct (inflight w !! k) as [item|] eqn:Hk.
  - rewrite (settle_world now k o w item Hk).
    unfold after_settle, handleProcessingError, absorb.
    change (snapshot_of (CallSettles k o)) with (snapshot_of (CallSettles 0%nat o)).
    destruct (verdict _ _ _); [|destruct (_ && _)];
      destruct (snapshot_of _) eqn:Es; world_norm;
      first [ by apply rc_unchanged | by apply rc_decrement
            | by eapply rc_snapshot | by eapply rc_snapshot_decrement ].
  - rewrite (processNext_settle_missing now k o w Hk). constructor.
Qed.

(** Every event changes the rate-limit record in one of the listed ways. *)
Lemma step_rate now e w :
  rate_change now (snapshot_of e) (rateLimitInfo (state w))
    (rateLimitInfo (state (step now e w))).
Proof.
  destruct e; cbn [step]; try (by constructor).
  - unfold addToQueue. world_norm. constructor.
  - unfold addMultipleToQueue. world_norm. constructor.
  - apply startProcessing_rate.
  - world_norm. constructor.
  - unfold resumeProcessing. destruct (negb _); [constructor|].
    match goal with |- context [processNext now ?w1] =>
      pose proof (processNext_rate now None w1) as H end.
    rewrite notifyProgress_shape in H at 1. exact H.
  - world_norm. constructor.
  - unfold clearQueue, resetStatistics. world_norm. constructor.
  - unfold removeFromQueue. world_norm. constructor.
  - unfold retryFailedItem. destruct (list_find _ _) as [[i item]|]; [|constructor].
    destruct (negb _); [|constructor].
    match goal with |- context [startProcessing now ?w1] =>
      exact (startProcessing_rate now None w1) end.
  - unfold destroy. world_norm. constructor.
  - unfold fire. destruct (list_find _ _) as [[i t]|]; [|constructor].
    destruct (decide _); [|constructor].
    destruct (action t).
    + exact (processNext_rate now None (clearTimeout h w)).
    + world_norm. constructor.
  - apply settle_rate.
Qed.

(** A record that adds up, under a non-negative ceiling. *)
Lemma rate_change_sound now snap before after :
  rate_change now snap before after →
  match snap with Some s => balanced s ∧ 0 ≤ maxRequestsPerMinute s | None => True end →
  balanced before ∧ 0 ≤ maxRequestsPerMinute before →
  balanced after ∧ 0 ≤ maxRequestsPerMinute after.
Proof.
  intros Hc Hs [Hb Hm].
  destruct Hc as [| | |s ->|s ->]; try done.
  - split; [by apply resetWindow_balanced | done].
  - split; [by apply consumeSlot_balanced | done].
  - destruct Hs. split; [by apply consumeSlot_balanced | done].
Qed.

(** When the record a run starts from and every server snapshot add up, so
    does the record at the end of the run. *)
Lemma balanced_along_runs evs : ∀ w,
  snapshots_satisfy (λ s, balanced s ∧ 0 ≤ maxRequestsPerMinute s) evs →
  balanced (rateLimitInfo (state w)) ∧
    0 ≤ maxRequestsPerMinute (rateLimitInfo (state w)) →
  balanced (rateLimitInfo (state (run evs w))) ∧
    0 ≤ maxRequestsPerMinute (rateLimitInfo (state (run evs w))).
Proof.
  induction evs as [|[now e] evs IH]; intros w Hs Hw; [done|].
  apply Forall_cons in Hs as [He Hs]. cbn [run]. apply IH; [done|].
  eapply rate_change_sound; [apply step_rate | exact He | exact Hw].
Qed.




(** *** Retry budget *)

(** With the budget [MAX_RETRIES], a retryable failure puts the item back
    only while its count before the failure is below 2. *)
Lemma retry_budget item msg :
  isRetryableError msg = true → maxRetries item = MAX_RETRIES →
  isRetryableError msg && bool_decide (retryCount item + 1 < maxRetries item) = true
    ↔ retryCount item < 2.
Proof.
  intros -> ->. unfold MAX_RETRIES. simpl.
  rewrite bool_decide_eq_true. lia.
Qed.

(** C2 at the failing input: one item whose call always fails with
    "Network error".  It is sent three times, that is retried twice (after
    2000 ms and 4000 ms), and the third failure ends it: one error result,
    [errorCount = 1], nothing pending, nothing in flight, no backoff timer
    left, and the queue has stopped. *)
Theorem always_failing_item_is_retried_twice :
  isRetryableError "Network error" = true ∧
  fetches Examples.always_failing = 3%nat ∧
  ((λ r, (res_id r, status r, res_error r)) <$> results Examples.always_failing)
    = [("v1"%string, error, Some "Network error"%string)] ∧
  statistics (state Examples.always_failing)
    = {| totalProcessed := 1; successCount := 0; errorCount := 1;
         startTime := Some 1000 |} ∧
  items (state Examples.always_failing) = [] ∧
  inflight Examples.always_failing = [] ∧
  timers Examples.always_failing = [] ∧
  isProcessing (state Examples.always_failing) = false.
Proof. vm_compute. repeat split. Qed.


(** *** Starting a running queue *)

(** C10. Calling [startProcessing] while the queue is processing returns at
    once: the whole world (items, flags, statistics with the recorded
    [startTime], timers, calls in flight, storage and trace) is unchanged, so
    no second dispatch loop is started. *)
Theorem startProcessing_when_running (now : Z) (w : World) :
  isProcessing (state w) = true →
  startProcessing now w = w ∧ step now StartProcessing w = w.
Proof.
  intros Hrun. unfold step, startProcessing. rewrite Hrun. done.
Qed.

Lemma startProcessing_when_running_witness :
  isProcessing (state Examples.dispatched) = true ∧
  startProcessing 1500 Examples.dispatched = Examples.dispatched.
Proof.
  assert (Hrun : isProcessing (state Examples.dispatched) = true)
    by (vm_compute; reflexivity).
  split; [exact Hrun|].
  exact (proj1 (startProcessing_when_running 1500 Examples.dispatched Hrun)).
Defined.

(** *** Persistence *)

Lemma construct_items now stored : items (state (construct now stored)) = [].
Proof.
  unfold construct, loadFromStorage. simpl.
  destruct stored as [| |ps]; simpl; try done.
  destruct (p_rateLimitInfo ps), (p_statistics ps); done.
Qed.

(** The claim of C5 fails at a stored record whose window has closed: at
    time 5000000 the snapshot with [resetTime = 1000] and the statistics are
    taken over all the same. *)
Lemma load_restores_expired_snapshot :
  Some (rateLimitInfo (state (construct 5000000 (Parsed Examples.staleStored))))
    = p_rateLimitInfo Examples.staleStored ∧
  Some (statistics (state (construct 5000000 (Parsed Examples.staleStored))))
    = p_statistics Examples.staleStored ∧
  resetTime (rateLimitInfo (state (construct 5000000 (Parsed Examples.staleStored))))
    < 5000000.
Proof. vm_compute. repeat split. Qed.

(** C5, amended. A new scheduler takes over the stored rate-limit record and
    the stored statistics whenever the stored value has them, whatever its
    [resetTime]; with nothing stored, or a value that does not parse, it keeps
    the initial state.  In every case the pending list is empty and no call
    is in flight.  What [saveToStorage] wrote is read back unchanged. *)
Theorem load_restores_what_is_stored (now : Z) (stored : StorageEntry) (w0 : World) :
  items (state (construct now stored)) = [] ∧
  inflight (construct now stored) = [] ∧
  match stored with
  | Parsed ps =>
      rateLimitInfo (state (construct now stored))
        = default (rateLimitInfo (initializeState now)) (p_rateLimitInfo ps) ∧
      statistics (state (construct now stored))
        = default (statistics (initializeState now)) (p_statistics ps)
  | Absent | Unparsable => state (construct now stored) = initializeState now
  end ∧
  rateLimitInfo (state (construct now (localStorage (saveToStorage w0))))
    = rateLimitInfo (state w0) ∧
  statistics (state (construct now (localStorage (saveToStorage w0))))
    = statistics (state w0) ∧
  items (state (construct now (localStorage (saveToStorage w0)))) = [].
Proof.
  split; [apply construct_items|].
  split.
  { unfold construct, loadFromStorage. simpl.
    destruct stored as [| |ps]; simpl; try done.
    destruct (p_rateLimitInfo ps), (p_statistics ps); done. }
  split.
  { unfold construct, loadFromStorage. simpl.
    destruct stored as [| |ps]; simpl; try done.
    destruct (p_rateLimitInfo ps), (p_statistics ps); done. }
  split; [done|]. split; [done|]. apply construct_items.
Qed.

End QueueFacts.

(* ===================================================================== *)
(** ** Further properties of the sliding-window limiter                   *)
(* ===================================================================== *)

Module RouteExtFacts.
Import Route RouteExt.

(** The entry of [ip] after one check, spelled out. *)
Lemma check_record ceiling c store :
  recorded (check ceiling c store).2 (c_ip c)
    = if allowed (check ceiling c store).1
      then window_record store (c_ip c) (c_now c)
             ++ [ {| timestamp := c_now c;
                     rid := orGenerated (c_requestId c) (c_generated c) |} ]
      else window_record store (c_ip c) (c_now c).
Proof.
  unfold check, checkRateLimit, window_record, recorded, in_window.
  destruct (store !! c_ip c) as [d|]; simpl;
    match goal with |- context [decide (ceiling ≤ ?n)] =>
      destruct (decide (ceiling ≤ n)) end; simpl;
    by rewrite lookup_insert_eq.
Qed.

Lemma check_other ceiling c store ip :
  ip ≠ c_ip c → (check ceiling c store).2 !! ip = store !! ip.
Proof.
  intros Hne. unfold check, checkRateLimit.
  match goal with |- context [decide (ceiling ≤ ?n)] =>
    destruct (decide (ceiling ≤ n)) end; simpl;
    by rewrite lookup_insert_ne.
Qed.

(** X1. The answer of a check adds up, in every state of the store. *)
Theorem check_answer_adds_up (ceiling : Z) (c : Check)
    (store : gmap string RateLimitData) :
  Notions.balanced (rateLimitInfoOf ceiling (check ceiling c store).1) ∧
  0 ≤ remaining (check ceiling c store).1 ∧
  requestsInLastMinute (check ceiling c store).1
    = Z.of_nat (length (recorded (check ceiling c store).2 (c_ip c))) ∧
  c_now c ≤ cr_resetTime (check ceiling c store).1 ∧
  (allowed (check ceiling c store).1 = true ↔
   retryAfter (check ceiling c store).1 = None).
Proof.
  unfold Notions.balanced, rateLimitInfoOf, recorded.
  unfold check, checkRateLimit. unfold RATE_LIMIT_WINDOW_MS.
  destruct (store !! c_ip c) as [d|]; cbn [requests resetTime];
    match goal with |- context [decide (ceiling ≤ ?n)] =>
      destruct (decide (ceiling ≤ n)) end;
    cbn [fst snd allowed remaining cr_resetTime requestsInLastMinute retryAfter
         Queue.remaining Queue.maxRequestsPerMinute Queue.requestsInLastMinute];
    rewrite lookup_insert_eq; cbn [requests];
    rewrite ?length_app; cbn [length];
    repeat split; try done; try lia;
    try (case_decide; lia).
Qed.


(** X2. Clients do not interfere: a check leaves the entries of every other
    address as they are, and its answer depends on the entry of its own
    address only. *)
Theorem check_is_per_address (ceiling : Z) (c : Check)
    (store store' : gmap string RateLimitData) :
  (∀ ip, ip ≠ c_ip c → (check ceiling c store).2 !! ip = store !! ip) ∧
  (store !! c_ip c = store' !! c_ip c →
   (check ceiling c store).1 = (check ceiling c store').1 ∧
   (check ceiling c store).2 !! c_ip c = (check ceiling c store').2 !! c_ip c).
Proof.
  split; [intros ip; apply check_other|].
  intros Heq. unfold check, checkRateLimit. rewrite Heq.
  match goal with |- context [decide (ceiling ≤ ?n)] =>
    destruct (decide (ceiling ≤ n)) end; simpl;
    by rewrite !lookup_insert_eq.
Qed.

Lemma check_is_per_address_witness :
  (check 2 Examples.check_2 ∅).1
    = (check 2 Examples.check_2
         (<["10.0.0.9"%string := mkRateLimitData 1 60000 [mkRequestRecord 0 "x"] 0]> ∅)).1.
Proof.
  apply (proj2 (check_is_per_address 2 Examples.check_2 ∅ _)).
  vm_compute. reflexivity.
Defined.

(** X3. A denied check is not recorded: the entry keeps the pruned record
    and nothing else, so being denied never prolongs the wait.  An allowed
    check appends itself, with the id it was given or, when that is absent
    or empty, the generated one. *)
Theorem denied_check_is_not_recorded (ceiling : Z) (c : Check)
    (store : gmap string RateLimitData) :
  recorded (check ceiling c store).2 (c_ip c)
    = if allowed (check ceiling c store).1
      then window_record store (c_ip c) (c_now c)
             ++ [ {| timestamp := c_now c;
                     rid := orGenerated (c_requestId c) (c_generated c) |} ]
      else window_record store (c_ip c) (c_now c).
Proof. apply check_record. Qed.

Lemma check_within_ceiling ceiling c store :
  within_ceiling ceiling store → within_ceiling ceiling (check ceiling c store).2.
Proof.
  intros Hb ip d. destruct (decide (ip = c_ip c)) as [->|Hne].
  - intros Hd.
    pose proof (check_record ceiling c store) as Hr.
    unfold recorded in Hr at 1. rewrite Hd in Hr. rewrite Hr.
    destruct (RouteFacts.check_answer ceiling c store) as [Hiff _].
    assert (Hw : Z.of_nat (length (window_record store (c_ip c) (c_now c)))
                 ≤ Z.max 0 ceiling).
    { unfold window_record, recorded.
      destruct (store !! c_ip c) as [d0|] eqn:E; [|simpl; lia].
      pose proof (length_filter (in_window (c_now c)) (requests d0)).
      specialize (Hb _ _ E). lia. }
    destruct (allowed _) eqn:Ha; [|done].
    rewrite length_app. simpl.
    assert (¬ ceiling ≤ Z.of_nat (length (window_record store (c_ip c) (c_now c)))).
    { intros H. apply Hiff in H. congruence. }
    lia.
  - rewrite check_other by done. apply Hb.
Qed.

Lemma run_checks_within_ceiling ceiling cs : ∀ store,
  within_ceiling ceiling store →
  within_ceiling ceiling (run_checks ceiling cs store).
Proof.
  induction cs as [|c cs IH]; intros store Hs; [done|].
  simpl. apply IH. by apply check_within_ceiling.
Qed.

(** X4. Starting from the empty store, no address ever has more recorded
    requests than the ceiling (none at all for a ceiling of zero or less),
    whatever the checks and their clock readings. *)
Theorem record_never_exceeds_ceiling (ceiling : Z) (cs : list Check) :
  within_ceiling ceiling (run_checks ceiling cs ∅).
Proof.
  apply run_checks_within_ceiling. intros ip d. rewrite lookup_empty. done.
Qed.

Lemma filter_keeps_all (P : RequestRecord → Prop) `{!∀ x, Decision (P x)}
    (l : list RequestRecord) :
  (∀ x, x ∈ l → P x) → filter P l = l.
Proof.
  induction l as [|y l IH]; intros Hall; [done|].
  rewrite filter_cons_True by (apply Hall; by left).
  f_equal. apply IH. intros x Hx. apply Hall. by right.
Qed.

Lemma filter_drops_all (P : RequestRecord → Prop) `{!∀ x, Decision (P x)}
    (l : list RequestRecord) :
  Forall (λ x, ¬ P x) l → filter P l = [].
Proof.
  induction 1 as [|y l Hy _ IH]; [done|].
  by rewrite filter_cons_False.
Qed.

Lemma ceil_div_bounds x : 1000 * (ceil_div x 1000 - 1) < x ≤ 1000 * ceil_div x 1000.
Proof.
  unfold ceil_div.
  pose proof (Z.div_mod (- x) 1000 ltac:(lia)) as Hdm.
  pose proof (Z.mod_pos_bound (- x) 1000 ltac:(lia)) as Hb.
  lia.
Qed.

(** X5. The advice of a denial is reliable.  When a check is denied with
    [retryAfter = r] under a ceiling of at least 1, the same address is
    allowed at any time from [r] seconds later on, if no other check of that
    address came in between.  When moreover the clock never went back, a
    retry at most [r - 1] seconds later is still denied. *)
Theorem retry_after_is_reliable (ceiling : Z) (cs : list Check) (c c' : Check) (r : Z) :
  1 ≤ ceiling →
  allowed (check ceiling c (run_checks ceiling cs ∅)).1 = false →
  retryAfter (check ceiling c (run_checks ceiling cs ∅)).1 = Some r →
  c_ip c' = c_ip c →
  (c_now c + 1000 * r ≤ c_now c' →
   allowed (check ceiling c' (check ceiling c (run_checks ceiling cs ∅)).2).1 = true) ∧
  (chronological (cs ++ [c]) →
   c_now c ≤ c_now c' ≤ c_now c + 1000 * (r - 1) →
   allowed (check ceiling c' (check ceiling c (run_checks ceiling cs ∅)).2).1 = false).
Proof.
  intros Hceil Hden Hr Hip.
  set (store := run_checks ceiling cs ∅) in *.
  set (window := window_record store (c_ip c) (c_now c)).
  destruct (RouteFacts.check_answer ceiling c store) as [Hiff Hret].
  fold window in Hiff, Hret.
  pose proof (proj1 Hiff Hden) as Hfull.
  specialize (Hret Hden). rewrite Hr in Hret. injection Hret as Hrv.
  assert (Hrec : recorded (check ceiling c store).2 (c_ip c') = window).
  { rewrite Hip, check_record, Hden. done. }
  assert (Hlen : Z.of_nat (length window) ≤ ceiling).
  { pose proof (check_within_ceiling ceiling c store
                  (run_checks_within_ceiling ceiling cs ∅
                     ltac:(intros ? ?; by rewrite lookup_empty))) as Hb.
    pose proof (check_record ceiling c store) as Hrc. rewrite Hden in Hrc.
    unfold recorded in Hrc.
    destruct ((check ceiling c store).2 !! c_ip c) as [d|] eqn:E.
    - specialize (Hb _ _ E). rewrite Hrc in Hb. fold window in Hb. lia.
    - unfold window. rewrite <- Hrc. simpl. lia. }
  destruct (head window) as [h|] eqn:Hh;
    [|apply head_None in Hh; rewrite Hh in Hfull; simpl in Hfull; lia].
  assert (Hhw : h ∈ window).
  { apply head_Some in Hh as [l' ->]. apply elem_of_cons. by left. }
  pose proof (ceil_div_bounds (timestamp h + RATE_LIMIT_WINDOW_MS - c_now c)) as Hb.
  rewrite <- Hrv in Hb.
  destruct (RouteFacts.check_answer ceiling c' (check ceiling c store).2) as [Hiff' _].
  unfold window_record in Hiff'. rewrite Hrec in Hiff'.
  split.
  - intros Hlate.
    destruct (allowed (check ceiling c' _).1) eqn:Ha; [done|].
    pose proof (proj1 Hiff' eq_refl) as Hfull'.
    assert (Hout : ¬ in_window (c_now c') h) by (unfold in_window; lia).
    pose proof (length_filter_lt (in_window (c_now c')) window h Hhw Hout). lia.
  - intros Hc Htime. apply Hiff'.
    assert (Hasc : ascending window).
    { apply RouteFacts.ascending_filter. by apply RouteFacts.reachable_ascending. }
    assert (Hall : filter (in_window (c_now c')) window = window).
    { apply filter_keeps_all. intros x Hx. unfold in_window.
      pose proof (RouteFacts.ascending_head window h x Hasc Hh Hx). lia. }
    rewrite Hall. exact Hfull.
Qed.


Lemma retry_after_is_reliable_witness :
  allowed (check 2 (mkCheck "10.0.0.1" None 60000 "req_60000_d")
             (check 2 Examples.check_2 (run_checks 2 Examples.checks_0_1 ∅)).2).1
    = true ∧
  allowed (check 2 (mkCheck "10.0.0.1" None 59000 "req_59000_d")
             (check 2 Examples.check_2 (run_checks 2 Examples.checks_0_1 ∅)).2).1
    = false.
Proof.
  assert (Hden : allowed (check 2 Examples.check_2
                   (run_checks 2 Examples.checks_0_1 ∅)).1 = false)
    by (vm_compute; reflexivity).
  assert (Hr : retryAfter (check 2 Examples.check_2
                 (run_checks 2 Examples.checks_0_1 ∅)).1 = Some 58)
    by (vm_compute; reflexivity).
  split.
  - apply (proj1 (retry_after_is_reliable 2 Examples.checks_0_1 Examples.check_2
                    (mkCheck "10.0.0.1" None 60000 "req_60000_d") 58
                    ltac:(lia) Hden Hr eq_refl)).
    simpl. lia.
  - apply (proj2 (retry_after_is_reliable 2 Examples.checks_0_1 Examples.check_2
                    (mkCheck "10.0.0.1" None 59000 "req_59000_d") 58
                    ltac:(lia) Hden Hr eq_refl)).
    + simpl. lia.
    + simpl. lia.
Defined.

(** *** The periodic cleanup *)

Lemma check_before_reset ceiling c store :
  before_reset store → before_reset (check ceiling c store).2.
Proof.
  intros Hb ip d. destruct (decide (ip = c_ip c)) as [->|Hne];
    [|rewrite check_other by done; apply Hb].
  unfold check, checkRateLimit.
  set (d0 := match store !! c_ip c with Some d => d | None => _ end).
  assert (Hd0 : Forall (λ r, timestamp r ≤ resetTime d0) (requests d0)).
  { subst d0. destruct (store !! c_ip c) as [d1|] eqn:E; [by eapply Hb|constructor]. }
  set (reset := if decide (resetTime d0 < c_now c) then _ else _).
  assert (Hreset : resetTime d0 ≤ reset ∧ c_now c ≤ reset).
  { subst reset. unfold RATE_LIMIT_WINDOW_MS. case_decide; lia. }
  set (pruned := filter _ (requests d0)).
  assert (Hp : Forall (λ r, timestamp r ≤ reset) pruned).
  { apply RouteFacts.Forall_filter_keep. eapply Forall_impl; [exact Hd0|].
    simpl. intros. lia. }
  destruct (decide (ceiling ≤ Z.of_nat (length pruned))); simpl;
    rewrite lookup_insert_eq; intros [= <-]; simpl; [done|].
  apply Forall_app. split; [done|]. repeat constructor. simpl. lia.
Qed.

Lemma run_checks_before_reset ceiling cs : ∀ store,
  before_reset store → before_reset (run_checks ceiling cs store).
Proof.
  induction cs as [|c cs IH]; intros store Hs; [done|].
  simpl. apply IH. by apply check_before_reset.
Qed.

Lemma cleanup_same_but_stale t store :
  before_reset store → same_but_stale t (cleanup t store) store.
Proof.
  intros Hb ip. unfold cleanup.
  destruct (store !! ip) as [d|] eqn:E.
  - destruct (decide (resetTime d + CLEANUP_INTERVAL_MS < t)) as [Hold|Hnew].
    + assert (filter (λ kd : string * RateLimitData,
                        ¬ resetTime kd.2 + CLEANUP_INTERVAL_MS < t) store !! ip = None)
        as ->.
      { apply map_lookup_filter_None. right. intros d' Hd'. simpl.
        rewrite E in Hd'. injection Hd' as <-. tauto. }
      split; [|by eapply Hb].
      unfold CLEANUP_INTERVAL_MS, RATE_LIMIT_WINDOW_MS in *. lia.
    + assert (filter (λ kd : string * RateLimitData,
                        ¬ resetTime kd.2 + CLEANUP_INTERVAL_MS < t) store !! ip = Some d)
        as ->.
      { apply map_lookup_filter_Some. done. }
      done.
  - assert (filter (λ kd : string * RateLimitData,
                      ¬ resetTime kd.2 + CLEANUP_INTERVAL_MS < t) store !! ip = None)
      as ->; [|done].
    apply map_lookup_filter_None. by left.
Qed.

Lemma check_same_but_stale ceiling t c s1 s2 :
  same_but_stale t s1 s2 → t ≤ c_now c →
  (check ceiling c s1).1 = (check ceiling c s2).1 ∧
  same_but_stale t (check ceiling c s1).2 (check ceiling c s2).2.
Proof.
  intros Hs Ht.
  assert (Hmine : (check ceiling c s1).1 = (check ceiling c s2).1 ∧
            match (check ceiling c s1).2 !! c_ip c, (check ceiling c s2).2 !! c_ip c with
            | Some d1, Some d2 => resetTime d1 = resetTime d2 ∧ requests d1 = requests d2
            | _, _ => False
            end).
  { pose proof (Hs (c_ip c)) as Hip. unfold check, checkRateLimit.
    destruct (s1 !! c_ip c) as [d1|] eqn:E1, (s2 !! c_ip c) as [d2|] eqn:E2;
      try done.
    - destruct Hip as [Hr Hq]. rewrite Hr, Hq.
      match goal with |- context [decide (ceiling ≤ ?n)] =>
        destruct (decide (ceiling ≤ n)) end; simpl;
        rewrite !lookup_insert_eq; done.
    - destruct Hip as [Hstale Hle]. cbn [requests resetTime].
      match goal with |- context [@filter _ _ ?F ?P ?D (requests d2)] =>
        assert (Hempty : @filter _ _ F P D (requests d2) = []) end.
      { apply filter_drops_all. eapply Forall_impl; [exact Hle|].
        simpl. intros. lia. }
      rewrite Hempty, filter_nil.
      rewrite (decide_True (P := resetTime d2 < c_now c))
        by (unfold RATE_LIMIT_WINDOW_MS in Hstale; lia).
      rewrite (decide_False (P := c_now c + RATE_LIMIT_WINDOW_MS < c_now c))
        by (unfold RATE_LIMIT_WINDOW_MS; lia).
      destruct (decide (ceiling ≤ Z.of_nat (length []))); simpl;
        rewrite !lookup_insert_eq; done.
    - match goal with |- context [decide (ceiling ≤ ?n)] =>
        destruct (decide (ceiling ≤ n)) end; simpl;
        rewrite !lookup_insert_eq; done. }
  destruct Hmine as [Hans Hent]. split; [exact Hans|].
  intros ip. destruct (decide (ip = c_ip c)) as [->|Hne].
  - destruct ((check ceiling c s1).2 !! c_ip c), ((check ceiling c s2).2 !! c_ip c);
      done.
  - rewrite !check_other by done. apply Hs.
Qed.

(** X6. The periodic cleanup is invisible to clients: after any history of
    checks, deleting the entries whose [resetTime] lies more than five
    minutes back changes none of the answers given to later checks (those
    whose clock reading is not before the cleanup). *)
Theorem cleanup_changes_no_answer (ceiling : Z) (history later : list Check) (t : Z) :
  Forall (λ c, t ≤ c_now c) later →
  answers ceiling later (cleanup t (run_checks ceiling history ∅))
    = answers ceiling later (run_checks ceiling history ∅).
Proof.
  intros Hlater.
  assert (Hsim : same_but_stale t (cleanup t (run_checks ceiling history ∅))
                   (run_checks ceiling history ∅)).
  { apply cleanup_same_but_stale, run_checks_before_reset.
    intros ip d. rewrite lookup_empty. done. }
  revert Hsim. generalize (cleanup t (run_checks ceiling history ∅)).
  generalize (run_checks ceiling history ∅).
  induction later as [|c later IH]; intros s2 s1 Hsim; [done|].
  apply Forall_cons in Hlater as [Hc Hlater]. simpl.
  destruct (check_same_but_stale ceiling t c s1 s2 Hsim Hc) as [Hans Hsim'].
  rewrite Hans. f_equal. by apply IH.
Qed.

Lemma cleanup_changes_no_answer_witness :
  cleanup 400000 (run_checks 2 Examples.checks_0_1 ∅) = ∅ ∧
  answers 2 [mkCheck "10.0.0.1" None 400000 "req_400000_e"]
    (cleanup 400000 (run_checks 2 Examples.checks_0_1 ∅))
    = answers 2 [mkCheck "10.0.0.1" None 400000 "req_400000_e"]
        (run_checks 2 Examples.checks_0_1 ∅).
Proof.
  split; [vm_compute; reflexivity|].
  apply (cleanup_changes_no_answer 2 Examples.checks_0_1
           [mkCheck "10.0.0.1" None 400000 "req_400000_e"] 400000).
  repeat constructor. simpl. lia.
Defined.

(** Every record the route sends adds up, for a non-negative ceiling. *)
Lemma from_route_balanced ceiling s :
  0 ≤ ceiling → from_route ceiling s →
  Notions.balanced s ∧ 0 ≤ Queue.maxRequestsPerMinute s.
Proof.
  intros Hc [(c & store & ->) | (now & ->)].
  - split; [|done].
    unfold Notions.balanced, rateLimitInfoOf, check, checkRateLimit.
    destruct (store !! c_ip c) as [d|]; cbn [requests resetTime];
      match goal with |- context [decide (ceiling ≤ ?n)] =>
        destruct (decide (ceiling ≤ n)) end;
      cbn [fst snd remaining requestsInLastMinute
           Queue.remaining Queue.maxRequestsPerMinute Queue.requestsInLastMinute];
      rewrite ?length_app; cbn [length]; lia.
  - unfold Notions.balanced. simpl. lia.
Qed.

End RouteExtFacts.

(* ===================================================================== *)
(** ** The limiter and the timestamps of the checks                       *)
(* ===================================================================== *)

Module RouteRefinement.
Import Route RouteExt RouteFacts RouteExtFacts.

(** *** The record and the checks *)

Lemma filter_window_twice now t (l : list RequestRecord) :
  t ≤ now → filter (in_window now) (filter (in_window t) l) = filter (in_window now) l.
Proof.
  intros Hle. induction l as [|x l IH]; [done|].
  rewrite !filter_cons.
  destruct (decide (in_window t x)) as [Ht|Ht];
    destruct (decide (in_window now x)) as [Hn|Hn].
  - rewrite filter_cons, decide_True by done. by rewrite IH.
  - rewrite filter_cons, decide_False by done. exact IH.
  - unfold in_window, RATE_LIMIT_WINDOW_MS in *. lia.
  - exact IH.
Qed.

Lemma spec_counted_snoc ip now log c :
  spec_counted ip now (log ++ [c])
    = spec_counted ip now log ++
      (if decide (c_ip c = ip ∧ now - 60000 < c_now c) then [c] else []).
Proof.
  unfold spec_counted. rewrite filter_app, filter_cons, filter_nil.
  by destruct (decide _).
Qed.

(** One check keeps the record in agreement with the allowed checks, and is
    decided as the claim reads it. *)
Lemma check_agrees ceiling c t store log :
  t ≤ c_now c → record_agrees t store log →
  (allowed (check ceiling c store).1 = false ↔
   ceiling ≤ Z.of_nat (length (spec_counted (c_ip c) (c_now c) log))) ∧
  record_agrees (c_now c) (check ceiling c store).2
    (if allowed (check ceiling c store).1 then log ++ [c] else log).
Proof.
  intros Ht Hag.
  destruct (check_answer ceiling c store) as [Hiff _]. cbn zeta in Hiff.
  pose proof (Hag (c_ip c) (c_now c) Ht) as Hw.
  split.
  { rewrite Hiff, Hw, length_fmap. done. }
  intros ip now Hnow.
  destruct (decide (ip = c_ip c)) as [->|Hne].
  - unfold window_record at 1. rewrite check_record.
    destruct (allowed (check ceiling c store).1).
    + rewrite filter_app. unfold window_record at 1.
      rewrite filter_window_twice by done.
      fold (window_record store (c_ip c) now). rewrite (Hag (c_ip c) now) by lia.
      rewrite spec_counted_snoc, fmap_app. f_equal.
      rewrite filter_cons, filter_nil. unfold in_window, RATE_LIMIT_WINDOW_MS.
      cbn [timestamp].
      destruct (decide (now - 60000 < c_now c)).
      * rewrite decide_True by done. done.
      * rewrite decide_False by tauto. done.
    + unfold window_record at 1. rewrite filter_window_twice by done.
      fold (window_record store (c_ip c) now). apply Hag. lia.
  - unfold window_record, recorded. rewrite check_other by done.
    fold (recorded store ip). fold (window_record store ip now).
    rewrite (Hag ip now) by lia.
    destruct (allowed (check ceiling c store).1); [|done].
    rewrite spec_counted_snoc. rewrite decide_False by (intros [? _]; congruence).
    by rewrite app_nil_r.
Qed.

Lemma run_checks_agrees ceiling cs : ∀ t store log,
  chrono_from t cs → record_agrees t store log →
  ∃ t', t ≤ t' ∧
        record_agrees t' (run_checks ceiling cs store) (spec_allowed ceiling log cs) ∧
        (∀ c, chrono_from t (cs ++ [c]) → t' ≤ c_now c).
Proof.
  induction cs as [|c0 cs IH]; simpl; intros t store log Hc Hag.
  - exists t. split; [lia|]. split; [done|]. intros c [H _]. done.
  - destruct Hc as [Ht Hc].
    destruct (check_agrees ceiling c0 t store log Ht Hag) as [Hiff Hag'].
    assert (Hlog : (if allowed (check ceiling c0 store).1 then log ++ [c0] else log)
                   = if decide (ceiling ≤ Z.of_nat
                          (length (spec_counted (c_ip c0) (c_now c0) log)))
                     then log else log ++ [c0]).
    { destruct (decide _) as [Hd|Hd].
      - by rewrite (proj2 Hiff Hd).
      - destruct (allowed (check ceiling c0 store).1) eqn:E; [done|].
        exfalso. apply Hd, Hiff. done. }
    rewrite Hlog in Hag'.
    destruct (decide _);
      destruct (IH (c_now c0) _ _ Hc Hag') as (t' & Hle & Hfin & Hnext);
      exists t'; (split; [lia|]); (split; [done|]);
      intros c [_ Hc']; auto.
Qed.

Lemma chrono_from_front t (l : list Check) c :
  chrono_from t (l ++ [c]) → chrono_from t l.
Proof.
  revert t. induction l as [|c1 l IH]; simpl; [done|]. intros t [? ?]. eauto.
Qed.

Lemma record_agrees_empty t : record_agrees t ∅ [].
Proof.
  intros ip now _. unfold window_record, recorded. by rewrite lookup_empty.
Qed.

(** After a sequence of checks whose clock readings never go back, the
    window record a further check finds is made of the allowed checks of its
    address in the last 60 seconds. *)
Lemma window_of_checks ceiling cs c :
  chronological (cs ++ [c]) →
  window_record (run_checks ceiling cs ∅) (c_ip c) (c_now c)
    = record_of <$> spec_counted (c_ip c) (c_now c) (spec_allowed ceiling [] cs).
Proof.
  intros Hc. destruct cs as [|c0 cs].
  - simpl. unfold window_record, recorded. by rewrite lookup_empty.
  - assert (Hc0 : chrono_from (c_now c0) ((c0 :: cs) ++ [c])).
    { simpl in *. split; [lia | exact Hc]. }
    pose proof (chrono_from_front _ _ _ Hc0) as Hc1.
    destruct (run_checks_agrees ceiling (c0 :: cs) (c_now c0) ∅ [] Hc1
                (record_agrees_empty _)) as (t' & _ & Hag & Hnext).
    apply Hag. by apply Hnext.
Qed.


(** The claim of C3 fails when the clock goes back.  Under a ceiling of 2,
    checks at 5 s and then at 1 s are both recorded, in that order; a check
    at 6 s is denied and told to wait 59 s, the time until the request
    recorded first (5 s) leaves the window, while the oldest timestamp in
    the window (1 s) leaves it after 55 s. *)
Lemma retry_after_not_from_oldest :
  timestamp <$> window_record (run_checks 2 MoreExamples.checks_5_1 ∅)
                  (c_ip MoreExamples.check_6) (c_now MoreExamples.check_6)
    = [5000; 1000] ∧
  allowed (check 2 MoreExamples.check_6
             (run_checks 2 MoreExamples.checks_5_1 ∅)).1 = false ∧
  retryAfter (check 2 MoreExamples.check_6
                (run_checks 2 MoreExamples.checks_5_1 ∅)).1 = Some 59 ∧
  ceil_div (1000 + 60000 - c_now MoreExamples.check_6) 1000 = 55.
Proof. vm_compute. done. Qed.

(** C3, amended. For every sequence of permission checks whose clock
    readings never go back, run from the empty store, the last check is
    denied if and only if the allowed earlier checks of its address with a
    timestamp less than 60 seconds back number at least the ceiling.  When
    it is denied, [retryAfter] is present and never negative; it is 60 when
    no such check exists; otherwise it is at least 1 and is the time until
    the oldest of them leaves the window, rounded up to whole seconds.  The
    record kept for the address afterwards holds the timestamps of exactly
    these checks, followed by that of the last check when it was allowed. *)
Theorem sliding_window_by_timestamps (ceiling : Z) (cs : list Check) (c : Check) :
  chronological (cs ++ [c]) →
  (allowed (check ceiling c (run_checks ceiling cs ∅)).1 = false ↔
   ceiling ≤ Z.of_nat (length (spec_counted (c_ip c) (c_now c)
                                 (spec_allowed ceiling [] cs)))) ∧
  (allowed (check ceiling c (run_checks ceiling cs ∅)).1 = false →
   ∃ r, retryAfter (check ceiling c (run_checks ceiling cs ∅)).1 = Some r ∧ 0 ≤ r ∧
        (spec_counted (c_ip c) (c_now c) (spec_allowed ceiling [] cs) = [] → r = 60) ∧
        (∀ o, o ∈ spec_counted (c_ip c) (c_now c) (spec_allowed ceiling [] cs) →
              (∀ x, x ∈ spec_counted (c_ip c) (c_now c) (spec_allowed ceiling [] cs) →
                    c_now o ≤ c_now x) →
              1 ≤ r ∧ 1000 * (r - 1) < c_now o + 60000 - c_now c ≤ 1000 * r)) ∧
  timestamp <$> recorded (check ceiling c (run_checks ceiling cs ∅)).2 (c_ip c)
    = (c_now <$> spec_counted (c_ip c) (c_now c) (spec_allowed ceiling [] cs))
      ++ (if allowed (check ceiling c (run_checks ceiling cs ∅)).1
          then [c_now c] else []).
Proof.
  intros Hc.
  pose proof (window_of_checks ceiling cs c Hc) as Hw.
  destruct (decision_on_record ceiling cs c) as [Hiff Hretry].
  cbn zeta in Hiff, Hretry. rewrite Hw in Hiff, Hretry.
  rewrite length_fmap in Hiff.
  set (earlier := spec_counted (c_ip c) (c_now c) (spec_allowed ceiling [] cs)) in *.
  split; [exact Hiff|]. split.
  - intros Hden. destruct (Hretry Hden) as (r & Hr & Hpos & Hempty & _ & Hold).
    exists r. split; [exact Hr|]. split; [exact Hpos|]. split.
    + intros He. apply Hempty. by rewrite He.
    + intros o Ho Hmin.
      destruct (Hold Hc (record_of o)) as [_ Hb].
      * by apply list_elem_of_fmap_2.
      * intros x Hx. apply list_elem_of_fmap in Hx as (x' & -> & Hx').
        cbn. by apply Hmin.
      * cbn [record_of timestamp] in Hb. unfold RATE_LIMIT_WINDOW_MS in Hb.
        apply list_elem_of_filter in Ho as [[_ Ho] _]. lia.
  - rewrite check_record, Hw. fold earlier.
    destruct (allowed _).
    + rewrite fmap_app, <- list_fmap_compose. done.
    + rewrite <- list_fmap_compose, app_nil_r. done.
Qed.

(** Ceiling 2: checks at 5 s and 6 s are allowed, the check at 7 s is denied
    and told to wait 58 s, until the check of 5 s leaves the window. *)
Lemma sliding_window_by_timestamps_witness :
  allowed (check 2 MoreExamples.check_7 (run_checks 2 MoreExamples.checks_5_6 ∅)).1
    = false ∧
  retryAfter (check 2 MoreExamples.check_7 (run_checks 2 MoreExamples.checks_5_6 ∅)).1
    = Some 58.
Proof.
  destruct (sliding_window_by_timestamps 2 MoreExamples.checks_5_6 MoreExamples.check_7)
    as (Hiff & Hretry & _).
  { simpl. lia. }
  assert (He : spec_counted (c_ip MoreExamples.check_7) (c_now MoreExamples.check_7)
                 (spec_allowed 2 [] MoreExamples.checks_5_6)
               = MoreExamples.checks_5_6) by (vm_compute; reflexivity).
  rewrite He in Hiff, Hretry.
  assert (Hden : allowed (check 2 MoreExamples.check_7
                            (run_checks 2 MoreExamples.checks_5_6 ∅)).1 = false).
  { apply Hiff. simpl. lia. }
  split; [exact Hden|].
  destruct (Hretry Hden) as (r & Hr & _ & _ & Hold).
  rewrite Hr. f_equal.
  destruct (Hold (mkCheck "10.0.0.1" None 5000 "req_5000_a")) as [_ Hb].
  - left.
  - intros x Hx.
    apply elem_of_cons in Hx as [->|Hx]; [simpl; lia|].
    apply elem_of_cons in Hx as [->|Hx]; [simpl; lia|].
    by apply elem_of_nil in Hx.
  - simpl in Hb. lia.
Defined.

End RouteRefinement.

(* ===================================================================== *)
(** ** Further properties of the scheduler over whole runs               *)
(* ===================================================================== *)

Module QueueRunFacts.
Import Queue Notions Accounting QueueFacts.

(** *** What [processNext] can do *)

(** The five shapes of the world after [processNext]. *)
Lemma processNext_shapes now w :
  processNext now w = w ∨
  processNext now w = stopProcessing w ∨
  (0 < resetTime (rateLimitInfo (state w)) - now ∧
   processNext now w
     = set_rateLimitTimer (Some (nextHandle w))
         (setTimeout CallProcessNext (resetTime (rateLimitInfo (state w)) - now) now w).2) ∨
  (∃ x rest, items (state w) = x :: rest ∧
     isProcessing (state w) = true ∧ isPaused (state w) = false ∧
     (processNext now w = dispatch now w ∨
      processNext now w
        = dispatch now (notifyRateLimit
            (with_state (set_rateLimitInfo (resetWindow now (rateLimitInfo (state w)))) w)))).
Proof.
  unfold processNext.
  destruct (isProcessing (state w)) eqn:Hp, (isPaused (state w)) eqn:Hq,
    (items (state w)) as [|x rest] eqn:Hi; simpl; auto.
  destruct (decide (remaining _ ≤ 0)); [destruct (decide (0 < _))|].
  - right. right. left. done.
  - right. right. right. exists x, rest. auto.
  - right. right. right. exists x, rest. auto.
Qed.

(** *** Coherence of the timer table *)

Lemma timers_wf_ext w w' :
  timer_view w = timer_view w' → timers_wf w → timers_wf w'.
Proof.
  unfold timer_view, timers_wf, pending_requeues.
  intros [= Ht Hn Hp Hr]. rewrite Ht, Hn, Hp, Hr. done.
Qed.


Lemma pending_requeues_in w t :
  t ∈ pending_requeues w ↔ t ∈ timers w ∧ ∃ item, action t = Requeue item.
Proof.
  unfold pending_requeues. rewrite list_elem_of_omap. split.
  - intros (t' & Hin & Heq). destruct (action t') eqn:Ha; [done|].
    injection Heq as <-. eauto.
  - intros (Hin & item & Ha). exists t. rewrite Ha. done.
Qed.

Lemma timers_wf_clearTimeout h w : timers_wf w → timers_wf (clearTimeout h w).
Proof.
  intros (H1 & H2 & H3 & H4 & H5). unfold clearTimeout.
  repeat split; cbn [timers nextHandle processingTimer rateLimitTimer set_timers].
  - intros t Ht. apply list_elem_of_filter in Ht as [_ Ht]. auto.
  - apply (sublist_NoDup _ (handle <$> timers w)); [exact H2 | apply fmap_sublist, sublist_filter].
  - done.
  - done.
  - apply pending_requeues_in in H as [Ht Ha]. cbn [timers set_timers] in Ht.
    apply list_elem_of_filter in Ht as [_ Ht].
    apply (H5 t). apply pending_requeues_in. done.
  - apply pending_requeues_in in H as [Ht Ha]. cbn [timers set_timers] in Ht.
    apply list_elem_of_filter in Ht as [_ Ht].
    apply (H5 t). apply pending_requeues_in. done.
Qed.

Lemma timers_wf_clearTimers w : timers_wf w → timers_wf (clearTimers w).
Proof.
  intros Hw. unfold clearTimers.
  assert (Hw1 : timers_wf
    match processingTimer w with
    | Some h => set_processingTimer None (clearTimeout h w)
    | None => w
    end).
  { destruct (processingTimer w) as [h|] eqn:E; [|done].
    destruct (timers_wf_clearTimeout h w Hw) as (H1 & H2 & H3 & H4 & H5).
    repeat split; try done. apply (H5 t H). }
  revert Hw1. generalize (match processingTimer w with
    | Some h => set_processingTimer None (clearTimeout h w) | None => w end).
  intros w1 Hw1. destruct (rateLimitTimer w1) as [h|] eqn:E; [|done].
  destruct (timers_wf_clearTimeout h w1 Hw1) as (H1 & H2 & H3 & H4 & H5).
  repeat split; try done. apply (H5 t H).
Qed.

(** A fresh timer, whose handle may be kept in one of the two fields when it
    calls [processNext]. *)
Lemma timers_wf_setTimeout act d now w :
  timers_wf w →
  timers_wf (setTimeout act d now w).2 ∧
  (act = CallProcessNext →
   timers_wf (set_processingTimer (Some (nextHandle w)) (setTimeout act d now w).2) ∧
   timers_wf (set_rateLimitTimer (Some (nextHandle w)) (setTimeout act d now w).2)).
Proof.
  intros (H1 & H2 & H3 & H4 & H5).
  assert (Hfresh : nextHandle w ∉ handle <$> timers w).
  { intros Hin. apply list_elem_of_fmap in Hin as (t & Heq & Ht).
    specialize (H1 t Ht). lia. }
  assert (Hnd : NoDup (handle <$> (timers w ++
            [{| handle := nextHandle w; delay := d; due := now + timerDelay d;
               action := act |}]))).
  { rewrite fmap_app. apply NoDup_app. split; [done|]. split.
    - intros h Hh Hh'. simpl in Hh'. apply list_elem_of_singleton in Hh'. by subst.
    - simpl. apply NoDup_singleton. }
  assert (Hlt : ∀ t, t ∈ timers w ++
            [{| handle := nextHandle w; delay := d; due := now + timerDelay d;
               action := act |}] →
            (handle t < S (nextHandle w))%nat).
  { intros t Ht. apply elem_of_app in Ht as [Ht|Ht].
    - specialize (H1 t Ht). lia.
    - apply list_elem_of_singleton in Ht. subst t. simpl. lia. }
  assert (Hold : ∀ t, t ∈ pending_requeues (setTimeout act d now w).2 →
            t ∈ pending_requeues w ∨
            (handle t = nextHandle w ∧ ∃ item, act = Requeue item)).
  { intros t Ht. apply pending_requeues_in in Ht as [Ht [item Ha]].
    cbn [setTimeout snd timers set_timers] in Ht.
    apply elem_of_app in Ht as [Ht|Ht].
    - left. apply pending_requeues_in. eauto.
    - apply list_elem_of_singleton in Ht. subst t. right. simpl in *. eauto. }
  split; [|intros ->; split].
  - unfold timers_wf. cbn [setTimeout snd timers nextHandle processingTimer
                           rateLimitTimer set_timers].
    split; [exact Hlt|]. split; [exact Hnd|].
    split; [intros h Hh; specialize (H3 h Hh); lia|].
    split; [intros h Hh; specialize (H4 h Hh); lia|].
    intros t Ht. destruct (Hold t Ht) as [Ht'|[Hh _]].
    + apply (H5 t Ht').
    + rewrite Hh. split; intros E.
      * specialize (H3 _ E). lia.
      * specialize (H4 _ E). lia.
  - unfold timers_wf. cbn [setTimeout snd timers nextHandle processingTimer
                           rateLimitTimer set_timers set_processingTimer].
    split; [exact Hlt|]. split; [exact Hnd|].
    split; [intros h [= <-]; lia|].
    split; [intros h Hh; specialize (H4 h Hh); lia|].
    intros t Ht.
    change (pending_requeues (set_processingTimer _ ?x)) with (pending_requeues x) in Ht.
    destruct (Hold t Ht) as [Ht'|[_ [item Hitem]]]; [|done].
    split; [|apply (H5 t Ht')].
    intros [= E]. apply pending_requeues_in in Ht' as [Ht' _].
    specialize (H1 t Ht'). lia.
  - unfold timers_wf. cbn [setTimeout snd timers nextHandle processingTimer
                           rateLimitTimer set_timers set_rateLimitTimer].
    split; [exact Hlt|]. split; [exact Hnd|].
    split; [intros h Hh; specialize (H3 h Hh); lia|].
    split; [intros h [= <-]; lia|].
    intros t Ht.
    change (pending_requeues (set_rateLimitTimer _ ?x)) with (pending_requeues x) in Ht.
    destruct (Hold t Ht) as [Ht'|[_ [item Hitem]]]; [|done].
    split; [apply (H5 t Ht')|].
    intros [= E]. apply pending_requeues_in in Ht' as [Ht' _].
    specialize (H1 t Ht'). lia.
Qed.


(** Operations that leave the timer table and the two handles alone. *)
Ltac same_timers w0 :=
  apply (timers_wf_ext w0); [unfold timer_view; world_norm; reflexivity|].

Lemma dispatch_timer_view now w : timer_view (dispatch now w) = timer_view w.
Proof. unfold dispatch. destruct (items (state w)); done. Qed.

Lemma timers_wf_stopProcessing w : timers_wf w → timers_wf (stopProcessing w).
Proof.
  intros Hw. unfold stopProcessing, saveToStorage.
  match goal with |- timers_wf (notifyProgress (set_localStorage _ ?w1)) =>
    same_timers w1 end.
  apply timers_wf_clearTimers. by same_timers w.
Qed.

Lemma timers_wf_processNext now w : timers_wf w → timers_wf (processNext now w).
Proof.
  intros Hw.
  destruct (processNext_shapes now w)
    as [-> | [-> | [[_ ->] | (x & rest & _ & _ & _ & [-> | ->])]]].
  - done.
  - by apply timers_wf_stopProcessing.
  - by apply timers_wf_setTimeout.
  - apply (timers_wf_ext w); [by rewrite dispatch_timer_view | done].
  - match goal with |- timers_wf (dispatch now ?w1) =>
      apply (timers_wf_ext w1); [by rewrite dispatch_timer_view|] end.
    by same_timers w.
Qed.

Lemma timers_wf_startProcessing now w :
  timers_wf w → timers_wf (startProcessing now w).
Proof.
  intros Hw. unfold startProcessing. destruct (isProcessing (state w)); [done|].
  apply timers_wf_processNext. unfold saveToStorage. by same_timers w.
Qed.

Lemma timers_wf_after_settle item o now w :
  timers_wf w → timers_wf (after_settle item o now w).
Proof.
  intros Hw. unfold after_settle, scheduleNext.
  match goal with |- context [setTimeout CallProcessNext ?d now ?w1] =>
    assert (Hw1 : timers_wf w1);
    [|exact (proj1 (proj2 (timers_wf_setTimeout CallProcessNext d now w1 Hw1) eq_refl))]
  end.
  assert (Ha : timers_wf (absorb o w)).
  { unfold absorb. destruct (snapshot_of _); [|done]. by same_timers w. }
  destruct (verdict _ _ _) as [result|msg].
  - unfold recordSuccess, saveToStorage. by same_timers (absorb o w).
  - unfold handleProcessingError, saveToStorage.
    destruct (_ && _).
    + match goal with |- context [setTimeout ?act ?d now ?w1] =>
        same_timers (setTimeout act d now w1).2 end.
      by apply timers_wf_setTimeout.
    + by same_timers (absorb o w).
Qed.

(** Every event keeps the timer table coherent. *)
Lemma timers_wf_step now e w : timers_wf w → timers_wf (step now e w).
Proof.
  intros Hw. destruct e; cbn [step].
  - by same_timers w.
  - by same_timers w.
  - by same_timers w.
  - unfold addToQueue, saveToStorage. by same_timers w.
  - unfold addMultipleToQueue, saveToStorage. by same_timers w.
  - by apply timers_wf_startProcessing.
  - unfold pauseProcessing, saveToStorage.
    match goal with |- timers_wf (notifyProgress (set_localStorage _ ?w1)) =>
      same_timers w1 end.
    apply timers_wf_clearTimers. by same_timers w.
  - unfold resumeProcessing. destruct (negb _); [done|].
    apply timers_wf_processNext. unfold saveToStorage. by same_timers w.
  - by apply timers_wf_stopProcessing.
  - unfold clearQueue, resetStatistics, saveToStorage.
    same_timers (stopProcessing w). by apply timers_wf_stopProcessing.
  - unfold removeFromQueue, saveToStorage. by same_timers w.
  - unfold retryFailedItem. destruct (list_find _ _) as [[i item]|]; [|done].
    destruct (negb _).
    + apply timers_wf_startProcessing. by same_timers w.
    + by same_timers w.
  - unfold destroy. same_timers (clearTimers w). by apply timers_wf_clearTimers.
  - unfold fire. destruct (list_find _ _) as [[i t]|]; [|done].
    destruct (decide _); [|done].
    destruct (action t).
    + apply timers_wf_processNext. by apply timers_wf_clearTimeout.
    + unfold saveToStorage. same_timers (clearTimeout h w).
      by apply timers_wf_clearTimeout.
  - destruct (inflight w !! k) as [item|] eqn:Hk.
    + rewrite (settle_world now k o w item Hk).
      apply timers_wf_after_settle. by same_timers w.
    + by rewrite (processNext_settle_missing now k o w Hk).
Qed.

Lemma timers_wf_run evs : ∀ w, timers_wf w → timers_wf (run evs w).
Proof.
  induction evs as [|[now e] evs IH]; intros w Hw; [done|].
  cbn [run]. by apply IH, timers_wf_step.
Qed.

Lemma timers_wf_construct now stored : timers_wf (construct now stored).
Proof.
  apply (timers_wf_ext
    {| state := initializeState now; processingTimer := None;
       rateLimitTimer := None; progressCallback := false;
       rateLimitCallback := false; resultCallback := false;
       timers := []; nextHandle := 1%nat; localStorage := stored;
       inflight := []; trace := [] |}).
  - unfold construct, loadFromStorage. cbn [localStorage].
    destruct stored as [| |ps]; try done.
    destruct (p_rateLimitInfo ps), (p_statistics ps); done.
  - unfold timers_wf, pending_requeues. cbn.
    repeat split; try done; try (intros ? H; by apply elem_of_nil in H).
    apply NoDup_nil_2.
Qed.


(** *** No item is lost or duplicated *)

Lemma accounted_ext w w' : item_view w = item_view w' → accounted w = accounted w'.
Proof.
  unfold item_view, accounted, live_items, requeued_items.
  intros [= Hi Hf Ht Hs]. by rewrite Hi, Hf, Ht, Hs.
Qed.

Ltac same_items w0 :=
  rewrite <- (accounted_ext w0) by (unfold item_view; world_norm; reflexivity).

Lemma accounted_eq w :
  accounted w
    = Z.of_nat (length (items (state w))) + Z.of_nat (length (inflight w))
      + Z.of_nat (length (requeued_items w)) + totalProcessed (statistics (state w)).
Proof. unfold accounted, live_items. rewrite !length_app. lia. Qed.

(** Removing the timers of a handle that designates no backoff timer keeps
    every backoff timer. *)
Lemma omap_filter_handle (f : Timer → option QueueItem) h (ts : list Timer) :
  (∀ t, t ∈ ts → handle t = h → f t = None) →
  omap f (filter (λ t, handle t ≠ h) ts) = omap f ts.
Proof.
  induction ts as [|t ts IH]; intros Hh; [done|].
  rewrite filter_cons. destruct (decide (handle t ≠ h)) as [Hne|Heq].
  - csimpl. rewrite IH; [done|]. intros t' Ht'. apply Hh. by right.
  - csimpl. rewrite (Hh t); [|by left|by destruct (decide (handle t = h))].
    apply IH. intros t' Ht'. apply Hh. by right.
Qed.

Lemma requeued_without w field :
  (∀ t, t ∈ pending_requeues w → field ≠ Some (handle t)) →
  omap (λ t, match action t with Requeue item => Some item | _ => None end)
       (without field (timers w))
    = requeued_items w.
Proof.
  intros Hf. unfold without, requeued_items. destruct field as [h|]; [|done].
  apply omap_filter_handle. intros t Ht Hh.
  destruct (action t) eqn:Ha; [done|].
  exfalso. apply (Hf t); [|by rewrite Hh].
  apply pending_requeues_in. eauto.
Qed.

Lemma requeued_clearTimers w :
  timers_wf w → requeued_items (clearTimers w) = requeued_items w.
Proof.
  intros Hw. destruct Hw as (H1 & H2 & H3 & H4 & H5).
  rewrite clearTimers_shape. unfold requeued_items at 1.
  cbn [timers set_timers set_processingTimer set_rateLimitTimer].
  set (w1 := set_timers (without (processingTimer w) (timers w)) (nextHandle w) w).
  assert (E1 : requeued_items w1 = requeued_items w).
  { apply (requeued_without w). intros t Ht. by apply H5. }
  change (without (processingTimer w) (timers w)) with (timers w1).
  rewrite (requeued_without w1); [done|].
  intros t Ht. apply pending_requeues_in in Ht as [Ht Ha].
  subst w1. cbn [timers set_timers] in Ht. unfold without in Ht.
  assert (Ht' : t ∈ timers w).
  { destruct (processingTimer w); [|done].
    by apply list_elem_of_filter in Ht as [_ Ht]. }
  apply (H5 t). apply pending_requeues_in. done.
Qed.

Lemma accounted_stopProcessing w :
  timers_wf w → accounted (stopProcessing w) = accounted w.
Proof.
  intros Hw. rewrite !accounted_eq.
  rewrite <- (requeued_clearTimers w Hw).
  unfold requeued_items. world_norm. done.
Qed.

Lemma accounted_dispatch now w : accounted (dispatch now w) = accounted w.
Proof.
  destruct (items (state w)) as [|x rest] eqn:Hi.
  - unfold dispatch. by rewrite Hi.
  - rewrite !accounted_eq.
    destruct (dispatch_cons now w x rest Hi) as [Hs Hin].
    pose proof (dispatch_timer_view now w) as Hv. injection Hv as Ht _ _ _.
    unfold requeued_items. rewrite Hs, Hin, Ht, Hi, length_app. simpl. lia.
Qed.

Lemma accounted_processNext now w :
  timers_wf w → accounted (processNext now w) = accounted w.
Proof.
  intros Hw.
  destruct (processNext_shapes now w)
    as [-> | [-> | [[_ ->] | (x & rest & _ & _ & _ & [-> | ->])]]].
  - done.
  - by apply accounted_stopProcessing.
  - rewrite !accounted_eq. unfold requeued_items. world_norm.
    rewrite omap_app. simpl. by rewrite app_nil_r.
  - apply accounted_dispatch.
  - rewrite accounted_dispatch. by same_items w.
Qed.

Lemma accounted_startProcessing now w :
  timers_wf w → accounted (startProcessing now w) = accounted w.
Proof.
  intros Hw. unfold startProcessing. destruct (isProcessing (state w)); [done|].
  rewrite accounted_processNext.
  - unfold saveToStorage. by same_items w.
  - unfold saveToStorage. by same_timers w.
Qed.

Lemma accounted_after_settle now k o w item :
  inflight w !! k = Some item →
  accounted (after_settle item o now (set_inflight (delete k (inflight w)) w))
    = accounted w.
Proof.
  intros Hk. rewrite !accounted_eq.
  pose proof (lookup_lt_Some _ _ _ Hk) as Hlt.
  pose proof (length_delete (inflight w) k (mk_is_Some _ _ Hk)) as Hlen.
  unfold after_settle, handleProcessingError, absorb, requeued_items.
  destruct (verdict _ _ _); [|destruct (_ && _)]; destruct (snapshot_of _);
    world_norm; rewrite ?omap_app; simpl; rewrite ?app_nil_r, ?length_app;
    simpl; lia.
Qed.


Lemma filter_handle_absent h (ts : list Timer) :
  h ∉ handle <$> ts → filter (λ t, handle t ≠ h) ts = ts.
Proof.
  induction ts as [|t ts IH]; intros Hh; [done|].
  rewrite fmap_cons in Hh. apply not_elem_of_cons in Hh as [Hne Hh].
  rewrite filter_cons_True by done. f_equal. by apply IH.
Qed.

(** With distinct handles, clearing a handle removes the one timer that has
    it. *)
Lemma omap_filter_one (f : Timer → option QueueItem) h (ts : list Timer) t :
  NoDup (handle <$> ts) → t ∈ ts → handle t = h →
  (length (omap f (filter (λ t', handle t' ≠ h) ts))
     + match f t with Some _ => 1 | None => 0 end = length (omap f ts))%nat.
Proof.
  induction ts as [|t0 ts IH]; intros Hnd Hin Hh; [by apply elem_of_nil in Hin|].
  rewrite fmap_cons in Hnd. apply NoDup_cons in Hnd as [Hfresh Hnd].
  apply elem_of_cons in Hin as [->|Hin].
  - rewrite filter_cons_False by (intros Hne; by apply Hne).
    rewrite filter_handle_absent by (by rewrite <- Hh).
    csimpl. destruct (f t0); simpl; lia.
  - assert (Hne : handle t0 ≠ h).
    { intros Heq. apply Hfresh. rewrite Heq, <- Hh.
      apply list_elem_of_fmap. eauto. }
    rewrite filter_cons_True by done. csimpl.
    specialize (IH Hnd Hin Hh). destruct (f t0); simpl; lia.
Qed.

Lemma accounted_fire now h w :
  timers_wf w → accounted (fire now h w) = accounted w.
Proof.
  intros Hw. unfold fire.
  destruct (list_find _ _) as [[i t]|] eqn:Hf; [|done].
  destruct (decide _); [|done].
  apply list_find_Some in Hf as (Hi & Hh & _).
  assert (Hin : t ∈ timers w) by (eapply list_elem_of_lookup_2; exact Hi).
  pose proof Hw as (H1 & H2 & H3 & H4 & H5).
  pose proof (omap_filter_one
    (λ t, match action t with Requeue item => Some item | _ => None end)
    h (timers w) t H2 Hin Hh) as Hone.
  cbv beta in Hone.
  destruct (action t) eqn:Ha.
  - rewrite accounted_processNext by (by apply timers_wf_clearTimeout).
    rewrite !accounted_eq. unfold requeued_items, clearTimeout.
    cbn [timers set_timers state inflight]. lia.
  - rewrite !accounted_eq. unfold requeued_items, clearTimeout. world_norm.
    simpl. lia.
Qed.

(** One event: the count moves by what the event hands over. *)
Lemma accounted_step now e w :
  timers_wf w → ¬ discards e → accounted (step now e w) = accounted w + added e.
Proof.
  intros Hw Hd. destruct e; cbn [step added]; try (by destruct Hd).
  - same_items w. lia.
  - same_items w. lia.
  - same_items w. lia.
  - rewrite !accounted_eq. unfold addToQueue, requeued_items. world_norm.
    rewrite length_app. simpl. lia.
  - rewrite !accounted_eq. unfold addMultipleToQueue, requeued_items. world_norm.
    rewrite length_app, length_map. lia.
  - rewrite accounted_startProcessing by done. lia.
  - rewrite !accounted_eq. rewrite <- (requeued_clearTimers w Hw).
    unfold requeued_items. world_norm. lia.
  - unfold resumeProcessing. destruct (negb _); [lia|].
    rewrite accounted_processNext.
    + unfold saveToStorage. same_items w. lia.
    + unfold saveToStorage. by same_timers w.
  - rewrite accounted_stopProcessing by done. lia.
  - unfold retryFailedItem. destruct (list_find _ _) as [[i item]|]; [|lia].
    assert (Hset : accounted
              (with_state (λ s, set_items (<[i:=resetRetry item]> (items s)) s) w)
              = accounted w).
    { rewrite !accounted_eq. unfold requeued_items. world_norm.
      by rewrite length_insert. }
    destruct (negb _); [|lia].
    rewrite accounted_startProcessing by (by same_timers w). lia.
  - rewrite !accounted_eq. rewrite <- (requeued_clearTimers w Hw).
    unfold destroy, requeued_items. world_norm. lia.
  - rewrite accounted_fire by done. lia.
  - destruct (inflight w !! k) as [item|] eqn:Hk.
    + rewrite (settle_world now k o w item Hk), accounted_after_settle by done. lia.
    + rewrite (processNext_settle_missing now k o w Hk). simpl. lia.
Qed.

(** In a run of a newly constructed queue in which the caller never calls
    [clearQueue] or [removeFromQueue], the items still pending, in flight or
    waiting for their backoff, plus [totalProcessed], number the items handed
    to the queue plus the [totalProcessed] found in storage. *)
Lemma accounted_along_runs (now : Z) (stored : StorageEntry) (evs : list (Z * Event)) :
  Forall (λ ne, ¬ discards ne.2) evs →
  accounted (run evs (construct now stored))
    = totalProcessed (statistics (state (construct now stored))) + added_in evs.
Proof.
  intros Hev.
  assert (H : ∀ w, timers_wf w → accounted (run evs w) = accounted w + added_in evs).
  { induction evs as [|[t e] evs IH]; intros w Hw; [simpl; lia|].
    apply Forall_cons in Hev as [He Hev]. cbn [run added_in].
    rewrite IH by (done || by apply timers_wf_step).
    rewrite accounted_step by done. lia. }
  rewrite H by apply timers_wf_construct.
  rewrite accounted_eq. unfold requeued_items.
  rewrite construct_items.
  unfold construct, loadFromStorage. cbn [localStorage].
  destruct stored as [| |ps]; [simpl; lia..|].
  destruct (p_rateLimitInfo ps), (p_statistics ps); simpl; lia.
Qed.

(** *** The counters *)

Lemma processNext_statistics now w :
  statistics (state (processNext now w)) = statistics (state w).
Proof.
  destruct (processNext_shapes now w)
    as [-> | [-> | [[_ ->] | (x & rest & Hi & _ & _ & [-> | ->])]]].
  - done.
  - by world_norm.
  - done.
  - by rewrite (proj1 (dispatch_cons now w x rest Hi)).
  - match goal with |- context [dispatch now ?w1] =>
      rewrite (proj1 (dispatch_cons now w1 x rest
                 ltac:(rewrite notifyRateLimit_shape; exact Hi))) end.
    by world_norm.
Qed.

Lemma stats_consistent_ext w w' :
  statistics (state w) = statistics (state w') →
  stats_consistent w → stats_consistent w'.
Proof. unfold stats_consistent. by intros ->. Qed.

Lemma stats_consistent_startProcessing now w :
  stats_consistent w → stats_consistent (startProcessing now w).
Proof.
  unfold stats_consistent, startProcessing.
  destruct (isProcessing (state w)); [done|].
  rewrite processNext_statistics. by world_norm.
Qed.

Lemma stats_consistent_step now e w :
  stats_consistent w → stats_consistent (step now e w).
Proof.
  intros Hw. destruct e; cbn [step]; try done.
  - apply (stats_consistent_ext w); [|done]. unfold addToQueue. by world_norm.
  - apply (stats_consistent_ext w); [|done]. unfold addMultipleToQueue. by world_norm.
  - by apply stats_consistent_startProcessing.
  - apply (stats_consistent_ext w); [|done]. by world_norm.
  - unfold resumeProcessing. destruct (negb _); [done|].
    apply (stats_consistent_ext w); [|done].
    rewrite processNext_statistics. by world_norm.
  - apply (stats_consistent_ext w); [|done]. by world_norm.
  - unfold stats_consistent, clearQueue, resetStatistics. by world_norm.
  - apply (stats_consistent_ext w); [|done]. unfold removeFromQueue. by world_norm.
  - unfold retryFailedItem. destruct (list_find _ _) as [[i item]|]; [|done].
    destruct (negb _); [|done].
    by apply stats_consistent_startProcessing.
  - apply (stats_consistent_ext w); [|done]. unfold destroy. by world_norm.
  - unfold fire. destruct (list_find _ _) as [[i t]|]; [|done].
    destruct (decide _); [|done].
    apply (stats_consistent_ext w); [|done].
    destruct (action t); [by rewrite processNext_statistics | by world_norm].
  - destruct (inflight w !! k) as [item|] eqn:Hk;
      [|by rewrite (processNext_settle_missing now k o w Hk)].
    rewrite (settle_world now k o w item Hk). unfold stats_consistent in *.
    destruct (verdict (request item) o now) as [result|msg] eqn:Hv.
    + rewrite (proj1 (settle_success now k o w item result Hv)). simpl. lia.
    + destruct (isRetryableError msg && bool_decide (retryCount item + 1 < maxRetries item))
        eqn:Hr.
      * by rewrite (proj1 (settle_retry now k o w item msg Hv Hr)).
      * rewrite (proj1 (settle_terminal now k o w item msg Hv Hr)). simpl. lia.
Qed.

(** X8. The counters add up: if [totalProcessed = successCount + errorCount]
    in the statistics a queue starts with, it holds after every run; it
    holds in particular for a queue constructed over storage that has no
    statistics. *)
Theorem counters_add_up (evs : list (Z * Event)) (w : World) (now : Z)
    (stored : StorageEntry) :
  (stats_consistent w → stats_consistent (run evs w)) ∧
  (match stored with Parsed ps => p_statistics ps = None | _ => True end →
   stats_consistent (run evs (construct now stored))).
Proof.
  assert (H : ∀ w0, stats_consistent w0 → stats_consistent (run evs w0)).
  { induction evs as [|[t e] evs IH]; intros w0 Hw; [done|].
    cbn [run]. by apply IH, stats_consistent_step. }
  split; [apply H|].
  intros Hs. apply H. unfold stats_consistent, construct, loadFromStorage.
  cbn [localStorage]. destruct stored as [| |ps]; try done.
  rewrite Hs. destruct (p_rateLimitInfo ps); done.
Qed.

Lemma counters_add_up_witness :
  stats_consistent (run MoreExamples.failing_script (construct 1000 Absent)).
Proof.
  apply (proj2 (counters_add_up MoreExamples.failing_script
                  (construct 1000 Absent) 1000 Absent)).
  exact I.
Defined.


(** *** A paused or stopped queue *)

Lemma fetches_ext w w' : trace w = trace w' → fetches w = fetches w'.
Proof. unfold fetches. by intros ->. Qed.

Lemma fetches_emit_when b e w :
  fetches (emit_when b e w)
    = (fetches w + match e with EFetch _ => if b then 1 else 0 | _ => 0 end)%nat.
Proof.
  unfold fetches, emit_when. cbn [trace]. rewrite omap_app, length_app.
  destruct b, e; simpl; lia.
Qed.

Lemma fetches_stopProcessing w : fetches (stopProcessing w) = fetches w.
Proof.
  unfold stopProcessing, saveToStorage. rewrite notifyProgress_shape, fetches_emit_when.
  rewrite clearTimers_shape. unfold fetches. cbn. lia.
Qed.

Lemma fetches_dispatch now w :
  fetches (dispatch now w)
    = (fetches w + match items (state w) with [] => 0 | _ => 1 end)%nat.
Proof.
  unfold dispatch. destruct (items (state w)); [lia|].
  unfold fetches. cbn. rewrite omap_app, length_app. simpl. lia.
Qed.

Lemma processNext_quiet now w :
  quiet w →
  quiet (processNext now w) ∧ fetches (processNext now w) = fetches w.
Proof.
  intros Hq. unfold processNext.
  assert (Hc : negb (isProcessing (state w)) || isPaused (state w)
               || (length (items (state w)) =? 0)%nat = true).
  { destruct Hq as [-> | ->]; [done|]. by rewrite orb_true_r. }
  rewrite Hc. destruct (_ && _); [|done].
  split; [|apply fetches_stopProcessing].
  left. by world_norm.
Qed.

Lemma settle_keeps_paused now k o w :
  isPaused (state (processNext_settle now k o w).2) = isPaused (state w).
Proof.
  destruct (inflight w !! k) as [item|] eqn:Hk;
    [|by rewrite (processNext_settle_missing now k o w Hk)].
  rewrite (settle_world now k o w item Hk).
  unfold after_settle, handleProcessingError, absorb.
  destruct (verdict _ _ _); [|destruct (_ && _)]; destruct (snapshot_of _);
    world_norm; done.
Qed.

Lemma quiet_step now e w :
  quiet w → background e →
  quiet (step now e w) ∧ fetches (step now e w) = fetches w.
Proof.
  intros Hq Hb. destruct e; try done; cbn [step].
  - unfold fire. destruct (list_find _ _) as [[i t]|]; [|done].
    destruct (decide _); [|done].
    destruct (action t).
    + destruct (processNext_quiet now (clearTimeout h w) Hq) as [H1 H2].
      split; [done|]. rewrite H2. done.
    + split.
      * unfold quiet in *. unfold saveToStorage. by world_norm.
      * unfold saveToStorage. rewrite notifyProgress_shape, fetches_emit_when.
        unfold fetches. cbn. lia.
  - split; [|apply settle_fetches].
    unfold quiet. rewrite settle_keeps_flag, settle_keeps_paused. exact Hq.
Qed.

(** X9. A queue that is paused or not processing sends nothing on its own:
    whatever timers fire and calls settle, it issues no request and stays
    paused or not processing, until the caller acts.  [pauseProcessing] and
    [stopProcessing] put the queue in that condition. *)
Theorem quiet_queue_sends_nothing (evs : list (Z * Event)) (w : World) :
  quiet (pauseProcessing w) ∧ quiet (stopProcessing w) ∧
  (quiet w → Forall (λ ne, background ne.2) evs →
   quiet (run evs w) ∧ fetches (run evs w) = fetches w).
Proof.
  split; [right; by world_norm|]. split; [left; by world_norm|].
  revert w. induction evs as [|[now e] evs IH]; intros w Hq Hbg; [done|].
  apply Forall_cons in Hbg as [He Hbg]. cbn [run].
  destruct (quiet_step now e w Hq He) as [Hq' Hf'].
  destruct (IH _ Hq' Hbg) as [H1 H2]. split; [done | by rewrite H2].
Qed.

Lemma quiet_queue_sends_nothing_witness :
  fetches (run [(2000, CallSettles 0%nat (Rejected "Network error"%string));
                (4000, TimerFires 1%nat); (8000, TimerFires 2%nat)]
             (pauseProcessing Examples.dispatched))
    = fetches (pauseProcessing Examples.dispatched).
Proof.
  apply (proj2 (proj2 (quiet_queue_sends_nothing _ (pauseProcessing Examples.dispatched)))).
  - right. vm_compute. reflexivity.
  - repeat constructor.
Defined.

(** X10. Pausing twice is pausing once: the second call changes nothing but
    to notify the progress callback again; the same holds for stopping. *)
Theorem pause_is_idempotent (w : World) :
  pauseProcessing (pauseProcessing w) = notifyProgress (pauseProcessing w) ∧
  stopProcessing (stopProcessing w) = notifyProgress (stopProcessing w).
Proof.
  split.
  - unfold pauseProcessing, saveToStorage.
    rewrite !notifyProgress_shape, !clearTimers_shape.
    destruct w as [[its ip iq rli st] pt rt pc rc resc ts nh ls inf tr].
    cbn. reflexivity.
  - unfold stopProcessing, saveToStorage.
    rewrite !notifyProgress_shape, !clearTimers_shape.
    destruct w as [[its ip iq rli st] pt rt pc rc resc ts nh ls inf tr].
    cbn. reflexivity.
Qed.


(** *** One tick *)

(** X11. A tick sends at most one request, and only the head of the pending
    list: either the pending list, the calls in flight and the number of
    requests are unchanged, or the queue was processing and not paused, the
    head item has moved to the calls in flight, stamped with the time, the
    rest of the list keeps its order, exactly one request was issued, and
    the window had capacity left or had run out. *)
Theorem tick_sends_at_most_one (now : Z) (w : World) :
  (items (state (processNext now w)) = items (state w) ∧
   inflight (processNext now w) = inflight w ∧
   fetches (processNext now w) = fetches w) ∨
  (∃ x rest,
     items (state w) = x :: rest ∧
     items (state (processNext now w)) = rest ∧
     inflight (processNext now w) = inflight w ++ [touch now x] ∧
     fetches (processNext now w) = S (fetches w) ∧
     isProcessing (state w) = true ∧ isPaused (state w) = false ∧
     (0 < remaining (rateLimitInfo (state w)) ∨
      resetTime (rateLimitInfo (state w)) ≤ now)).
Proof.
  unfold processNext.
  destruct (isProcessing (state w)) eqn:Hp; cbn [negb orb];
    [|left; by rewrite andb_false_r].
  destruct (isPaused (state w)) eqn:Hq; cbn [orb].
  { left. destruct (_ && _); [|done].
    split; [by world_norm|]. split; [by world_norm|]. apply fetches_stopProcessing. }
  destruct (items (state w)) as [|x rest] eqn:Hi; cbn [length Nat.eqb andb].
  { left. split; [by world_norm|]. split; [by world_norm|]. apply fetches_stopProcessing. }
  destruct (decide (remaining _ ≤ 0)) as [Hex|Hcap];
    [destruct (decide (0 < _)) as [Hwait|Hover]|].
  - left. cbn. rewrite Hi. done.
  - right. exists x, rest.
    match goal with |- context [dispatch now ?w1] => set (w1' := w1) end.
    assert (Hi1 : items (state w1') = x :: rest)
      by (subst w1'; rewrite notifyRateLimit_shape; exact Hi).
    destruct (dispatch_cons now w1' x rest Hi1) as [Hs Hin].
    rewrite Hs, Hin, fetches_dispatch, Hi1.
    subst w1'. rewrite notifyRateLimit_shape, fetches_emit_when.
    repeat split; try done; [unfold fetches; cbn; lia | right; lia].
  - right. exists x, rest.
    destruct (dispatch_cons now w x rest Hi) as [Hs Hin].
    rewrite Hs, Hin, fetches_dispatch, Hi.
    repeat split; try done; [lia | left; lia].
Qed.

Lemma list_find_unique h (ts : list Timer) t :
  NoDup (handle <$> ts) → t ∈ ts → handle t = h →
  ∃ i, list_find (λ t', handle t' = h) ts = Some (i, t).
Proof.
  intros Hnd Hin Hh.
  destruct (list_find_elem_of (λ t', handle t' = h) ts t Hin Hh) as [[i t'] Hf].
  exists i. rewrite Hf. f_equal. f_equal.
  apply list_find_Some in Hf as (Hi & Hh' & _).
  apply list_elem_of_lookup in Hin as [j Hj].
  assert (Hij : i = j).
  { eapply NoDup_lookup; [exact Hnd| |].
    - rewrite list_lookup_fmap, Hi. simpl. reflexivity.
    - rewrite list_lookup_fmap, Hj. simpl. by rewrite Hh, Hh'. }
  subst j. congruence.
Qed.

(** On a coherent, processing, unpaused queue with a pending item, no
    capacity left and a reset time ahead, [processNext] sends nothing and arms
    a timer for the time left until the reset; when that time is one a timer
    takes as it is and the timer fires at the reset time, the window is reset
    and the head item is sent. *)
Lemma window_wait (now : Z) (w : World) (x : QueueItem) (rest : list QueueItem) :
  timers_wf w →
  isProcessing (state w) = true → isPaused (state w) = false →
  items (state w) = x :: rest →
  remaining (rateLimitInfo (state w)) ≤ 0 →
  now < resetTime (rateLimitInfo (state w)) →
  fetches (processNext now w) = fetches w ∧
  items (state (processNext now w)) = x :: rest ∧
  rateLimitTimer (processNext now w) = Some (nextHandle w) ∧
  last (timers (processNext now w))
    = Some {| handle := nextHandle w;
              delay := resetTime (rateLimitInfo (state w)) - now;
              due := now + timerDelay (resetTime (rateLimitInfo (state w)) - now);
              action := CallProcessNext |} ∧
  (resetTime (rateLimitInfo (state w)) - now ≤ TIMEOUT_MAX →
   inflight (fire (resetTime (rateLimitInfo (state w))) (nextHandle w)
               (processNext now w))
     = inflight w ++ [touch (resetTime (rateLimitInfo (state w))) x] ∧
   rateLimitInfo (state (fire (resetTime (rateLimitInfo (state w))) (nextHandle w)
                           (processNext now w)))
     = resetWindow (resetTime (rateLimitInfo (state w))) (rateLimitInfo (state w))).
Proof.
  intros Hw Hp Hq Hi Hex Hahead.
  set (T := resetTime (rateLimitInfo (state w))) in *.
  set (tm := {| handle := nextHandle w; delay := T - now;
                due := now + timerDelay (T - now);
                action := CallProcessNext |}).
  assert (Hpn : processNext now w
            = set_rateLimitTimer (Some (nextHandle w))
                (setTimeout CallProcessNext (T - now) now w).2).
  { unfold processNext. rewrite Hp, Hq, Hi. cbn [negb orb length Nat.eqb].
    rewrite decide_True by done. fold T. rewrite decide_True by lia. done. }
  rewrite Hpn.
  split; [done|]. split; [exact Hi|]. split; [done|].
  split; [cbn; by rewrite last_snoc|].
  intros Hfit.
  assert (Hdelay : timerDelay (T - now) = T - now).
  { unfold timerDelay. rewrite decide_True by lia. done. }
  set (w1 := set_rateLimitTimer _ _).
  assert (Hw1 : timers_wf w1).
  { subst w1. exact (proj2 (proj2 (timers_wf_setTimeout CallProcessNext (T - now) now w Hw)
                              eq_refl)). }
  assert (Hin : tm ∈ timers w1).
  { subst w1. cbn. apply elem_of_app. right. by left. }
  destruct (list_find_unique (nextHandle w) (timers w1) tm
              (proj1 (proj2 Hw1)) Hin eq_refl) as [i Hf].
  unfold fire. rewrite Hf. cbn [due tm action]. rewrite Hdelay.
  rewrite decide_True by lia.
  set (w2 := clearTimeout (nextHandle w) w1).
  assert (Hs2 : state w2 = state w) by done.
  assert (Hf2 : inflight w2 = inflight w) by done.
  unfold processNext. rewrite Hs2, Hp, Hq, Hi. cbn [negb orb length Nat.eqb].
  rewrite decide_True by done. fold T. rewrite decide_False by lia.
  match goal with |- context [dispatch T ?w3] => set (w3' := w3) end.
  assert (Hi3 : items (state w3') = x :: rest).
  { subst w3'. rewrite notifyRateLimit_shape. exact Hi. }
  destruct (dispatch_cons T w3' x rest Hi3) as [Hs3 Hin3].
  rewrite Hs3, Hin3. subst w3'. rewrite notifyRateLimit_shape. done.
Qed.

(** *** The retry budget along runs *)

Lemma budget_kept_ext w w' :
  budget_view w = budget_view w' → budget_kept w → budget_kept w'.
Proof.
  unfold budget_view, budget_kept. intros [= Hi Hf Ht]. by rewrite Hi, Hf, Ht.
Qed.

Ltac same_budget w0 :=
  apply (budget_kept_ext w0); [unfold budget_view; world_norm; reflexivity|].

Lemma Forall_filter_timers (Q P : Timer → Prop) `{!∀ x, Decision (P x)}
    (l : list Timer) :
  Forall Q l → Forall Q (filter P l).
Proof.
  rewrite !Forall_forall. intros HQ x Hx.
  apply list_elem_of_filter in Hx as [_ Hx]. auto.
Qed.

Lemma budget_kept_clearTimeout h w : budget_kept w → budget_kept (clearTimeout h w).
Proof.
  intros (Hi & Hf & Ht). unfold budget_kept, clearTimeout. cbn.
  repeat split; try done. by apply Forall_filter_timers.
Qed.

Lemma Forall_without (Q : Timer → Prop) field (l : list Timer) :
  Forall Q l → Forall Q (without field l).
Proof.
  intros Hl. unfold without. destruct field; [|done].
  by apply Forall_filter_timers.
Qed.

Lemma budget_kept_clearTimers w : budget_kept w → budget_kept (clearTimers w).
Proof.
  intros (Hi & Hf & Ht). rewrite clearTimers_shape. unfold budget_kept.
  cbn [state inflight timers items set_timers set_processingTimer set_rateLimitTimer].
  repeat split; try done. by repeat apply Forall_without.
Qed.

Lemma budget_kept_stopProcessing w : budget_kept w → budget_kept (stopProcessing w).
Proof.
  intros Hw. unfold stopProcessing, saveToStorage.
  match goal with |- budget_kept (notifyProgress (set_localStorage _ ?w1)) =>
    same_budget w1 end.
  apply budget_kept_clearTimers. by same_budget w.
Qed.

Lemma within_budget_touch now item : within_budget item → within_budget (touch now item).
Proof. done. Qed.

Lemma budget_kept_dispatch now w : budget_kept w → budget_kept (dispatch now w).
Proof.
  intros Hw.
  destruct (items (state w)) as [|x rest] eqn:E.
  - unfold dispatch. rewrite E. done.
  - destruct (dispatch_cons now w x rest E) as [Hs Hin].
    pose proof (dispatch_timer_view now w) as Hv. injection Hv as Htm _ _ _.
    destruct Hw as (Hi & Hf & Ht). rewrite E in Hi.
    unfold budget_kept. rewrite Hs, Hin, Htm. cbn.
    apply Forall_cons in Hi as [Hx Hrest].
    repeat split; try done. apply Forall_app. split; [done|].
    constructor; [exact Hx | constructor].
Qed.

Lemma budget_kept_processNext now w : budget_kept w → budget_kept (processNext now w).
Proof.
  intros Hw.
  destruct (processNext_shapes now w)
    as [-> | [-> | [[_ ->] | (x & rest & _ & _ & _ & [-> | ->])]]].
  - done.
  - by apply budget_kept_stopProcessing.
  - destruct Hw as (Hi & Hf & Ht). unfold budget_kept. cbn.
    repeat split; try done. apply Forall_app. split; [done|]. by repeat constructor.
  - by apply budget_kept_dispatch.
  - apply budget_kept_dispatch. by same_budget w.
Qed.

Lemma budget_kept_startProcessing now w :
  budget_kept w → budget_kept (startProcessing now w).
Proof.
  intros Hw. unfold startProcessing. destruct (isProcessing (state w)); [done|].
  apply budget_kept_processNext. unfold saveToStorage. by same_budget w.
Qed.

Lemma budget_kept_after_settle now k o w item :
  inflight w !! k = Some item → budget_kept w →
  budget_kept (after_settle item o now (set_inflight (delete k (inflight w)) w)).
Proof.
  intros Hk (Hi & Hf & Ht).
  assert (Hitem : within_budget item).
  { rewrite Forall_forall in Hf. apply Hf. eapply list_elem_of_lookup_2. exact Hk. }
  assert (Hdel : Forall within_budget (delete k (inflight w))).
  { by apply Forall_delete. }
  unfold after_settle, handleProcessingError, absorb.
  destruct (verdict _ _ _) as [result|msg];
    [|destruct (isRetryableError msg && _) eqn:Hr];
    destruct (snapshot_of _); unfold budget_kept; world_norm;
    (split; [done|]); (split; [done|]);
    repeat (apply Forall_app; split); try done; try (by repeat constructor).
  all: apply andb_prop in Hr as [_ Hlt]; apply bool_decide_eq_true in Hlt;
    cbn in Hlt; destruct Hitem as [[H0 _] Hm];
    repeat constructor; unfold timer_ok; cbn; repeat split; try done; lia.
Qed.

Lemma budget_kept_step now e w : budget_kept w → budget_kept (step now e w).
Proof.
  intros Hw. destruct e; cbn [step].
  - by same_budget w.
  - by same_budget w.
  - by same_budget w.
  - destruct Hw as (Hi & Hf & Ht). unfold budget_kept, addToQueue. world_norm.
    repeat split; try done. apply Forall_app. split; [done|].
    repeat constructor; unfold MAX_RETRIES; cbn; lia.
  - destruct Hw as (Hi & Hf & Ht). unfold budget_kept, addMultipleToQueue. world_norm.
    repeat split; try done. apply Forall_app. split; [done|].
    apply Forall_forall. intros it Hit. apply list_elem_of_fmap in Hit as (r & -> & _).
    repeat split; unfold MAX_RETRIES; cbn; lia.
  - by apply budget_kept_startProcessing.
  - unfold pauseProcessing, saveToStorage.
    match goal with |- budget_kept (notifyProgress (set_localStorage _ ?w1)) =>
      same_budget w1 end.
    apply budget_kept_clearTimers. by same_budget w.
  - unfold resumeProcessing. destruct (negb _); [done|].
    apply budget_kept_processNext. unfold saveToStorage. by same_budget w.
  - by apply budget_kept_stopProcessing.
  - pose proof (budget_kept_stopProcessing w Hw) as (Hi & Hf & Ht).
    unfold budget_kept, clearQueue, resetStatistics, saveToStorage.
    rewrite notifyProgress_shape. cbn. repeat split; done.
  - destruct Hw as (Hi & Hf & Ht). unfold budget_kept, removeFromQueue. world_norm.
    repeat split; try done.
    rewrite !Forall_forall in *. intros x Hx.
    apply list_elem_of_filter in Hx as [_ Hx]. auto.
  - unfold retryFailedItem. destruct (list_find _ _) as [[i item]|] eqn:Hf; [|done].
    apply list_find_Some in Hf as (Hi & _ & _).
    assert (Hset : budget_kept
              (with_state (λ s, set_items (<[i:=resetRetry item]> (items s)) s) w)).
    { destruct Hw as (Hit & Hfl & Ht). unfold budget_kept. cbn.
      repeat split; try done. apply Forall_insert; [done|].
      rewrite Forall_forall in Hit.
      destruct (Hit item (list_elem_of_lookup_2 _ _ _ Hi)) as [[H0 H1] Hm].
      repeat split; cbn; try done; lia. }
    destruct (negb _); [by apply budget_kept_startProcessing | done].
  - unfold destroy. same_budget (clearTimers w). by apply budget_kept_clearTimers.
  - unfold fire. destruct (list_find _ _) as [[i t]|] eqn:Hf; [|done].
    destruct (decide _); [|done].
    apply list_find_Some in Hf as (Hi & _ & _).
    destruct (action t) eqn:Ha.
    + by apply budget_kept_processNext, budget_kept_clearTimeout.
    + pose proof (budget_kept_clearTimeout h w Hw) as (Hit & Hfl & Ht).
      destruct Hw as (_ & _ & Htm). rewrite Forall_forall in Htm.
      pose proof (Htm t (list_elem_of_lookup_2 _ _ _ Hi)) as Hok.
      unfold timer_ok in Hok. rewrite Ha in Hok. destruct Hok as [Hb _].
      unfold budget_kept, saveToStorage. rewrite notifyProgress_shape. cbn.
      repeat split; try done. by constructor.
  - destruct (inflight w !! k) as [item|] eqn:Hk.
    + rewrite (settle_world now k o w item Hk). by apply budget_kept_after_settle.
    + by rewrite (processNext_settle_missing now k o w Hk).
Qed.

Lemma budget_kept_construct now stored : budget_kept (construct now stored).
Proof.
  unfold budget_kept, construct, loadFromStorage. cbn [localStorage].
  destruct stored as [| |ps]; [by cbn..|].
  destruct (p_rateLimitInfo ps), (p_statistics ps); by cbn.
Qed.

(** X13. The retry budget is kept along every run of a newly constructed
    queue: an item that is pending or in flight has failed at most twice
    ([0 ≤ retryCount ≤ 2]) and has [maxRetries = 3], and every pending
    backoff timer waits 2000 ms or 4000 ms, less than the pacing delay, so
    that a retried item is back in the list before the tick armed together
    with its backoff comes due. *)
Theorem retry_budget_is_kept (now : Z) (stored : StorageEntry)
    (evs : list (Z * Event)) :
  (∀ item, item ∈ items (state (run evs (construct now stored)))
             ∨ item ∈ inflight (run evs (construct now stored)) →
           0 ≤ retryCount item ≤ 2 ∧ maxRetries item = MAX_RETRIES) ∧
  (∀ t, t ∈ pending_requeues (run evs (construct now stored)) →
        (delay t = 2000 ∨ delay t = 4000) ∧ delay t < PROCESSING_DELAY).
Proof.
  assert (H : budget_kept (run evs (construct now stored))).
  { generalize (budget_kept_construct now stored).
    generalize (construct now stored).
    induction evs as [|[t e] evs IH]; intros w Hw; [done|].
    cbn [run]. by apply IH, budget_kept_step. }
  destruct H as (Hi & Hf & Ht). rewrite !Forall_forall in *.
  split.
  - intros item [Hin|Hin]; [destruct (Hi _ Hin) as [[? ?] Hm]
                           |destruct (Hf _ Hin) as [[? ?] Hm]];
      rewrite Hm in *; unfold MAX_RETRIES in *; split; (lia || done).
  - intros t Hin. apply pending_requeues_in in Hin as [Hin [item Ha]].
    specialize (Ht t Hin). unfold timer_ok in Ht. rewrite Ha in Ht.
    destruct Ht as ([[H0 H1] Hm] & H2 & Hd).
    rewrite Hm in H1. unfold MAX_RETRIES in H1.
    assert (retryCount item = 1 ∨ retryCount item = 2) as [E|E] by lia;
      rewrite E in Hd; rewrite Hd; unfold PROCESSING_DELAY;
      vm_compute backoffDelay; split; (lia || auto).
Qed.

Lemma retry_budget_is_kept_witness :
  Forall (λ t, (delay t = 2000 ∨ delay t = 4000) ∧ delay t < PROCESSING_DELAY)
    (pending_requeues (run (take 6 MoreExamples.failing_script) (construct 1000 Absent))) ∧
  pending_requeues (run (take 6 MoreExamples.failing_script) (construct 1000 Absent)) ≠ [].
Proof.
  split.
  - apply Forall_forall.
    exact (proj2 (retry_budget_is_kept 1000 Absent (take 6 MoreExamples.failing_script))).
  - vm_compute. discriminate.
Defined.



(** *** What the caller cannot cancel *)

Lemma requeued_in w t item :
  t ∈ timers w → action t = Requeue item → t ∈ pending_requeues w.
Proof. intros Ht Ha. apply pending_requeues_in. eauto. Qed.

Lemma timers_clearTimers_keep w t :
  timers_wf w → t ∈ pending_requeues w → t ∈ timers (clearTimers w).
Proof.
  intros (H1 & H2 & H3 & H4 & H5) Ht.
  destruct (H5 t Ht) as [Hp Hr].
  apply pending_requeues_in in Ht as [Ht _].
  rewrite clearTimers_shape.
  cbn [timers set_timers set_processingTimer set_rateLimitTimer].
  unfold without.
  destruct (rateLimitTimer w) as [h2|], (processingTimer w) as [h1|];
    repeat (apply list_elem_of_filter; split); try done; congruence.
Qed.

Lemma timers_clearTimers_sub w t : t ∈ timers (clearTimers w) → t ∈ timers w.
Proof.
  rewrite clearTimers_shape.
  cbn [timers set_timers set_processingTimer set_rateLimitTimer].
  unfold without. intros Ht.
  destruct (rateLimitTimer w), (processingTimer w);
    repeat (apply list_elem_of_filter in Ht as [_ Ht]); done.
Qed.

(** X14. Stopping, pausing, clearing, removing and destroying cancel
    neither a call in flight nor a pending backoff.  On a coherent queue each
    of these calls leaves the calls in flight and the items waiting for their
    backoff as they are.  In particular, after [clearQueue] has emptied the
    pending list, a backoff timer that comes due puts its item back: the
    cleared queue then holds that item again. *)
Theorem caller_cannot_cancel (now : Z) (w : World) (requestId : string)
    (t : Timer) (item : QueueItem) :
  timers_wf w →
  (∀ e, e = StopProcessing ∨ e = PauseProcessing ∨ e = ClearQueue ∨
        e = RemoveFromQueue requestId ∨ e = Destroy →
        inflight (step now e w) = inflight w ∧
        requeued_items (step now e w) = requeued_items w) ∧
  (t ∈ timers w → action t = Requeue item → due t ≤ now →
   items (state (clearQueue w)) = [] ∧
   items (state (fire now (handle t) (clearQueue w))) = [item]).
Proof.
  intros Hw. split.
  - intros e He.
    assert (Hct : requeued_items (clearTimers w) = requeued_items w)
      by (by apply requeued_clearTimers).
    unfold requeued_items in *.
    destruct He as [-> | [-> | [-> | [-> | ->]]]]; cbn [step];
      unfold clearQueue, resetStatistics, removeFromQueue, destroy;
      world_norm; rewrite ?clearTimers_shape in Hct; done.
  - intros Ht Ha Hd.
    assert (Hitems : items (state (clearQueue w)) = []).
    { unfold clearQueue, resetStatistics. by world_norm. }
    split; [exact Hitems|].
    assert (Htm : timers (clearQueue w) = timers (clearTimers w)).
    { unfold clearQueue, resetStatistics. by world_norm. }
    assert (Hin : t ∈ timers (clearQueue w)).
    { rewrite Htm. apply timers_clearTimers_keep; [done|]. by eapply requeued_in. }
    assert (Hnd : NoDup (handle <$> timers (clearQueue w))).
    { rewrite Htm. exact (proj1 (proj2 (timers_wf_clearTimers w Hw))). }
    destruct (list_find_unique (handle t) _ t Hnd Hin eq_refl) as [i Hf].
    rewrite (fire_requeue now (handle t) (clearQueue w) i t item Hf Ha Hd).
    by rewrite Hitems.
Qed.

Lemma caller_cannot_cancel_witness :
  items (state (clearQueue MoreExamples.in_backoff)) = [] ∧
  items (state (fire 4000 1 (clearQueue MoreExamples.in_backoff)))
    = [bumpRetry (touch 1000 (newItem Examples.req1))].
Proof.
  assert (Hwf : timers_wf MoreExamples.in_backoff).
  { assert (E : MoreExamples.in_backoff
              = run [(1000, OnProgress); (1000, OnRateLimitUpdate); (1000, OnResult);
                     (1000, AddToQueue Examples.req1); (1000, StartProcessing);
                     (2000, CallSettles 0%nat (Rejected "Network error"%string))]
                  (construct 1000 Absent))
      by (vm_compute; reflexivity).
    rewrite E. apply timers_wf_run, timers_wf_construct. }
  apply (proj2 (caller_cannot_cancel 4000 MoreExamples.in_backoff ""%string
                  {| handle := 1; delay := 2000; due := 4000;
                     action := Requeue (bumpRetry (touch 1000 (newItem Examples.req1))) |}
                  _ Hwf)).
  - vm_compute. left.
  - reflexivity.
  - simpl. lia.
Defined.

(** *** Enqueueing *)

(** X15. Enqueueing a batch is enqueueing its members one by one: the state
    of the queue is the same, the new items come after those already pending
    and in the order given, each with a fresh budget, and what is written to
    storage describes that state.  Enqueueing starts nothing: the flags, the
    timers and the calls in flight are untouched. *)
Theorem batch_is_repeated_enqueue (reqs : list VideoAnalysisRequest) (w : World) :
  state (addMultipleToQueue reqs w)
    = state (foldl (λ w0 req, addToQueue req w0) w reqs) ∧
  items (state (addMultipleToQueue reqs w)) = items (state w) ++ map newItem reqs ∧
  localStorage (addMultipleToQueue reqs w)
    = Parsed (serializeState (state (addMultipleToQueue reqs w))) ∧
  isProcessing (state (addMultipleToQueue reqs w)) = isProcessing (state w) ∧
  timers (addMultipleToQueue reqs w) = timers w ∧
  inflight (addMultipleToQueue reqs w) = inflight w ∧
  fetches (addMultipleToQueue reqs w) = fetches w.
Proof.
  split.
  - assert (H : ∀ w0, state (foldl (λ w0 req, addToQueue req w0) w0 reqs)
                = set_items (items (state w0) ++ map newItem reqs) (state w0)).
    { induction reqs as [|r reqs IH]; intros w0.
      - simpl. rewrite app_nil_r. by destruct (state w0).
      - cbn [foldl]. rewrite IH. unfold addToQueue. world_norm.
        unfold set_items. cbn. by rewrite <- app_assoc. }
    rewrite H. unfold addMultipleToQueue. by world_norm.
  - unfold addMultipleToQueue. world_norm. repeat split; try done.
    unfold fetches. world_norm. rewrite omap_app.
    destruct (progressCallback w); simpl; by rewrite app_nil_r.
Qed.


(** *** Classification of error messages *)









(** *** After [destroy] *)

Lemma omap_nil_r {A B} (f : A → option B) : omap f [] = [].
Proof. reflexivity. Qed.

(** Normalises a goal about the subscribers and the notifications of a world
    built from one without subscribers. *)
Ltac hush Hs :=
  let Hp := fresh "Hp" in let Hr := fresh "Hr" in let Hres := fresh "Hres" in
  pose proof Hs as (Hp & Hr & Hres);
  unfold silent, notifications; world_norm;
  rewrite ?Hp, ?Hr, ?Hres; rewrite ?omap_app, ?omap_nil_r, ?app_nil_r.

Lemma silent_stopProcessing w :
  silent w → silent (stopProcessing w) ∧
             notifications (stopProcessing w) = notifications w.
Proof. intros Hs. by hush Hs. Qed.

Lemma silent_dispatch now w :
  silent w → silent (dispatch now w) ∧ notifications (dispatch now w) = notifications w.
Proof.
  intros Hs. unfold dispatch. destruct (items (state w)); [done|].
  hush Hs. done.
Qed.

Lemma silent_notifyRateLimit f w :
  silent w →
  silent (notifyRateLimit (with_state f w)) ∧
  notifications (notifyRateLimit (with_state f w)) = notifications w.
Proof. intros Hs. by hush Hs. Qed.

Lemma silent_processNext now w :
  silent w → silent (processNext now w) ∧
             notifications (processNext now w) = notifications w.
Proof.
  intros Hs.
  destruct (processNext_shapes now w)
    as [-> | [-> | [[_ ->] | (x & rest & _ & _ & _ & [-> | ->])]]].
  - done.
  - by apply silent_stopProcessing.
  - by hush Hs.
  - by apply silent_dispatch.
  - match goal with |- context [notifyRateLimit (with_state ?f w)] =>
      destruct (silent_notifyRateLimit f w Hs) as [H1 H2];
      destruct (silent_dispatch now _ H1) as [H3 H4] end.
    split; [done | by rewrite H4].
Qed.

Lemma silent_startProcessing now w :
  silent w → silent (startProcessing now w) ∧
             notifications (startProcessing now w) = notifications w.
Proof.
  intros Hs. unfold startProcessing. destruct (isProcessing (state w)); [done|].
  match goal with |- context [processNext now ?w1] =>
    assert (Hw1 : silent w1 ∧ notifications w1 = notifications w) by (by hush Hs);
    destruct Hw1 as [H1 H2];
    destruct (silent_processNext now w1 H1) as [H3 H4] end.
  split; [done | by rewrite H4].
Qed.

Lemma silent_step now e w :
  silent w → ¬ subscribes e →
  silent (step now e w) ∧ notifications (step now e w) = notifications w.
Proof.
  intros Hs He. destruct e; cbn [step]; try (by destruct He).
  - unfold addToQueue. by hush Hs.
  - unfold addMultipleToQueue. by hush Hs.
  - by apply silent_startProcessing.
  - by hush Hs.
  - unfold resumeProcessing. destruct (negb _); [done|].
    match goal with |- context [processNext now ?w1] =>
      assert (Hw1 : silent w1 ∧ notifications w1 = notifications w) by (by hush Hs);
      destruct Hw1 as [H1 H2];
      destruct (silent_processNext now w1 H1) as [H3 H4] end.
    split; [done | by rewrite H4].
  - by apply silent_stopProcessing.
  - unfold clearQueue, resetStatistics. by hush Hs.
  - unfold removeFromQueue. by hush Hs.
  - unfold retryFailedItem. destruct (list_find _ _) as [[i item]|]; [|done].
    destruct (negb _).
    + match goal with |- context [startProcessing now ?w1] =>
        assert (Hw1 : silent w1 ∧ notifications w1 = notifications w) by (by hush Hs);
        destruct Hw1 as [H1 H2];
        destruct (silent_startProcessing now w1 H1) as [H3 H4] end.
      split; [done | by rewrite H4].
    + by hush Hs.
  - unfold destroy. by hush Hs.
  - unfold fire. destruct (list_find _ _) as [[i t]|]; [|done].
    destruct (decide _); [|done].
    destruct (action t).
    + assert (Hw1 : silent (clearTimeout h w) ∧
                    notifications (clearTimeout h w) = notifications w)
        by (unfold clearTimeout; by hush Hs).
      destruct Hw1 as [H1 H2].
      destruct (silent_processNext now _ H1) as [H3 H4].
      split; [done | by rewrite H4].
    + unfold clearTimeout. by hush Hs.
  - destruct (inflight w !! k) as [item|] eqn:Hk;
      [|by rewrite (processNext_settle_missing now k o w Hk)].
    rewrite (settle_world now k o w item Hk).
    unfold after_settle, handleProcessingError, absorb.
    destruct (verdict _ _ _); [|destruct (_ && _)]; destruct (snapshot_of _);
      by hush Hs.
Qed.

(** X17. A destroyed queue notifies nobody.  After [destroy] no callback is
    subscribed and no timer of the loop is armed; until a callback is
    registered again, no event makes the object call a callback, although a
    call in flight that settles is still counted in the statistics. *)
Theorem destroyed_queue_is_silent (evs : list (Z * Event)) (w : World) :
  silent (destroy w) ∧
  processingTimer (destroy w) = None ∧ rateLimitTimer (destroy w) = None ∧
  (silent w → Forall (λ ne, ¬ subscribes ne.2) evs →
   silent (run evs w) ∧ notifications (run evs w) = notifications w).
Proof.
  unfold destroy. rewrite clearTimers_shape.
  split; [done|]. split; [done|]. split; [done|].
  revert w. induction evs as [|[now e] evs IH]; intros w Hs Hev; [done|].
  apply Forall_cons in Hev as [He Hev]. cbn [run].
  destruct (silent_step now e w Hs He) as [Hs' Hn'].
  destruct (IH _ Hs' Hev) as [H1 H2]. split; [done | by rewrite H2].
Qed.

Lemma destroyed_queue_is_silent_witness :
  notifications (run [(2000, CallSettles 0%nat (Responded Examples.okResponse))]
                   (destroy Examples.dispatched))
    = notifications (destroy Examples.dispatched) ∧
  successCount (statistics (state
    (run [(2000, CallSettles 0%nat (Responded Examples.okResponse))]
       (destroy Examples.dispatched)))) = 1.
Proof.
  split; [|vm_compute; reflexivity].
  apply (proj2 (proj2 (proj2 (destroyed_queue_is_silent _ (destroy Examples.dispatched))))).
  - vm_compute. done.
  - repeat constructor. simpl. tauto.
Defined.

(** *** Resuming, starting on nothing, and the records of the route *)

(** X18. [resumeProcessing] continues only a run that was started: on a
    queue that is not processing it does nothing.  On a processing queue
    with a pending item and capacity left it sends the head item at once,
    whether or not the queue was paused, whatever the time since the last
    request and whatever calls are in flight, and it arms or clears no
    timer; so pausing and resuming sends the next item without waiting for
    the pacing delay. *)
Theorem resume_sends_at_once (now : Z) (w : World) (x : QueueItem)
    (rest : list QueueItem) :
  (isProcessing (state w) = false → resumeProcessing now w = w) ∧
  (isProcessing (state w) = true → items (state w) = x :: rest →
   0 < remaining (rateLimitInfo (state w)) →
   inflight (resumeProcessing now w) = inflight w ++ [touch now x] ∧
   items (state (resumeProcessing now w)) = rest ∧
   fetches (resumeProcessing now w) = S (fetches w) ∧
   timers (resumeProcessing now w) = timers w ∧
   inflight (resumeProcessing now (pauseProcessing w)) = inflight w ++ [touch now x]).
Proof.
  split.
  - intros Hp. unfold resumeProcessing. by rewrite Hp.
  - intros Hp Hi Hr.
    assert (Hgen : ∀ w0, isProcessing (state w0) = true → items (state w0) = x :: rest →
              0 < remaining (rateLimitInfo (state w0)) →
              inflight (resumeProcessing now w0) = inflight w0 ++ [touch now x] ∧
              items (state (resumeProcessing now w0)) = rest ∧
              fetches (resumeProcessing now w0) = S (fetches w0) ∧
              timers (resumeProcessing now w0) = timers w0).
    { clear. intros w Hp Hi Hr. unfold resumeProcessing. rewrite Hp. cbn [negb].
      set (w1 := notifyProgress _).
      assert (H1 : state w1 = set_isPaused false (state w) ∧ inflight w1 = inflight w ∧
                   fetches w1 = fetches w ∧ timers w1 = timers w).
      { subst w1. unfold saveToStorage. rewrite notifyProgress_shape, fetches_emit_when.
        cbn. unfold fetches. cbn. repeat split; lia. }
      destruct H1 as (Hs1 & Hf1 & Hn1 & Ht1).
      assert (Hpn : processNext now w1 = dispatch now w1).
      { unfold processNext. rewrite Hs1. cbn [isProcessing isPaused items rateLimitInfo
          set_isPaused]. rewrite Hp, Hi. cbn.
        destruct (decide (remaining _ ≤ 0)); [lia | done]. }
      rewrite Hpn.
      assert (Hi1 : items (state w1) = x :: rest) by (by rewrite Hs1).
      destruct (dispatch_cons now w1 x rest Hi1) as [Hs Hin].
      rewrite Hs, Hin, fetches_dispatch, Hi1, Hf1, Hn1.
      repeat split; try done; try lia.
      unfold dispatch. rewrite Hi1. cbn. done. }
    destruct (Hgen w Hp Hi Hr) as (H1 & H2 & H3 & H4).
    repeat split; try done.
    destruct (Hgen (pauseProcessing w)) as (H5 & _).
    + by world_norm.
    + by world_norm.
    + by world_norm.
    + rewrite H5. by world_norm.
Qed.

Lemma resume_sends_at_once_witness :
  length (inflight (resumeProcessing 1500 (pauseProcessing MoreExamples.two_queued))) = 2%nat.
Proof.
  assert (Hi : items (state MoreExamples.two_queued)
               = [newItem MoreExamples.req2]) by (vm_compute; reflexivity).
  assert (Hp : isProcessing (state MoreExamples.two_queued) = true)
    by (vm_compute; reflexivity).
  assert (Hr : 0 < remaining (rateLimitInfo (state MoreExamples.two_queued)))
    by (vm_compute; reflexivity).
  assert (Hl : length (inflight MoreExamples.two_queued) = 1%nat)
    by (vm_compute; reflexivity).
  destruct (proj2 (resume_sends_at_once 1500 MoreExamples.two_queued _ _) Hp Hi Hr)
    as (_ & _ & _ & _ & H).
  rewrite H, length_app, Hl. reflexivity.
Defined.

(** X19. A queue with nothing pending goes idle.  [startProcessing] on an
    idle queue with an empty list records the start time and leaves the
    queue not processing, without a request or a timer of the loop; a tick
    that finds the list of a processing queue empty stops the queue, unpaused
    and with both timers of the loop cleared, whatever is still in flight. *)
Theorem empty_queue_goes_idle (now : Z) (w : World) :
  items (state w) = [] →
  (isProcessing (state w) = false →
   isProcessing (state (startProcessing now w)) = false ∧
   startTime (statistics (state (startProcessing now w))) = Some now ∧
   fetches (startProcessing now w) = fetches w ∧
   processingTimer (startProcessing now w) = None ∧
   rateLimitTimer (startProcessing now w) = None) ∧
  (isProcessing (state w) = true →
   isProcessing (state (processNext now w)) = false ∧
   isPaused (state (processNext now w)) = false ∧
   fetches (processNext now w) = fetches w ∧
   inflight (processNext now w) = inflight w ∧
   processingTimer (processNext now w) = None ∧
   rateLimitTimer (processNext now w) = None).
Proof.
  intros Hi.
  assert (Hpn : ∀ w0, items (state w0) = [] → isProcessing (state w0) = true →
                      processNext now w0 = stopProcessing w0).
  { intros w0 H0 Hp. unfold processNext. rewrite H0, Hp. cbn.
    by rewrite orb_true_r. }
  split; intros Hp.
  - unfold startProcessing. rewrite Hp.
    rewrite Hpn by (by world_norm).
    rewrite fetches_stopProcessing.
    unfold saveToStorage. rewrite notifyProgress_shape, fetches_emit_when.
    world_norm. unfold fetches. cbn. repeat split; lia.
  - rewrite Hpn by done. rewrite fetches_stopProcessing. by world_norm.
Qed.

Lemma empty_queue_goes_idle_witness :
  isProcessing (state (startProcessing 1000 Examples.fresh)) = false.
Proof.
  apply (proj1 (empty_queue_goes_idle 1000 Examples.fresh ltac:(vm_compute; reflexivity))).
  vm_compute. reflexivity.
Defined.

(** X20. The limiter and the scheduler fit together: when every record that
    arrives with a response is one the route builds (from the answer of a
    check, or the fixed record of the responses sent without a check) under
    a non-negative ceiling, and the record found in storage at construction,
    if any, adds up, then the record of the queue satisfies
    [remaining = max 0 (maxRequestsPerMinute - requestsInLastMinute)] after
    every run. *)
Theorem route_snapshots_keep_balance (ceiling now : Z) (stored : StorageEntry)
    (evs : list (Z * Event)) :
  0 ≤ ceiling →
  snapshots_satisfy (RouteExt.from_route ceiling) evs →
  match stored with
  | Parsed ps =>
      match p_rateLimitInfo ps with
      | Some info => balanced info ∧ 0 ≤ maxRequestsPerMinute info
      | None => True
      end
  | _ => True
  end →
  balanced (rateLimitInfo (state (run evs (construct now stored)))).
Proof.
  intros Hc Hs Hst.
  apply (balanced_along_runs evs (construct now stored)).
  - eapply Forall_impl; [exact Hs|]. intros [t e]. cbn.
    destruct (snapshot_of e); [|done]. by apply RouteExtFacts.from_route_balanced.
  - assert (Hinit : balanced (rateLimitInfo (initializeState now)) ∧
                    0 ≤ maxRequestsPerMinute (rateLimitInfo (initializeState now))).
    { unfold balanced. cbn. unfold DEFAULT_RATE_LIMIT_PER_MINUTE. lia. }
    unfold construct, loadFromStorage. cbn [localStorage].
    destruct stored as [| |ps]; [done..|].
    destruct (p_rateLimitInfo ps), (p_statistics ps); done.
Qed.

Lemma route_snapshots_keep_balance_witness :
  balanced (rateLimitInfo (state
    (run MoreExamples.served_script (construct 1000 Absent)))) ∧
  rateLimitInfo (state (run MoreExamples.served_script (construct 1000 Absent)))
    = {| remaining := 8; resetTime := 62000; requestsInLastMinute := 2;
         maxRequestsPerMinute := 10 |}.
Proof.
  split; [|vm_compute; reflexivity].
  apply (route_snapshots_keep_balance 10 1000 Absent MoreExamples.served_script).
  - lia.
  - repeat (apply Forall_cons; split); try apply Forall_nil; cbn; try done.
    left. by exists Examples.check_2, ∅.
  - done.
Defined.

(** *** Results and counters *)

Lemma results_emit_when b e w :
  results (emit_when b e w)
    = results w ++ match e with EResult r => if b then [r] else [] | _ => [] end.
Proof.
  unfold results, emit_when. cbn [trace]. rewrite omap_app.
  destruct b, e; done.
Qed.

Ltac same_report :=
  unfold report_view; world_norm;
  rewrite ?results_emit_when, ?app_nil_r; unfold results; world_norm;
  rewrite ?omap_app, ?app_nil_r; try reflexivity.

Lemma report_view_stopProcessing w : report_view (stopProcessing w) = report_view w.
Proof. by same_report. Qed.

Lemma report_view_dispatch now w : report_view (dispatch now w) = report_view w.
Proof.
  unfold dispatch. destruct (items (state w)); [done|].
  unfold report_view, results. cbn. by rewrite omap_app, app_nil_r.
Qed.

Lemma report_view_processNext now w : report_view (processNext now w) = report_view w.
Proof.
  destruct (processNext_shapes now w)
    as [-> | [-> | [[_ ->] | (x & rest & _ & _ & _ & [-> | ->])]]].
  - done.
  - apply report_view_stopProcessing.
  - by same_report.
  - apply report_view_dispatch.
  - rewrite report_view_dispatch. by same_report.
Qed.

Lemma report_view_startProcessing now w :
  report_view (startProcessing now w) = report_view w.
Proof.
  unfold startProcessing. destruct (isProcessing (state w)); [done|].
  rewrite report_view_processNext. by same_report.
Qed.

Lemma reported_app st w r rs :
  results w = rs ++ [r] →
  Z.of_nat (length (List.filter (has_status st) (results w)))
    = Z.of_nat (length (List.filter (has_status st) rs))
      + (if has_status st r then 1 else 0).
Proof.
  intros ->. rewrite List.filter_app, length_app. simpl.
  destruct (has_status st r); simpl; lia.
Qed.

(** One event keeps the counters in step with the reported results. *)
Lemma tally_step now e w :
  resultCallback w = true → keeps_reporting e →
  resultCallback (step now e w) = true ∧
  ∀ st, counted st (step now e w) - reported st (step now e w)
        = counted st w - reported st w.
Proof.
  intros Hcb He.
  assert (Hview : ∀ w', report_view w' = report_view w →
            resultCallback w' = true ∧
            ∀ st, counted st w' - reported st w' = counted st w - reported st w).
  { unfold report_view, reported, counted. intros w' [= H1 H2 H3 H4].
    rewrite H1, H2, H3, H4. done. }
  destruct e; cbn [step]; try (by destruct He).
  - apply Hview. unfold addToQueue. by same_report.
  - apply Hview. unfold addMultipleToQueue. by same_report.
  - apply Hview. apply report_view_startProcessing.
  - apply Hview. by same_report.
  - apply Hview. unfold resumeProcessing. destruct (negb _); [done|].
    rewrite report_view_processNext. by same_report.
  - apply Hview. apply report_view_stopProcessing.
  - apply Hview. unfold removeFromQueue. by same_report.
  - apply Hview. unfold retryFailedItem.
    destruct (list_find _ _) as [[i item]|]; [|done].
    destruct (negb _); [rewrite report_view_startProcessing|]; by same_report.
  - apply Hview. unfold fire. destruct (list_find _ _) as [[i t]|]; [|done].
    destruct (decide _); [|done].
    destruct (action t).
    + rewrite report_view_processNext. unfold clearTimeout. by same_report.
    + unfold clearTimeout. by same_report.
  - destruct (inflight w !! k) as [item|] eqn:Hk;
      [|rewrite (processNext_settle_missing now k o w Hk); by apply Hview].
    rewrite (settle_world now k o w item Hk).
    assert (Hc : resultCallback
              (after_settle item o now (set_inflight (delete k (inflight w)) w)) = true).
    { unfold after_settle, handleProcessingError, absorb.
      destruct (verdict _ _ _); [|destruct (_ && _)]; destruct (snapshot_of _);
        by world_norm. }
    split; [exact Hc|]. intros st. unfold reported, counted.
    destruct (verdict (request item) o now) as [result|msg] eqn:Hv.
    + destruct (settle_success now k o w item result Hv) as [Hst Hres].
      rewrite Hst, Hcb in *. cbn [successCount errorCount].
      rewrite !(reported_app _ _ _ _ Hres).
      assert (Hstatus : status result = completed).
      { unfold verdict in Hv. destruct o as [m|r]; [done|].
        destruct (success r), (data r); try done. by injection Hv as <-. }
      unfold has_status. rewrite Hstatus. destruct st; lia.
    + destruct (isRetryableError msg &&
                bool_decide (retryCount item + 1 < maxRetries item)) eqn:Hr.
      * destruct (settle_retry now k o w item msg Hv Hr) as (Hst & Hres & _).
        rewrite Hst, Hres. done.
      * destruct (settle_terminal now k o w item msg Hv Hr) as (Hst & Hres & _).
        rewrite Hst, Hcb in *. cbn [successCount errorCount].
        rewrite !(reported_app _ _ _ _ Hres).
        unfold has_status. cbn [status errorResult]. destruct st; lia.
Qed.

(** While the result callback stays subscribed and the counters are not
    reset, each counter moves with the results of its status. *)
Lemma tally_along_runs (evs : list (Z * Event)) (w : World) (st : Status) :
  resultCallback w = true →
  Forall (λ ne, keeps_reporting ne.2) evs →
  counted st (run evs w) - counted st w
    = reported st (run evs w) - reported st w.
Proof.
  intros Hcb Hev.
  revert w Hcb. induction evs as [|[now e] evs IH]; intros w Hcb.
  - cbn [run]. lia.
  - apply Forall_cons in Hev as [He Hev]. cbn [run].
    destruct (tally_step now e w Hcb He) as (Hcb' & Hs).
    specialize (IH Hev (step now e w) Hcb'). specialize (Hs st). lia.
Qed.

End QueueRunFacts.

(* ===================================================================== *)
(** ** The scheduler and its subscribers                                 *)
(* ===================================================================== *)

Module CallbackFacts.
Import Queue Notions Accounting QueueFacts QueueRunFacts.

(** *** Subscribers that return: the two descriptions agree *)

Section Returning.
Variable raises : Emitted → option string.
Hypothesis Hret : Callbacks.returning raises.

Lemma notifyProgress_returning w :
  Callbacks.notifyProgress raises w = (Normal tt, notifyProgress w).
Proof.
  unfold Callbacks.notifyProgress, notifyProgress, Callbacks.invoke.
  destruct (progressCallback w); [|done]. by rewrite Hret.
Qed.

Lemma notifyRateLimit_returning w :
  Callbacks.notifyRateLimit raises w = (Normal tt, notifyRateLimit w).
Proof.
  unfold Callbacks.notifyRateLimit, notifyRateLimit, Callbacks.invoke.
  destruct (rateLimitCallback w); [|done]. by rewrite Hret.
Qed.

Lemma notifyResult_returning r w :
  Callbacks.notifyResult raises r w = (Normal tt, notifyResult r w).
Proof.
  unfold Callbacks.notifyResult, notifyResult, Callbacks.invoke.
  destruct (resultCallback w); [|done]. by rewrite Hret.
Qed.

Ltac returning :=
  unfold bind, lift, ret, Callbacks.detached; cbv beta iota zeta;
  repeat (first [ rewrite notifyProgress_returning
                | rewrite notifyRateLimit_returning
                | rewrite notifyResult_returning ];
          cbv beta iota zeta).

Lemma stopProcessing_returning w :
  Callbacks.stopProcessing raises w = (Normal tt, stopProcessing w).
Proof. unfold Callbacks.stopProcessing, stopProcessing. by returning. Qed.

Lemma processNext_returning now w :
  Callbacks.processNext raises now w = (Normal tt, processNext now w).
Proof.
  unfold Callbacks.processNext, processNext.
  destruct (negb _ || _ || _).
  - destruct (_ && _); [apply stopProcessing_returning | done].
  - destruct (decide (remaining _ ≤ 0)); [destruct (decide (0 < _))|].
    + by returning.
    + by returning.
    + by returning.
Qed.

Lemma startProcessing_returning now w :
  Callbacks.startProcessing raises now w = (Normal tt, startProcessing now w).
Proof.
  unfold Callbacks.startProcessing, startProcessing.
  destruct (isProcessing (state w)); [done|].
  returning. by rewrite processNext_returning.
Qed.

Lemma analysis_returning req o now w :
  Callbacks.processVideoAnalysis_settle raises req o now w
    = processVideoAnalysis_settle req o now w.
Proof.
  unfold Callbacks.processVideoAnalysis_settle, processVideoAnalysis_settle.
  destruct o as [msg|r]; [done|].
  destruct (api_rateLimitInfo r); by returning.
Qed.

Lemma handleProcessingError_returning item msg now w :
  Callbacks.handleProcessingError raises item msg now w
    = (Normal tt, handleProcessingError item msg now w).
Proof.
  unfold Callbacks.handleProcessingError, handleProcessingError.
  destruct (_ && _); by returning.
Qed.

Lemma recordSuccess_returning result w :
  Callbacks.recordSuccess raises result w = (Normal tt, recordSuccess result w).
Proof. unfold Callbacks.recordSuccess, recordSuccess. by returning. Qed.

Lemma processNext_settle_returning now k o w :
  Callbacks.processNext_settle raises now k o w = processNext_settle now k o w.
Proof.
  unfold Callbacks.processNext_settle, processNext_settle.
  destruct (inflight w !! k) as [item|]; [|done].
  unfold bind, tryCatch. rewrite analysis_returning.
  destruct (processVideoAnalysis_settle _ _ _ _) as [[result|msg] w1].
  - rewrite recordSuccess_returning. done.
  - rewrite handleProcessingError_returning. done.
Qed.

Lemma fire_returning now h w :
  Callbacks.fire raises now h w = (Normal tt, fire now h w).
Proof.
  unfold Callbacks.fire, fire.
  destruct (list_find _ _) as [[i t]|]; [|done].
  destruct (decide _); [|done].
  destruct (action t).
  - unfold bind, lift. by rewrite processNext_returning.
  - by returning.
Qed.

Lemma step_returning now e w :
  Callbacks.step raises now e w = (Normal tt, step now e w).
Proof.
  destruct e; cbn [Callbacks.step step]; try done.
  - unfold Callbacks.addToQueue, addToQueue. by returning.
  - unfold Callbacks.addMultipleToQueue, addMultipleToQueue. by returning.
  - apply startProcessing_returning.
  - unfold Callbacks.pauseProcessing, pauseProcessing. by returning.
  - unfold Callbacks.resumeProcessing, resumeProcessing.
    destruct (negb _); [done|]. returning. by rewrite processNext_returning.
  - apply stopProcessing_returning.
  - unfold Callbacks.clearQueue, clearQueue. unfold bind at 1.
    rewrite stopProcessing_returning. by returning.
  - unfold Callbacks.removeFromQueue, removeFromQueue. by returning.
  - unfold Callbacks.retryFailedItem, retryFailedItem.
    destruct (list_find _ _) as [[i item]|]; [|done].
    destruct (negb _); [apply startProcessing_returning | done].
  - apply fire_returning.
  - rewrite processNext_settle_returning.
    destruct (inflight w !! k) as [item|] eqn:Hk.
    + by rewrite (processNext_settle_found now k o w item Hk).
    + by rewrite (processNext_settle_missing now k o w Hk).
Qed.

Lemma run_returning evs : ∀ w, Callbacks.run raises evs w = run evs w.
Proof.
  induction evs as [|[now e] evs IH]; intros w; [done|].
  cbn [Callbacks.run run]. by rewrite step_returning, IH.
Qed.

End Returning.


(** *** Where an exception of the loop comes from *)

Section Origin.
Variable raises : Emitted → option string.













End Origin.


(** *** What becomes of a call that failed *)






(** *** Stopping with a call in flight *)



(** *** Retry delay *)



(** *** Pacing *)




(** *** Exceptions and the loop *)




(** *** Whole runs with subscribers that return *)

(** X7. No work item is lost or duplicated while the subscribers return.  In
    a run of a newly constructed queue in which no callback throws and the
    caller never calls [clearQueue] or [removeFromQueue], the items still
    pending, in flight or waiting for their backoff, plus [totalProcessed],
    always number the items handed to the queue plus the [totalProcessed]
    found in storage at construction. *)
Theorem no_item_lost (raises : Emitted → option string) (now : Z)
    (stored : StorageEntry) (evs : list (Z * Event)) :
  Callbacks.returning raises →
  Forall (λ ne, ¬ discards ne.2) evs →
  accounted (Callbacks.run raises evs (construct now stored))
    = totalProcessed (statistics (state (construct now stored))) + added_in evs.
Proof.
  intros Hret Hev. rewrite (run_returning raises Hret).
  by apply accounted_along_runs.
Qed.

Lemma no_item_lost_witness :
  accounted (Callbacks.run MoreExamples.quiet_subscribers MoreExamples.failing_script
               (construct 1000 Absent))
    = totalProcessed (statistics (state (construct 1000 Absent)))
      + added_in MoreExamples.failing_script.
Proof.
  apply (no_item_lost MoreExamples.quiet_subscribers 1000 Absent
           MoreExamples.failing_script (λ e, eq_refl)).
  repeat constructor; simpl; tauto.
Defined.

(** X21. Every outcome is reported, once, while the subscribers return.  In
    a run in which no callback throws, the result callback stays subscribed
    and the counters are not reset (no [destroy], no [clearQueue]), the
    successes counted are as many as the [completed] results handed to the
    callback, the errors counted as many as the [error] results, and no
    result of another status is ever handed over. *)
Theorem every_outcome_is_reported (raises : Emitted → option string)
    (evs : list (Z * Event)) (w : World) (st : Status) :
  Callbacks.returning raises →
  resultCallback w = true →
  Forall (λ ne, keeps_reporting ne.2) evs →
  counted st (Callbacks.run raises evs w) - counted st w
    = reported st (Callbacks.run raises evs w) - reported st w.
Proof.
  intros Hret Hcb Hev. rewrite (run_returning raises Hret).
  by apply tally_along_runs.
Qed.

Lemma every_outcome_is_reported_witness :
  counted error (Callbacks.run MoreExamples.quiet_subscribers
                   (drop 3 MoreExamples.failing_script)
                   (run (take 3 MoreExamples.failing_script) (construct 1000 Absent)))
  - counted error (run (take 3 MoreExamples.failing_script) (construct 1000 Absent))
    = reported error (Callbacks.run MoreExamples.quiet_subscribers
                        (drop 3 MoreExamples.failing_script)
                        (run (take 3 MoreExamples.failing_script) (construct 1000 Absent)))
      - reported error (run (take 3 MoreExamples.failing_script) (construct 1000 Absent)).
Proof.
  apply (every_outcome_is_reported MoreExamples.quiet_subscribers
           (drop 3 MoreExamples.failing_script)
           (run (take 3 MoreExamples.failing_script) (construct 1000 Absent)) error
           (λ e, eq_refl)).
  - vm_compute. reflexivity.
  - repeat constructor.
Defined.

(** X12. An exhausted window makes the queue wait, and it resumes by itself
    while the subscribers return.  On a coherent, processing, unpaused queue
    with a pending item, no capacity left and a reset time still ahead, a
    tick sends nothing and arms a timer for the time left until the reset.
    When that time is at most 2147483647 ms the timer is due at the reset
    time, and when it fires then the window is reset to the ceiling and the
    head item is sent; when it is longer the timer is due after 1 ms. *)
Theorem exhausted_window_waits (raises : Emitted → option string) (now : Z)
    (w : World) (x : QueueItem) (rest : list QueueItem) :
  Callbacks.returning raises →
  timers_wf w →
  isProcessing (state w) = true → isPaused (state w) = false →
  items (state w) = x :: rest →
  remaining (rateLimitInfo (state w)) ≤ 0 →
  now < resetTime (rateLimitInfo (state w)) →
  fetches (Callbacks.processNext raises now w).2 = fetches w ∧
  items (state (Callbacks.processNext raises now w).2) = x :: rest ∧
  rateLimitTimer (Callbacks.processNext raises now w).2 = Some (nextHandle w) ∧
  (resetTime (rateLimitInfo (state w)) - now ≤ 2147483647 →
   last (timers (Callbacks.processNext raises now w).2)
     = Some {| handle := nextHandle w;
               delay := resetTime (rateLimitInfo (state w)) - now;
               due := resetTime (rateLimitInfo (state w));
               action := CallProcessNext |} ∧
   inflight (Callbacks.fire raises (resetTime (rateLimitInfo (state w)))
               (nextHandle w) (Callbacks.processNext raises now w).2).2
     = inflight w ++ [touch (resetTime (rateLimitInfo (state w))) x] ∧
   rateLimitInfo (state
     (Callbacks.fire raises (resetTime (rateLimitInfo (state w)))
        (nextHandle w) (Callbacks.processNext raises now w).2).2)
     = {| remaining := maxRequestsPerMinute (rateLimitInfo (state w));
          resetTime := resetTime (rateLimitInfo (state w)) + 60000;
          requestsInLastMinute := 0;
          maxRequestsPerMinute := maxRequestsPerMinute (rateLimitInfo (state w)) |}) ∧
  (2147483647 < resetTime (rateLimitInfo (state w)) - now →
   last (timers (Callbacks.processNext raises now w).2)
     = Some {| handle := nextHandle w;
               delay := resetTime (rateLimitInfo (state w)) - now;
               due := now + 1;
               action := CallProcessNext |}).
Proof.
  intros Hret Hw Hp Hq Hi Hex Hahead.
  rewrite (processNext_returning raises Hret). cbn [snd].
  destruct (window_wait now w x rest Hw Hp Hq Hi Hex Hahead)
    as (H1 & H2 & H3 & H4 & H5).
  split; [exact H1|]. split; [exact H2|]. split; [exact H3|]. split.
  - intros Hfit. rewrite (fire_returning raises Hret). cbn [snd].
    destruct (H5 Hfit) as [H6 H7]. rewrite H4, H6, H7.
    split; [|done]. unfold timerDelay, TIMEOUT_MAX.
    rewrite decide_True by lia. do 2 f_equal. lia.
  - intros Hlong. rewrite H4. unfold timerDelay, TIMEOUT_MAX.
    rewrite decide_False by lia. done.
Qed.

Lemma exhausted_window_waits_witness :
  fetches (Callbacks.processNext MoreExamples.quiet_subscribers 10000
             MoreExamples.exhausted).2 = fetches MoreExamples.exhausted ∧
  rateLimitTimer (Callbacks.processNext MoreExamples.quiet_subscribers 10000
                    MoreExamples.exhausted).2 = Some 3%nat.
Proof.
  assert (Hwf : timers_wf MoreExamples.exhausted).
  { assert (E : MoreExamples.exhausted
              = run [(1000, OnProgress); (1000, OnRateLimitUpdate); (1000, OnResult);
                     (1000, AddToQueue Examples.req1); (1000, StartProcessing);
                     (2000, CallSettles 0%nat (Responded Examples.rateLimited429));
                     (4000, TimerFires 1%nat)] (construct 1000 Absent))
      by (vm_compute; reflexivity).
    rewrite E. apply timers_wf_run, timers_wf_construct. }
  destruct (exhausted_window_waits MoreExamples.quiet_subscribers 10000
              MoreExamples.exhausted
              (bumpRetry (touch 1000 (newItem Examples.req1))) [] (λ e, eq_refl) Hwf
              ltac:(vm_compute; reflexivity) ltac:(vm_compute; reflexivity)
              ltac:(vm_compute; reflexivity) ltac:(vm_compute; discriminate)
              ltac:(vm_compute; reflexivity)) as (H1 & _ & H3 & _).
  split; [exact H1 | exact H3].
Defined.

End CallbackFacts.
